(** * A shallow embedding of the game engine of [src/src/TetrisCanvas.jsx]

    The component keeps its game state in React state hooks and changes it
    from event handlers.  The embedding has three layers:

    - the pure helpers ([collides], [mergePiece], [clearLines],
      [rotateMatrixCW], ...) are functions on lists; a JavaScript
      [TypeError] (reading a property of [undefined]) is the result [None];
    - [mergePiece] is also given on an explicit store of array objects
      ([Module Store]), because one of the properties proved below is that
      it leaves the arrays of its argument alone;
    - the handlers ([stepDown], [hardDrop], [rotate], [doHold], ...) are
      actions of a small state monad [Act]: they read the state of the
      render they were created in and queue state updates.  A session
      ([play]) runs the handlers of a list of events; next to the state
      it keeps the interval timer of the buttons that repeat, whose
      function is the one of the render of the press.

    The helpers around the engine ([getGhost], [nextPieces], the drop
    interval, [recalc], [hexToRgb], [rgbToHex], [shade]) and the text of
    the overlay are functions of the first kind. *)

From Stdlib Require Import ZArith QArith.QArith_base QArith.Qround Lia Ascii.
From stdpp Require Import base option list gmap strings.

Set Default Proof Using "Type".

(** ** Constants and data *)

Definition COLS : Z := 10.
Definition ROWS : Z := 20.

(** A colour is a string such as ["#00FFFF"]. *)
Abbreviation Color := string (only parsing).

(** A cell of the board is [null] or a colour.  [None] stands for [null]
    (and for [undefined], which the code never tells apart from it). *)
Abbreviation Cell := (option Color) (only parsing).

(** A board is an array of rows, a row an array of cells. *)
Abbreviation Board := (list (list Cell)) (only parsing).

(** The occupancy matrix of a piece holds the numbers 0 and 1. *)
Abbreviation Matrix := (list (list nat)) (only parsing).

Inductive Kind := kI | kO | kT | kS | kZ | kJ | kL.

Global Instance Kind_eq_dec : EqDecision Kind.
Proof. solve_decision. Defined.

Module Piece.
(** The object [{x, y, m, c, k}] held in [active]. *)
Record t := mk { x : Z; y : Z; m : Matrix; c : Color; k : Kind }.
End Piece.

Record Shape := { shape_m : Matrix; shape_c : Color }.

Definition TETROMINOES (key : Kind) : Shape :=
  match key with
  | kI => {| shape_m := [[1; 1; 1; 1]]; shape_c := "#00FFFF" |}
  | kO => {| shape_m := [[1; 1]; [1; 1]]; shape_c := "#F7D154" |}
  | kT => {| shape_m := [[0; 1; 0]; [1; 1; 1]]; shape_c := "#B57AD2" |}
  | kS => {| shape_m := [[0; 1; 1]; [1; 1; 0]]; shape_c := "#57D98C" |}
  | kZ => {| shape_m := [[1; 1; 0]; [0; 1; 1]]; shape_c := "#F26D6D" |}
  | kJ => {| shape_m := [[1; 0; 0]; [1; 1; 1]]; shape_c := "#6DA8F2" |}
  | kL => {| shape_m := [[0; 0; 1]; [1; 1; 1]]; shape_c := "#F2A96D" |}
  end.

Definition ORDER : list Kind := [kI; kO; kT; kS; kZ; kJ; kL].

(** ** JavaScript truthiness and array access *)

(** [!v] on a matrix entry: the number 0 is falsy. *)
Definition truthyNum (v : nat) : bool := negb (Nat.eqb v 0).

(** [!!c] on a cell: [null] and the empty string are falsy. *)
Definition truthyCell (c : Cell) : bool :=
  match c with
  | None => false
  | Some s => match s with EmptyString => false | String _ _ => true end
  end.

(** [row[nx]] read for its truth value: an index past the end gives
    [undefined], which is falsy. *)
Definition truthyAt (row : list Cell) (nx : Z) : bool :=
  match row !! Z.to_nat nx with
  | Some c => truthyCell c
  | None => false
  end.

(** [arr[i] = v]: an index past the end extends the array, the gap reads
    as [hole]. *)
Definition jsSet {A} (hole : A) (arr : list A) (i : nat) (v : A) : list A :=
  if decide (i < length arr) then <[i:=v]> arr
  else arr ++ replicate (i - length arr) hole ++ [v].

(** [emptyBoard(r, c)] *)
Definition emptyBoard (r c : Z) : Board :=
  replicate (Z.to_nat r) (replicate (Z.to_nat c) None).

(** [cloneBoard(b)]: on values a copy is the value itself. *)
Definition cloneBoard (b : Board) : Board := (λ row, row) <$> b.

(** [getTopOffset(m)] *)
Fixpoint getTopOffsetFrom (y : nat) (rows : Matrix) : nat :=
  match rows with
  | [] => 0
  | row :: rest => if existsb truthyNum row then y else getTopOffsetFrom (S y) rest
  end.

Definition getTopOffset (m : Matrix) : nat := getTopOffsetFrom 0 m.

(** ** [collides] *)

(** The inner loop of [collides] over the cells of matrix row [y], from
    column [x] on.  [Some true]: the function returned [true];
    [Some false]: the loop ran to its end; [None]: [b[ny]] was [undefined]. *)
Fixpoint collidesCells (b : Board) (p : Piece.t) (y : nat) (row : list nat) (x : nat)
  : option bool :=
  match row with
  | [] => Some false
  | v :: rest =>
      if negb (truthyNum v) then collidesCells b p y rest (S x)
      else
        let nx := (Piece.x p + Z.of_nat x)%Z in
        let ny := (Piece.y p + Z.of_nat y)%Z in
        if (nx <? 0)%Z || (nx >=? COLS)%Z || (ny >=? ROWS)%Z then Some true
        else if (ny >=? 0)%Z then
          match b !! Z.to_nat ny with
          | None => None
          | Some r => if truthyAt r nx then Some true else collidesCells b p y rest (S x)
          end
        else collidesCells b p y rest (S x)
  end.

Fixpoint collidesRows (b : Board) (p : Piece.t) (y : nat) (rows : Matrix) : option bool :=
  match rows with
  | [] => Some false
  | row :: rest =>
      match collidesCells b p y row 0 with
      | None => None
      | Some true => Some true
      | Some false => collidesRows b p (S y) rest
      end
  end.

Definition collides (b : Board) (p : Piece.t) : option bool :=
  collidesRows b p 0 (Piece.m p).

(** ** [mergePiece] on values *)

Fixpoint mergeCells (p : Piece.t) (y : nat) (row : list nat) (x : nat) (nb : Board)
  : option Board :=
  match row with
  | [] => Some nb
  | v :: rest =>
      if negb (truthyNum v) then mergeCells p y rest (S x) nb
      else
        let nx := (Piece.x p + Z.of_nat x)%Z in
        let ny := (Piece.y p + Z.of_nat y)%Z in
        if (ny >=? 0)%Z && (ny <? ROWS)%Z && (nx >=? 0)%Z && (nx <? COLS)%Z then
          match nb !! Z.to_nat ny with
          | None => None
          | Some r =>
              mergeCells p y rest (S x)
                (<[Z.to_nat ny := jsSet None r (Z.to_nat nx) (Some (Piece.c p))]> nb)
          end
        else mergeCells p y rest (S x) nb
  end.

Fixpoint mergeRows (p : Piece.t) (y : nat) (rows : Matrix) (nb : Board) : option Board :=
  match rows with
  | [] => Some nb
  | row :: rest =>
      match mergeCells p y row 0 nb with
      | None => None
      | Some nb' => mergeRows p (S y) rest nb'
      end
  end.

Definition mergePiece (b : Board) (p : Piece.t) : option Board :=
  mergeRows p 0 (Piece.m p) (cloneBoard b).

(** ** [clearLines] *)

(** The first loop of [clearLines]: the indices [y], from [y] on and for
    [n] more rows, of the rows with [b[y].every((c) => !!c)].  [None]: some
    [b[y]] was [undefined]. *)
Fixpoint fullRowsFrom (b : Board) (y : nat) (n : nat) : option (list nat) :=
  match n with
  | 0 => Some []
  | S n' =>
      match b !! y with
      | None => None
      | Some r =>
          match fullRowsFrom b (S y) n' with
          | None => None
          | Some rows => Some (if forallb truthyCell r then y :: rows else rows)
          end
      end
  end.

(** [b.filter((_, y) => !rows.includes(y))], the index starting at [y]. *)
Fixpoint filterRowsFrom (rows : list nat) (y : nat) (b : Board) : Board :=
  match b with
  | [] => []
  | r :: rest =>
      if bool_decide (y ∈ rows) then filterRowsFrom rows (S y) rest
      else r :: filterRowsFrom rows (S y) rest
  end.

(** [while (nb.length < ROWS) nb.unshift(Array(COLS).fill(null))], at most
    [fuel] times round the loop. *)
Fixpoint unshiftRows (fuel : nat) (nb : Board) : Board :=
  match fuel with
  | 0 => nb
  | S fuel' =>
      if (Z.of_nat (length nb) <? ROWS)%Z
      then unshiftRows fuel' (replicate (Z.to_nat COLS) None :: nb)
      else nb
  end.

(** [clearLines(b)], the result [{board, cleared}] as a pair.  The loop
    adds a row each time round, so [ROWS] rounds always suffice. *)
Definition clearLines (b : Board) : option (Board * Z) :=
  match fullRowsFrom b 0 (Z.to_nat ROWS) with
  | None => None
  | Some rows =>
      if bool_decide (length rows = 0) then Some (b, 0%Z)
      else
        let nb := filterRowsFrom rows 0 b in
        Some (unshiftRows (Z.to_nat ROWS) nb, Z.of_nat (length rows))
  end.

(** ** [scoreFor]; [level] is the state variable it reads. *)
Definition scoreFor (level n : Z) : Z :=
  if (n =? 1)%Z then (100 * level)%Z
  else if (n =? 2)%Z then (300 * level)%Z
  else if (n =? 3)%Z then (500 * level)%Z
  else if (n >=? 4)%Z then (800 * level)%Z
  else 0%Z.

(** ** Rotation helpers *)

(** [m[y][x]]; outside the matrix the read gives [undefined], which every
    use treats like 0. *)
Definition entry (m : Matrix) (y x : nat) : nat :=
  default 0 (m !! y ≫= λ row, row !! x).

(** The two nested loops shared by [rotateMatrixCW] and [rotateMatrixCCW]:
    for [y < h], for [x < w], [res[fi y x][fj y x] = m[y][x]].  [res] is a
    [w] by [h] array and every index written is inside it. *)
Definition rotateLoops (fi fj : nat → nat → nat) (m : Matrix) (h w : nat) : Matrix :=
  foldl (λ res y,
           foldl (λ res x, alter (<[fj y x := entry m y x]>) (fi y x) res)
                 res (seq 0 w))
        (replicate w (replicate h 0)) (seq 0 h).

(** [None]: [m[0]] was [undefined]. *)
Definition rotateMatrixCW (m : Matrix) : option Matrix :=
  match m with
  | [] => None
  | m0 :: _ =>
      let h := length m in
      let w := length m0 in
      Some (rotateLoops (λ y x, x) (λ y x, h - 1 - y) m h w)
  end.

Definition rotateMatrixCCW (m : Matrix) : option Matrix :=
  match m with
  | [] => None
  | m0 :: _ =>
      let h := length m in
      let w := length m0 in
      Some (rotateLoops (λ y x, w - 1 - x) (λ y x, y) m h w)
  end.

(** ** The state of the component *)

(** One field per [useState] hook of the game.  [score], [lines] and
    [level] are JavaScript numbers that only ever hold integers.  The
    timing refs ([lastTimeRef], [accRef]) and the cell size belong to the
    frame scheduler and the layout and are not part of the model. *)
Record State := mkState {
  board : Board;
  active : option Piece.t;
  queue : list Kind;
  nextBag : list Kind;
  running : bool;
  score : Z;
  lines : Z;
  level : Z;
  hold : option Kind;
  canHold : bool
}.

(** What React holds while a handler runs: the state with the updates
    queued so far applied ([st]), the number of [Math.random()] calls made
    so far ([calls]), and the updater functions passed to [setActive] that
    have not run yet ([deferred]).  The only updater function in the code
    is the one of [spawn]; it is recorded as the state of the render whose
    [spawn] was called, and the [resetAcc] argument. *)
Record Pending := mkPending {
  st : State;
  calls : nat;
  deferred : list (State * bool)
}.

(** A handler is an action: it can read the entropy source ([rnd n] is the
    value the [n]-th call of [Math.random()] returns), change what is
    pending, and fail.  [None] is an uncaught exception, or a loop that
    does not end. *)
Definition Act (A : Type) : Type := (nat → Q) → Pending → option (A * Pending).

Global Instance Act_ret : MRet Act := λ A a rnd w, Some (a, w).

Global Instance Act_bind : MBind Act := λ A B f act rnd w,
  match act rnd w with
  | None => None
  | Some (a, w') => f a rnd w'
  end.

Definition throw {A} : Act A := λ rnd w, None.

(** An [option] result used inside a handler: [None] propagates. *)
Definition try {A} (o : option A) : Act A := λ rnd w,
  match o with
  | None => None
  | Some a => Some (a, w)
  end.

(** [Math.random()] *)
Definition random : Act Q := λ rnd w,
  Some (rnd (calls w), mkPending (st w) (S (calls w)) (deferred w)).

Definition modify (f : State → State) : Act unit := λ rnd w,
  Some ((), mkPending (f (st w)) (calls w) (deferred w)).

(** The setters.  Each takes an updater; [setScore (λ _, 0)] is
    [setScore(0)] and [setScore (λ s, s + 1)] is [setScore((s) => s + 1)]. *)
Definition setBoard (f : Board → Board) : Act unit :=
  modify (λ s, mkState (f (board s)) (active s) (queue s) (nextBag s) (running s)
                       (score s) (lines s) (level s) (hold s) (canHold s)).
Definition setActive (f : option Piece.t → option Piece.t) : Act unit :=
  modify (λ s, mkState (board s) (f (active s)) (queue s) (nextBag s) (running s)
                       (score s) (lines s) (level s) (hold s) (canHold s)).
Definition setQueue (f : list Kind → list Kind) : Act unit :=
  modify (λ s, mkState (board s) (active s) (f (queue s)) (nextBag s) (running s)
                       (score s) (lines s) (level s) (hold s) (canHold s)).
Definition setNextBag (f : list Kind → list Kind) : Act unit :=
  modify (λ s, mkState (board s) (active s) (queue s) (f (nextBag s)) (running s)
                       (score s) (lines s) (level s) (hold s) (canHold s)).
Definition setRunning (f : bool → bool) : Act unit :=
  modify (λ s, mkState (board s) (active s) (queue s) (nextBag s) (f (running s))
                       (score s) (lines s) (level s) (hold s) (canHold s)).
Definition setScore (f : Z → Z) : Act unit :=
  modify (λ s, mkState (board s) (active s) (queue s) (nextBag s) (running s)
                       (f (score s)) (lines s) (level s) (hold s) (canHold s)).
Definition setLines (f : Z → Z) : Act unit :=
  modify (λ s, mkState (board s) (active s) (queue s) (nextBag s) (running s)
                       (score s) (f (lines s)) (level s) (hold s) (canHold s)).
Definition setLevel (f : Z → Z) : Act unit :=
  modify (λ s, mkState (board s) (active s) (queue s) (nextBag s) (running s)
                       (score s) (lines s) (f (level s)) (hold s) (canHold s)).
Definition setHold (f : option Kind → option Kind) : Act unit :=
  modify (λ s, mkState (board s) (active s) (queue s) (nextBag s) (running s)
                       (score s) (lines s) (level s) (f (hold s)) (canHold s)).
Definition setCanHold (f : bool → bool) : Act unit :=
  modify (λ s, mkState (board s) (active s) (queue s) (nextBag s) (running s)
                       (score s) (lines s) (level s) (hold s) (f (canHold s))).

(** ** The randomizer *)

(** [[b[i], b[j]] = [b[j], b[i]]]; both indices are inside [b] whenever
    [bag] runs (see [floorRandom_bounds]), and outside that the model
    leaves [b] alone. *)
Definition swap (b : list Kind) (i j : nat) : list Kind :=
  match b !! i, b !! j with
  | Some bi, Some bj => <[j:=bi]> (<[i:=bj]> b)
  | _, _ => b
  end.

(** [Math.floor(r * (i + 1))] *)
Definition floorRandom (r : Q) (i : nat) : nat :=
  Z.to_nat (Qfloor (r * inject_Z (Z.of_nat (i + 1)))).

(** The loop of [bag]: [for (let i = ...; i > 0; i--)]. *)
Fixpoint shuffle (i : nat) (b : list Kind) : Act (list Kind) :=
  match i with
  | 0 => mret b
  | S i' =>
      r ← random;
      let j := floorRandom r i in
      shuffle i' (swap b i j)
  end.

Definition bag : Act (list Kind) := shuffle (length ORDER - 1) ORDER.

(** ** Spawning *)

(** The lines that [spawn] and [doHold] share: the piece of kind [key] in
    its spawn matrix at its spawn position.  [None]: [m[0]] was
    [undefined]. *)
Definition spawnPiece (key : Kind) : option Piece.t :=
  let shape := TETROMINOES key in
  let m := (λ r, r) <$> shape_m shape in
  match m with
  | [] => None
  | m0 :: _ =>
      let startX := ((COLS - Z.of_nat (length m0)) / 2)%Z in
      let startY := (- Z.of_nat (getTopOffset m))%Z in
      Some (Piece.mk startX startY m (shape_c shape) key)
  end.

(** The updater function that [spawn] passes to [setActive].  [r] is the
    state of the render in which that [spawn] was created: [queue],
    [nextBag] and [board] are read from it.  [None]: the queue was empty,
    so [head] was [undefined] and [shape.m] raised. *)
Definition spawnUpdater (r : State) (resetAcc : bool) : Act unit :=
  let head := head (queue r) in
  let rest := tail (queue r) in
  q ← (if bool_decide (length rest = 0)
       then nb ← bag; setNextBag (λ _, nb);; mret (nextBag r)
       else mret rest);
  setQueue (λ _, q);;
  key ← try head;
  piece ← try (spawnPiece key);
  hit ← try (collides (board r) piece);
  (if (hit : bool) then setRunning (λ _, false) else mret ());;
  setCanHold (λ _, true);;
  setActive (λ _, Some piece).

(** [spawn(resetAcc)] only queues the updater: React runs it when it next
    works through the queued updates, after the handler has returned. *)
Definition spawn (r : State) (resetAcc : bool) : Act unit := λ rnd w,
  Some ((), mkPending (st w) (calls w) (deferred w ++ [(r, resetAcc)])).

Fixpoint runUpdaters (us : list (State * bool)) : Act unit :=
  match us with
  | [] => mret ()
  | (r, resetAcc) :: us' => spawnUpdater r resetAcc;; runUpdaters us'
  end.

(** Run the updaters queued so far, in the order they were queued. *)
Definition flush : Act unit := λ rnd w,
  runUpdaters (deferred w) rnd (mkPending (st w) (calls w) []).

(** ** Actions *)

(** The lock sequence, which the source writes out twice, in [stepDown]
    for the active piece and in [hardDrop] for the dropped piece: merge,
    clear, update the progression, spawn. *)
Definition lock (r : State) (p : Piece.t) : Act unit :=
  merged ← try (mergePiece (board r) p);
  res ← try (clearLines merged);
  let clearedBoard := res.1 in
  let cleared := res.2 in
  setBoard (λ _, clearedBoard);;
  (if (cleared >? 0)%Z then
     setLines (λ v, v + cleared)%Z;;
     setScore (λ s, s + scoreFor (level r) cleared)%Z;;
     setLevel (λ _, 1 + (lines r + cleared) / 10)%Z
   else mret ());;
  spawn r true.

Definition moved (p : Piece.t) (dx dy : Z) (m : Matrix) : Piece.t :=
  Piece.mk (Piece.x p + dx) (Piece.y p + dy) m (Piece.c p) (Piece.k p).

Definition stepDown (r : State) : Act unit :=
  match active r with
  | None => mret ()
  | Some a =>
      let next := moved a 0 1 (Piece.m a) in
      hit ← try (collides (board r) next);
      if negb hit then setActive (λ _, Some next)
      else lock r a
  end.

Definition softDrop (r : State) : Act unit :=
  match active r with
  | None => mret ()
  | Some a =>
      let next := moved a 0 1 (Piece.m a) in
      hit ← try (collides (board r) next);
      if negb hit then setActive (λ _, Some next);; setScore (λ s, s + 1)%Z
      else mret ()
  end.

(** The loop of [hardDrop] (and of [getGhost]), at most [fuel] tests of
    its condition.  [None]: an exception, or the loop did not end within
    [fuel] tests. *)
Fixpoint dropLoop (fuel : nat) (b : Board) (ghost : Piece.t) (dist : Z)
  : option (Piece.t * Z) :=
  match fuel with
  | 0 => None
  | S fuel' =>
      match collides b (moved ghost 0 1 (Piece.m ghost)) with
      | None => None
      | Some true => Some (ghost, dist)
      | Some false => dropLoop fuel' b (moved ghost 0 1 (Piece.m ghost)) (dist + 1)%Z
      end
  end.

(** A piece with an occupied cell is stopped by the floor after at most
    [ROWS - y] steps; the fuel covers that. *)
Definition dropFuel (p : Piece.t) : nat := S (Z.to_nat (ROWS - Piece.y p)).

Definition hardDrop (r : State) : Act unit :=
  match active r with
  | None => mret ()
  | Some a =>
      res ← try (dropLoop (dropFuel a) (board r) a 0);
      let ghost := res.1 in
      let dist := res.2 in
      setActive (λ _, Some ghost);;
      setScore (λ s, s + dist * 2)%Z;;
      lock r ghost
  end.

Definition kicks : list Z := [0; -1; 1; -2; 2]%Z.

(** The loop [for (const dx of kicks)] of [rotate]. *)
Fixpoint tryKicks (r : State) (a : Piece.t) (rotated : Matrix) (ks : list Z) : Act unit :=
  match ks with
  | [] => mret ()
  | dx :: ks' =>
      let test := moved a dx 0 rotated in
      hit ← try (collides (board r) test);
      if negb hit then setActive (λ _, Some test)
      else tryKicks r a rotated ks'
  end.

Definition rotate (r : State) (rotFn : Matrix → option Matrix) : Act unit :=
  match active r with
  | None => mret ()
  | Some a =>
      rotated ← try (rotFn (Piece.m a));
      tryKicks r a rotated kicks
  end.

Definition rotateCW (r : State) : Act unit := rotate r rotateMatrixCW.
Definition rotateCCW (r : State) : Act unit := rotate r rotateMatrixCCW.

Definition doHold (r : State) : Act unit :=
  match active r with
  | None => mret ()
  | Some a =>
      if negb (canHold r) then mret ()
      else
        match hold r with
        | None =>
            setHold (λ _, Some (Piece.k a));;
            spawn r true
        | Some newK =>
            setHold (λ _, Some (Piece.k a));;
            piece ← try (spawnPiece newK);
            setActive (λ _, Some piece)
        end;;
        setCanHold (λ _, false)
  end.

Definition tryMove (r : State) (dx dy : Z) (m : Matrix) : Act unit :=
  match active r with
  | None => mret ()
  | Some a =>
      let test := moved a dx dy m in
      hit ← try (collides (board r) test);
      if negb hit then setActive (λ _, Some test) else mret ()
  end.

(** [reset] is memoised with an empty dependency list, so the [spawn] it
    calls is the one of the first render, [r0]. *)
Definition reset (r0 : State) : Act unit :=
  setBoard (λ _, emptyBoard ROWS COLS);;
  q ← bag; setQueue (λ _, q);;
  nb ← bag; setNextBag (λ _, nb);;
  setActive (λ _, None);;
  setScore (λ _, 0%Z);;
  setLines (λ _, 0%Z);;
  setLevel (λ _, 1%Z);;
  setHold (λ _, None);;
  setCanHold (λ _, true);;
  setRunning (λ _, true);;
  spawn r0 true.

(** ** Events *)

Inductive KeyCode :=
  | KeyP | KeyR | ArrowLeft | ArrowRight | ArrowDown | Space | ArrowUp
  | KeyX | KeyZ | ShiftLeft | ShiftRight | KeyC | OtherKey.

(** The [keydown] listener. *)
Definition onKey (r0 r : State) (code : KeyCode) : Act unit :=
  match active r with
  | None => mret ()
  | Some a =>
      match code with
      | KeyP => setRunning negb
      | KeyR => reset r0
      | _ =>
          if negb (running r) then mret ()
          else
            match code with
            | ArrowLeft => tryMove r (-1) 0 (Piece.m a)
            | ArrowRight => tryMove r 1 0 (Piece.m a)
            | ArrowDown => softDrop r
            | Space => hardDrop r
            | ArrowUp | KeyX => rotateCW r
            | KeyZ => rotateCCW r
            | ShiftLeft | ShiftRight | KeyC => doHold r
            | _ => mret ()
            end
      end
  end.

(** The gestures that [onCanvasTouchEnd] tells apart. *)
Inductive Gesture := Tap | SwipeLeft | SwipeRight | SwipeDown | SwipeUp.

Definition onCanvasTouchEnd (r : State) (g : Gesture) : Act unit :=
  match active r with
  | None => mret ()
  | Some a =>
      if negb (running r) then mret ()
      else
        match g with
        | Tap => rotateCW r
        | SwipeRight => tryMove r 1 0 (Piece.m a)
        | SwipeLeft => tryMove r (-1) 0 (Piece.m a)
        | SwipeDown => softDrop r;; softDrop r
        | SwipeUp => hardDrop r
        end
  end.

(** The body of the frame loop for a frame in which the condition of
    [while (accRef.current >= dropMs)] holds [n] times: [n] calls of the
    same [stepDown]. *)
Fixpoint ticks (r : State) (n : nat) : Act unit :=
  match n with
  | 0 => mret ()
  | S n' => stepDown r;; ticks r n'
  end.

Definition loop (r : State) (n : nat) : Act unit :=
  if negb (running r) then mret () else ticks r n.

(** The on-screen buttons. *)
Inductive Button :=
  | BtnPause | BtnRestart | BtnLeft | BtnRight | BtnSoft
  | BtnRotateCCW | BtnRotateCW | BtnHard | BtnHold.

(** The function of a button, in the render [r] that made it: the
    [onClick] of the buttons that have one, and for ◀, ⬇ and ▶ the
    function [fn] that [onTouchStart] and [onMouseDown] pass to
    [startHold].  [startHold(fn)] calls [fn()] at once, which is this
    action in the handler of a press, and gives [fn] to [setInterval]:
    see [repeats], [timerAfter] and [stepT] for the timer. *)
Definition onButton (r0 r : State) (b : Button) : Act unit :=
  match b with
  | BtnPause => setRunning negb
  | BtnRestart => reset r0
  | BtnLeft => match active r with
               | None => mret ()
               | Some a => tryMove r (-1) 0 (Piece.m a)
               end
  | BtnRight => match active r with
                | None => mret ()
                | Some a => tryMove r 1 0 (Piece.m a)
                end
  | BtnSoft => softDrop r
  | BtnRotateCCW => rotateCCW r
  | BtnRotateCW => rotateCW r
  | BtnHard => hardDrop r
  | BtnHold => doHold r
  end.

(** The buttons whose press goes through [startHold]. *)
Definition repeats (b : Button) : bool :=
  match b with
  | BtnLeft | BtnRight | BtnSoft => true
  | _ => false
  end.

Inductive Event :=
  | Mount                      (* the effect [if (!active) spawn()] *)
  | Key (code : KeyCode)
  | Touch (g : Gesture)
  | Frame (n : nat)
  | Click (b : Button)         (* a click; for ◀, ⬇ and ▶ the press *)
  | Release                    (* [stopHold]: the end of a press of ◀, ⬇ or ▶ *)
  | Interval.                  (* the interval timer of [startHold] fires *)

(** The handler of an event.  [r] is the state of the render that created
    the handler, [r0] the state of the first render.  [Release] and
    [Interval] concern the timer, which is no part of a render: see
    [stepT]. *)
Definition handler (r0 r : State) (ev : Event) : Act unit :=
  match ev with
  | Mount => match active r with
             | None => spawn r false
             | Some _ => mret ()
             end
  | Key code => onKey r0 r code
  | Touch g => onCanvasTouchEnd r g
  | Frame n => loop r n
  | Click b => onButton r0 r b
  | Release | Interval => mret ()
  end.

(** Run an action on the committed state [s], then the updaters it
    queued; [n] is the number of [Math.random()] calls before it. *)
Definition commit (rnd : nat → Q) (n : nat) (act : Act unit) (s : State)
  : option (State * nat) :=
  match (act;; flush) rnd (mkPending s n []) with
  | None => None
  | Some (_, w) => Some (st w, calls w)
  end.

(** The [useState] initialisers of the first render. *)
Definition initial : Act State :=
  q ← bag;
  nb ← bag;
  mret (mkState (emptyBoard ROWS COLS) None q nb true 0 0 1 None true).

Definition firstRender (rnd : nat → Q) : option (State * nat) :=
  match initial rnd (mkPending (mkState [] None [] [] true 0 0 1 None true) 0 []) with
  | None => None
  | Some (r0, w) => Some (r0, calls w)
  end.

(** One event, handled by the handler of the current render. *)
Definition step (rnd : nat → Q) (r0 : State) (ev : Event) (sn : State * nat)
  : option (State * nat) :=
  commit rnd sn.2 (handler r0 sn.1 ev) sn.1.

(** [holdTimerRef.current]: [None] when no interval timer is set, and
    [Some (r, b)] for the timer that a press of button [b] in render [r]
    has set; that timer calls the function of the press, [onButton r0 r b],
    every time it fires. *)
Abbreviation Timer := (option (State * Button)) (only parsing).

(** [startHold(fn)] on the timer, for the function [fn] of button [b] in
    render [r]: a timer that is set is cleared, and [setInterval] sets the
    one that calls [fn].  The call [fn()] in between is the handler of the
    press, [onButton r0 r b]. *)
Definition startHold (r : State) (b : Button) (t : Timer) : Timer := Some (r, b).

(** [stopHold()]: a timer that is set is cleared. *)
Definition stopHold (t : Timer) : Timer := None.

(** What an event does to the timer, in render [r]. *)
Definition timerAfter (r : State) (ev : Event) (t : Timer) : Timer :=
  match ev with
  | Click b => if repeats b then startHold r b t else t
  | Release => stopHold t
  | _ => t
  end.

(** The render whose function runs and the event it runs for: when the
    timer fires, the render and the button of the press that set it. *)
Definition runs (s : State) (ev : Event) (t : Timer) : State * Event :=
  match ev, t with
  | Interval, Some (r, b) => (r, Click b)
  | _, _ => (s, ev)
  end.

(** One event of a session: the state, the number of [Math.random()]
    calls and the timer. *)
Definition stepT (rnd : nat → Q) (r0 : State) (ev : Event) (snt : State * nat * Timer)
  : option (State * nat * Timer) :=
  let s := snt.1.1 in
  let run := runs s ev snt.2 in
  match commit rnd snt.1.2 (handler r0 run.1 run.2) s with
  | None => None
  | Some sn' => Some (sn', timerAfter s ev snt.2)
  end.

Fixpoint steps (rnd : nat → Q) (r0 : State) (evs : list Event) (snt : State * nat * Timer)
  : option (State * nat * Timer) :=
  match evs with
  | [] => Some snt
  | ev :: evs' =>
      match stepT rnd r0 ev snt with
      | None => None
      | Some snt' => steps rnd r0 evs' snt'
      end
  end.

(** A session: the first render, then the events in order; no timer is
    set at first. *)
Definition play (rnd : nat → Q) (evs : list Event) : option (State * nat) :=
  match firstRender rnd with
  | None => None
  | Some (r0, n) => fst <$> steps rnd r0 evs (r0, n, None)
  end.

(** ** [mergePiece] on a store of array objects

    In JavaScript a board is a reference to an array of references to row
    arrays, and [nb[ny][nx] = p.c] changes a row array in place.  Here the
    arrays live in a store, [cloneBoard] allocates copies, and the writes
    of [mergePiece] are updates of the store. *)
Module Store.

Definition loc := nat.

Inductive Obj :=
  | Cells (cs : list Cell)     (* a row: an array of cells *)
  | Rows (ls : list loc).      (* a board: an array of references to rows *)

Definition alloc (σ : gmap loc Obj) (o : Obj) : gmap loc Obj * loc :=
  let l := fresh (dom σ) in (<[l:=o]> σ, l).

(** [row.slice()]: a new array with the same elements. *)
Definition slice (σ : gmap loc Obj) (l : loc) : option (gmap loc Obj * loc) :=
  match σ !! l with
  | None => None
  | Some o => Some (alloc σ o)
  end.

(** [b.map((row) => row.slice())], the elements of [b] being [ls]. *)
Fixpoint sliceAll (σ : gmap loc Obj) (ls : list loc)
  : option (gmap loc Obj * list loc) :=
  match ls with
  | [] => Some (σ, [])
  | l :: ls' =>
      match slice σ l with
      | None => None
      | Some (σ1, l') =>
          match sliceAll σ1 ls' with
          | None => None
          | Some (σ2, ls'') => Some (σ2, l' :: ls'')
          end
      end
  end.

Definition cloneBoard (σ : gmap loc Obj) (b : loc) : option (gmap loc Obj * loc) :=
  match σ !! b with
  | Some (Rows ls) =>
      match sliceAll σ ls with
      | None => None
      | Some (σ1, ls') => Some (alloc σ1 (Rows ls'))
      end
  | _ => None
  end.

(** [nb[ny][nx] = c] *)
Definition write (σ : gmap loc Obj) (nb : loc) (ny nx : nat) (c : Cell)
  : option (gmap loc Obj) :=
  match σ !! nb with
  | Some (Rows ls) =>
      match ls !! ny with
      | None => None
      | Some l =>
          match σ !! l with
          | Some (Cells cs) => Some (<[l := Cells (jsSet None cs nx c)]> σ)
          | _ => None
          end
      end
  | _ => None
  end.

Fixpoint mergeCells (p : Piece.t) (y : nat) (row : list nat) (x : nat)
    (nb : loc) (σ : gmap loc Obj) : option (gmap loc Obj) :=
  match row with
  | [] => Some σ
  | v :: rest =>
      if negb (truthyNum v) then mergeCells p y rest (S x) nb σ
      else
        let nx := (Piece.x p + Z.of_nat x)%Z in
        let ny := (Piece.y p + Z.of_nat y)%Z in
        if (ny >=? 0)%Z && (ny <? ROWS)%Z && (nx >=? 0)%Z && (nx <? COLS)%Z then
          match write σ nb (Z.to_nat ny) (Z.to_nat nx) (Some (Piece.c p)) with
          | None => None
          | Some σ' => mergeCells p y rest (S x) nb σ'
          end
        else mergeCells p y rest (S x) nb σ
  end.

Fixpoint mergeRows (p : Piece.t) (y : nat) (rows : Matrix)
    (nb : loc) (σ : gmap loc Obj) : option (gmap loc Obj) :=
  match rows with
  | [] => Some σ
  | row :: rest =>
      match mergeCells p y row 0 nb σ with
      | None => None
      | Some σ' => mergeRows p (S y) rest nb σ'
      end
  end.

(** [mergePiece(b, p)]: the store after the call and the reference
    returned. *)
Definition mergePiece (σ : gmap loc Obj) (b : loc) (p : Piece.t)
  : option (gmap loc Obj * loc) :=
  match cloneBoard σ b with
  | None => None
  | Some (σ1, nb) =>
      match mergeRows p 0 (Piece.m p) nb σ1 with
      | None => None
      | Some σ2 => Some (σ2, nb)
      end
  end.

Definition readRow (σ : gmap loc Obj) (l : loc) : option (list Cell) :=
  match σ !! l with
  | Some (Cells cs) => Some cs
  | _ => None
  end.

(** The board value that the reference [b] stands for in [σ]. *)
Definition readBoard (σ : gmap loc Obj) (b : loc) : option Board :=
  match σ !! b with
  | Some (Rows ls) => mapM (readRow σ) ls
  | _ => None
  end.

End Store.

(** ** Vocabulary of the properties *)

(** A grid of the game: [ROWS] rows of [COLS] cells. *)
Definition wfBoard (b : Board) : Prop :=
  length b = Z.to_nat ROWS ∧ Forall (λ r, length r = Z.to_nat COLS) b.

(** Cell [(y, x)] of the matrix is occupied. *)
Definition occupied (m : Matrix) (y x : nat) : Prop :=
  ∃ row v, m !! y = Some row ∧ row !! x = Some v ∧ truthyNum v = true.

(** The grid cell at row [ny], column [nx] is filled. *)
Definition filledAt (b : Board) (ny nx : Z) : Prop :=
  ∃ row c, b !! Z.to_nat ny = Some row ∧ row !! Z.to_nat nx = Some c
           ∧ truthyCell c = true.

(** Matrix cell [(y, x)] of piece [p], at its absolute grid coordinates, is
    out of bounds or on a filled cell. *)
Definition hits (b : Board) (p : Piece.t) (y x : nat) : Prop :=
  let nx := (Piece.x p + Z.of_nat x)%Z in
  let ny := (Piece.y p + Z.of_nat y)%Z in
  (nx < 0)%Z ∨ (nx >= COLS)%Z ∨ (ny >= ROWS)%Z ∨ ((ny >= 0)%Z ∧ filledAt b ny nx).

(** [b[ny][nx]], [None] outside the arrays. *)
Definition cellAt (b : Board) (ny nx : nat) : option Cell :=
  b !! ny ≫= λ r, r !! nx.

(** Grid cell [(ny, nx)] lies under an occupied cell of the piece. *)
Definition covered (p : Piece.t) (ny nx : nat) : Prop :=
  ∃ y x, occupied (Piece.m p) y x
         ∧ Z.of_nat ny = (Piece.y p + Z.of_nat y)%Z
         ∧ Z.of_nat nx = (Piece.x p + Z.of_nat x)%Z.

(** A row is full when every cell in it is filled. *)
Definition fullRow (r : list Cell) : Prop := Forall (λ c, truthyCell c = true) r.

Global Instance fullRow_dec (r : list Cell) : Decision (fullRow r).
Proof. unfold fullRow. apply _. Defined.

Definition emptyRow : list Cell := replicate (Z.to_nat COLS) None.

(** The row arrays at the references [ls] of store [σ] hold the rows of
    the board value [g]. *)
Definition holds (σ : gmap Store.loc Store.Obj) (ls : list Store.loc) (g : Board) : Prop :=
  Forall2 (λ l r, σ !! l = Some (Store.Cells r)) ls g.

(** The state of the store while [Store.mergePiece] runs on a store that
    was [σ] at the call: [τ] extends [σ], the new board [nb] has the rows
    [ls], all of them allocated after the call and distinct, and they hold
    the board value [g]. *)
Definition merging (σ : gmap Store.loc Store.Obj) (nb : Store.loc) (ls : list Store.loc)
    (τ : gmap Store.loc Store.Obj) (g : Board) : Prop :=
  σ ⊆ τ ∧ τ !! nb = Some (Store.Rows ls) ∧ holds τ ls g
  ∧ NoDup ls ∧ (nb ∉ ls) ∧ Forall (λ l, σ !! l = None) ls.

(** ** Concrete inputs *)

(** A row whose first [n] cells are filled. *)
Definition partialRow (n : nat) : list Cell :=
  replicate n (Some "#00FFFF") ++ replicate (Z.to_nat COLS - n) None.

(** A grid whose rows 3 and 7 are full and whose other rows are partly
    filled: row [y] has its first [y mod 9 + 1] cells filled. *)
Definition board37 : Board :=
  (λ y, if bool_decide (y = 3 ∨ y = 7) then partialRow 10
        else partialRow (y mod 9 + 1)) <$> seq 0 20.

(** ** Vocabulary of the rotation properties *)

(** [m] has [h] rows of [w] entries. *)
Definition rectangular (m : Matrix) (h w : nat) : Prop :=
  length m = h ∧ Forall (λ row, length row = w) m.



(** The pairs [(y, x)] in the order the two nested loops visit them. *)
Definition visits (h w : nat) : list (nat * nat) :=
  seq 0 h ≫= λ y, (λ x, (y, x)) <$> seq 0 w.

(** The state after [setActive(a)] alone. *)
Definition withActive (s : State) (a : option Piece.t) : State :=
  mkState (board s) a (queue s) (nextBag s) (running s)
          (score s) (lines s) (level s) (hold s) (canHold s).

(** The rotated piece shifted by [dx] does not collide. *)
Definition fits (b : Board) (a : Piece.t) (rotated : Matrix) (dx : Z) : bool :=
  bool_decide (collides b (moved a dx 0 rotated) = Some false).

(** ** Vocabulary of the scoring property *)

(** The scoring table: points for clearing [n] rows, before the level
    multiplier. *)
Definition points (n : Z) : Z :=
  if (n =? 0)%Z then 0
  else if (n =? 1)%Z then 100
  else if (n =? 2)%Z then 300
  else if (n =? 3)%Z then 500
  else if (4 <=? n)%Z then 800
  else 0.

(** ** Vocabulary of the randomizer property *)

(** [k] draws from the queue: [spawn] is called [k] times, each time by the
    current render, and the kinds of the pieces it makes active are
    collected. *)
Fixpoint draws (rnd : nat → Q) (k : nat) (sn : State * nat)
  : option (list Kind * (State * nat)) :=
  match k with
  | 0 => Some ([], sn)
  | S k' =>
      match commit rnd sn.2 (spawn sn.1 false) sn.1 with
      | None => None
      | Some sn' =>
          match active sn'.1 with
          | None => None
          | Some p =>
              match draws rnd k' sn' with
              | None => None
              | Some (ks, sn'') => Some (Piece.k p :: ks, sn'')
              end
          end
      end
  end.

(** What a lock leaves of the progression, for [cleared] rows cleared. *)
Definition progressed (s s' : State) (gain cleared : Z) : Prop :=
  score s' = (score s + gain + points cleared * level s)%Z
  ∧ lines s' = (lines s + cleared)%Z
  ∧ ((0 < cleared)%Z → level s' = (1 + lines s' / 10)%Z)
  ∧ (cleared = 0%Z → level s' = level s)
  ∧ (level s = (1 + lines s / 10)%Z → level s' = (1 + lines s' / 10)%Z).

(** The entropy source whose every draw is 0. *)
Definition noEntropy : nat → Q := λ _, 0%Q.

(** The entropy source whose every draw is 0.99: the shuffle then swaps
    every entry with itself. *)
Definition lateEntropy : nat → Q := λ _, (99 # 100)%Q.

(** The vertical I, as [rotateMatrixCW] makes it from the spawn matrix. *)
Definition verticalI : Matrix := [[1]; [1]; [1]; [1]].

(** A row with the colour of the O-piece in columns 4 and 5. *)
Definition rowO : list Cell :=
  replicate 4 None ++ replicate 2 (Some "#F7D154") ++ replicate 4 None.

(** The empty grid with an O-piece at the bottom, in columns 4 and 5. *)
Definition boardO : Board := replicate 18 emptyRow ++ [rowO; rowO].

(** ** Vocabulary of the hold property *)

(** In a committed state: a held kind implies an active piece. *)
Definition heldImpliesActive (s : State) : Prop := hold s ≠ None → active s ≠ None.

(** The same while a handler runs: a queued [spawn] will make a piece
    active. *)
Definition pendingOk (w : Pending) : Prop :=
  active (st w) ≠ None ∨ hold (st w) = None ∨ deferred w ≠ [].

(** An action that never takes the active piece away, never touches the
    hold slot and never drops a queued updater. *)
Definition keeps {A} (act : Act A) : Prop :=
  ∀ rnd w a w', act rnd w = Some (a, w') →
    (active (st w) ≠ None → active (st w') ≠ None)
    ∧ hold (st w') = hold (st w)
    ∧ (deferred w ≠ [] → deferred w' ≠ []).

(** [m[0].length], the width of a matrix with a first row. *)
Definition matrixWidth (m : Matrix) : Z := Z.of_nat (length (default [] (head m))).

(** The state after the swap branch of [doHold]. *)
Definition swapped (s : State) (a piece : Piece.t) : State :=
  mkState (board s) (Some piece) (queue s) (nextBag s) (running s)
          (score s) (lines s) (level s) (Some (Piece.k a)) false.

(** The events of a session that holds the first piece and then drops ten
    pieces where they spawn. *)
Definition stackToTop : list Event := Mount :: Key KeyC :: repeat (Key Space) 10.

(** An action after which there is an active piece. *)
Definition activates {A} (act : Act A) : Prop :=
  ∀ rnd w a w', act rnd w = Some (a, w') → active (st w') ≠ None.

(** An action after which the hold slot is empty. *)
Definition clearsHold {A} (act : Act A) : Prop :=
  ∀ rnd w a w', act rnd w = Some (a, w') → hold (st w') = None.

(** The O-piece where [spawn] puts it. *)
Definition pieceO : Piece.t := Piece.mk 4 0 [[1; 1]; [1; 1]] "#F7D154" kO.

(** A running game on the empty grid with the O-piece just spawned. *)
Definition startState : State :=
  mkState (emptyBoard ROWS COLS) (Some pieceO) [kT; kS] [kI; kO; kT; kS; kZ; kJ; kL]
          true 0 0 1 None true.

(** The same game before the first spawn, the O first in the queue. *)
Definition unspawnedState : State :=
  mkState (emptyBoard ROWS COLS) None [kO; kT; kS] [kI; kO; kT; kS; kZ; kJ; kL]
          true 0 0 1 None true.

(** A vertical I flush against the right wall of the empty grid. *)
Definition wallState : State :=
  mkState (emptyBoard ROWS COLS) (Some (Piece.mk 9 0 verticalI "#00FFFF" kI))
          [kT; kS] [kI; kO; kT; kS; kZ; kJ; kL] true 0 0 1 None true.

(** A store that holds [board37]: its rows at the references 0 to 19 and
    the array of these references at 20. *)
Definition store37 : gmap Store.loc Store.Obj :=
  <[20 := Store.Rows (seq 0 20)]>
    (list_to_map (imap (λ i r, (i, Store.Cells r)) board37)).

(** ** The rest of the engine *)

(** [getGhost(activePiece)]: the loop is the one of [hardDrop], without
    the count. *)
Definition getGhost (r : State) (activePiece : Piece.t) : option Piece.t :=
  fst <$> dropLoop (dropFuel activePiece) (board r) activePiece 0.

Definition DROP_BASE_MS : Z := 1000.

(** [Math.max(100, DROP_BASE_MS - (level - 1) * 75)], the [dropMs] of the
    frame loop. *)
Definition dropMs (level : Z) : Z := Z.max 100 (DROP_BASE_MS - (level - 1) * 75).

(** The memo [nextPieces]: [show = [...queue]], then
    [if (show.length < 5) show.push(...nextBag)], then [show.slice(0, 5)]. *)
Definition nextPieces (r : State) : list Kind :=
  let show := queue r in
  let show := if bool_decide (length show < 5) then show ++ nextBag r else show in
  take 5 show.

(** ** Vocabulary of the session invariant *)

(** A piece as the engine makes them: its matrix is rectangular, has a row
    and a column, and has an occupied cell. *)
Definition goodPiece (p : Piece.t) : Prop :=
  ∃ h w, rectangular (Piece.m p) h w ∧ 0 < h ∧ 0 < w
         ∧ ∃ y x, occupied (Piece.m p) y x.

(** What holds of the state throughout a session. *)
Definition sessionOk (s : State) : Prop :=
  wfBoard (board s)
  ∧ filter fullRow (board s) = []
  ∧ queue s ≠ [] ∧ NoDup (queue s)
  ∧ nextBag s ≡ₚ ORDER
  ∧ (∀ a, active s = Some a → goodPiece a)
  ∧ (0 <= score s)%Z ∧ (0 <= lines s)%Z ∧ (1 <= level s)%Z.

(** The timer, when one is set, runs the function of a button that
    repeats, made by a render in which the invariant holds. *)
Definition timerOk (t : Timer) : Prop :=
  ∀ r b, t = Some (r, b) → sessionOk r ∧ repeats b = true.

(** The same while a handler runs, with lower bounds [c] and [l] for the
    score and the lines; the renders of the queued updaters satisfy the
    invariant too. *)
Definition pendingInv (c l : Z) (w : Pending) : Prop :=
  sessionOk (st w) ∧ (c <= score (st w))%Z ∧ (l <= lines (st w))%Z
  ∧ Forall (λ u, sessionOk u.1) (deferred w).

(** An action that, started where [pendingInv] holds, does not fail,
    keeps [pendingInv] and returns a value with [Q]. *)
Definition safe (c l : Z) {A} (act : Act A) (Q : A → Prop) : Prop :=
  ∀ rnd w, pendingInv c l w →
    ∃ a w', act rnd w = Some (a, w') ∧ pendingInv c l w' ∧ Q a.

(** The events that restart the game. *)
Definition isRestart (ev : Event) : bool :=
  match ev with
  | Key KeyR | Click BtnRestart => true
  | _ => false
  end.

(** ** Vocabulary of the movement properties *)

(** The state after [setActive(a)] and [setScore(sc)] alone. *)
Definition withActiveScore (s : State) (a : option Piece.t) (sc : Z) : State :=
  mkState (board s) a (queue s) (nextBag s) (running s)
          sc (lines s) (level s) (hold s) (canHold s).

(** The piece does not collide with the grid. *)
Definition free (b : Board) (p : Piece.t) : bool :=
  bool_decide (collides b p = Some false).

(** The events that only move or turn the active piece. *)
Definition isMotion (ev : Event) : bool :=
  match ev with
  | Key (ArrowLeft | ArrowRight | ArrowDown | ArrowUp | KeyX | KeyZ) => true
  | Touch (Tap | SwipeLeft | SwipeRight | SwipeDown) => true
  | Click (BtnLeft | BtnRight | BtnSoft | BtnRotateCW | BtnRotateCCW) => true
  | _ => false
  end.

(** Two states that differ in the active piece and the score at most. *)
Definition sameButPiece (s s' : State) : Prop :=
  board s' = board s ∧ queue s' = queue s ∧ nextBag s' = nextBag s
  ∧ running s' = running s ∧ lines s' = lines s ∧ level s' = level s
  ∧ hold s' = hold s ∧ canHold s' = canHold s.

(** What a move, a soft drop or a rotation leaves: the same state but for
    the piece and the score, and a piece that is the old one or is clear
    of the grid. *)
Definition movedClear (s s' : State) (a : Piece.t) : Prop :=
  sameButPiece s s'
  ∧ (score s <= score s' <= score s + 2)%Z
  ∧ ∃ a', active s' = Some a'
          ∧ Piece.k a' = Piece.k a ∧ Piece.c a' = Piece.c a
          ∧ (a' = a ∨ free (board s') a' = true).

(** ** Vocabulary of the respawn property *)

(** What the spawn after a lock leaves, for the render [s] that locked,
    the kinds [rest] behind the head of its queue and the spawn piece
    [piece] of that head. *)
Definition respawned (s s' : State) (rest : list Kind) (piece : Piece.t) : Prop :=
  active s' = Some piece
  ∧ canHold s' = true
  ∧ hold s' = hold s
  ∧ queue s' = (if bool_decide (length rest = 0) then nextBag s else rest)
  ∧ (if bool_decide (length rest = 0) then nextBag s' ≡ₚ ORDER
     else nextBag s' = nextBag s)
  ∧ running s' = running s && free (board s) piece.

(** Rows 2 to 19 of a grid with a tower in columns 4 and 5. *)
Definition towerBoard : Board := replicate 2 emptyRow ++ replicate 18 rowO.

(** A running game with the O-piece on top of the tower. *)
Definition towerState : State :=
  mkState towerBoard (Some pieceO) [kT; kS] [kI; kO; kT; kS; kZ; kJ; kL]
          true 0 0 1 None true.

(** ** Vocabulary of the hold, pause and overlay properties *)


(** What the first hold of a game leaves, for the render [s] that held
    the piece [a], the kinds [rest] behind the head of its queue and the
    spawn piece [piece] of that head. *)
Definition heldFirst (s s' : State) (a : Piece.t) (rest : list Kind) (piece : Piece.t)
  : Prop :=
  hold s' = Some (Piece.k a)
  ∧ active s' = Some piece
  ∧ canHold s' = true
  ∧ board s' = board s ∧ score s' = score s ∧ lines s' = lines s ∧ level s' = level s
  ∧ queue s' = (if bool_decide (length rest = 0) then nextBag s else rest)
  ∧ running s' = running s && free (board s) piece.

(** The text of the overlay that the component renders over the well:
    [{!running && (... {active ? "Paused" : "Game Over"} ...)}]. *)
Definition overlay (s : State) : option string :=
  if running s then None
  else Some (match active s with Some _ => "Paused" | None => "Game Over" end).

(** While a handler runs: there is an active piece, or a queued [spawn]
    will make one. *)
Definition pendingActive (w : Pending) : Prop :=
  active (st w) ≠ None ∨ deferred w ≠ [].

(** ** Vocabulary of the frame property *)

(** A row that is filled but for columns 4 and 5. *)
Definition gapRow : list Cell :=
  replicate 4 (Some "#00FFFF") ++ replicate 2 None ++ replicate 4 (Some "#00FFFF").

(** A running game in which the O-piece has come down into the gap of
    the two bottom rows. *)
Definition gapState : State :=
  mkState (replicate 18 emptyRow ++ [gapRow; gapRow])
          (Some (Piece.mk 4 18 [[1; 1]; [1; 1]] "#F7D154" kO))
          [kT; kS] [kI; kO; kT; kS; kZ; kJ; kL] true 0 0 1 None true.


(** ** Sizing *)

(** [recalc] of the sizing effect, for the width [contW] of the container
    (or of the window) and the height [vh] of the window, in pixels:
    the size of a cell that [setCell] receives. *)
Definition recalc (contW vh : Z) : Z :=
  let pad := 16%Z in
  let availW := Z.max 180 (contW - pad) in
  let availH := Z.max 240 (vh - 220) in
  let target := Z.min (availW / COLS) (availH / ROWS) in
  let clamped := Z.max 16 (Z.min 36 (if (target =? 0)%Z then 28 else target)) in
  clamped.

(** ** Colours *)

(** The colour helpers work on JavaScript strings; the strings here are
    those whose code units are below 256. *)

(** [hex.replace("#", "")]: the first ["#"] is taken out. *)
Fixpoint removeFirstHash (s : string) : string :=
  match s with
  | EmptyString => EmptyString
  | String c s' => if Ascii.eqb c "#"%char then s' else String c (removeFirstHash s')
  end.

(** The white space and the line terminators that [parseInt] skips: tab,
    line feed, vertical tab, form feed, carriage return, space and the
    no-break space. *)
Definition isWhiteSpace (c : ascii) : bool :=
  let n := nat_of_ascii c in
  (n =? 9)%nat || (n =? 10)%nat || (n =? 11)%nat || (n =? 12)%nat || (n =? 13)%nat
  || (n =? 32)%nat || (n =? 160)%nat.

Fixpoint trimStart (s : string) : string :=
  match s with
  | EmptyString => EmptyString
  | String c s' => if isWhiteSpace c then trimStart s' else s
  end.

(** The value of a digit of radix 16. *)
Definition hexVal (c : ascii) : option Z :=
  let n := Z.of_nat (nat_of_ascii c) in
  if (48 <=? n)%Z && (n <=? 57)%Z then Some (n - 48)%Z
  else if (97 <=? n)%Z && (n <=? 102)%Z then Some (n - 87)%Z
  else if (65 <=? n)%Z && (n <=? 70)%Z then Some (n - 55)%Z
  else None.

(** The value of the longest prefix of digits; [None] when it is
    empty. *)
Fixpoint digitsValue (s : string) (acc : option Z) : option Z :=
  match s with
  | EmptyString => acc
  | String c s' =>
      match hexVal c with
      | None => acc
      | Some d => digitsValue s' (Some (match acc with
                                        | None => d
                                        | Some a => a * 16 + d
                                        end)%Z)
      end
  end.

(** [parseInt(v, 16)]: white space, a sign and a prefix [0x] or [0X] are
    skipped, then the digits are read.  [None] is [NaN]. *)
Definition parseInt16 (v : string) : option Z :=
  let s := trimStart v in
  let signed :=
    match s with
    | String c s' =>
        if Ascii.eqb c "-"%char then ((-1)%Z, s')
        else if Ascii.eqb c "+"%char then (1%Z, s')
        else (1%Z, s)
    | EmptyString => (1%Z, s)
    end in
  let s := match signed.2 with
           | String c1 (String c2 s') =>
               if Ascii.eqb c1 "0"%char && (Ascii.eqb c2 "x"%char || Ascii.eqb c2 "X"%char)
               then s' else signed.2
           | _ => signed.2
           end in
  (λ n, signed.1 * n)%Z <$> digitsValue s None.

(** [ToInt32], which [>>] and [&] apply to their operands; [NaN] becomes
    0. *)
Definition toInt32 (num : option Z) : Z :=
  match num with
  | None => 0
  | Some n => ((n + 2 ^ 31) mod 2 ^ 32 - 2 ^ 31)%Z
  end.

Definition hexToRgb (hex : string) : Z * Z * Z :=
  let v := removeFirstHash hex in
  let num := toInt32 (parseInt16 v) in
  if (String.length v =? 6)%nat
  then (Z.land (Z.shiftr num 16) 255, Z.land (Z.shiftr num 8) 255, Z.land num 255)
  else (255, 255, 255)%Z.

(** The digit of radix 16 for a value below 16, in lower case. *)
Definition digitChar (d : Z) : ascii :=
  ascii_of_nat (Z.to_nat (if (d <? 10)%Z then 48 + d else 87 + d)).

(** The digits of a number that is not negative, with enough fuel for
    them all. *)
Fixpoint hexDigits (fuel : nat) (x : Z) : string :=
  match fuel with
  | 0 => EmptyString
  | S fuel' =>
      if (x <? 16)%Z then String (digitChar x) EmptyString
      else String.append (hexDigits fuel' (x / 16)) (String (digitChar (x mod 16)) EmptyString)
  end.

(** [x.toString(16)] for an integer [x]. *)
Definition toString16 (x : Z) : string :=
  if (x <? 0)%Z then String "-"%char (hexDigits (S (Z.to_nat (Z.log2 (- x)))) (- x))
  else hexDigits (S (Z.to_nat (Z.log2 x))) x.

(** [s.padStart(2, "0")] *)
Definition padStart2 (s : string) : string :=
  match String.length s with
  | 0 => String "0"%char (String "0"%char EmptyString)
  | 1 => String "0"%char s
  | _ => s
  end.

Definition rgbToHex (r g b : Z) : string :=
  String "#"%char (String.append (padStart2 (toString16 r))
                (String.append (padStart2 (toString16 g)) (padStart2 (toString16 b)))).

(** The [clamp] of [shade]. *)
Definition clamp (amt v : Z) : Z := Z.max 0 (Z.min 255 (v + amt)).

Definition shade (hex : string) (amt : Z) : string :=
  let rgb := hexToRgb hex in
  rgbToHex (clamp amt rgb.1.1) (clamp amt rgb.1.2) (clamp amt rgb.2).

(** The two digits that [rgbToHex] writes for a channel. *)
Definition channelPair (x : Z) (c1 c2 : ascii) : bool :=
  bool_decide (padStart2 (toString16 x) = String c1 (String c2 EmptyString))
  && bool_decide (hexVal c1 = Some (x / 16)%Z)
  && bool_decide (hexVal c2 = Some (x mod 16)%Z)
  && negb (isWhiteSpace c1)
  && negb (Ascii.eqb c1 "-"%char) && negb (Ascii.eqb c1 "+"%char)
  && negb (Ascii.eqb c2 "x"%char) && negb (Ascii.eqb c2 "X"%char).

(** ** Vocabulary of the level property *)

(** The level is the one that the lines give. *)
Definition levelOk (s : State) : Prop := level s = (1 + lines s / 10)%Z.

(** The timer, when one is set, runs the function of a button that
    repeats. *)
Definition timerRepeats (t : Timer) : Prop :=
  ∀ r b, t = Some (r, b) → repeats b = true.

(** A frame with at most one gravity tick; every other event. *)
Definition oneTick (ev : Event) : bool :=
  match ev with
  | Frame n => bool_decide (n <= 1)
  | _ => true
  end.

(** An action that leaves the lines and the level as they are. *)
Definition keepsLevel {A} (act : Act A) : Prop :=
  ∀ rnd w a w', act rnd w = Some (a, w') →
    lines (st w') = lines (st w) ∧ level (st w') = level (st w).

(** An action of the render [r] that, started on the lines and the level
    of [r], leaves a level that is the one the lines give. *)
Definition levelPost (r : State) {A} (act : Act A) : Prop :=
  ∀ rnd w a w', act rnd w = Some (a, w') →
    lines (st w) = lines r → level (st w) = level r → levelOk r →
    levelOk (st w').

(** ** Vocabulary of the overlap property *)

(** An event other than the firing of the interval timer. *)
Definition notInterval (ev : Event) : bool :=
  match ev with
  | Interval => false
  | _ => true
  end.

(** The piece is clear of the grid, or is the spawn piece of its kind. *)
Definition pieceOk (b : Board) (a : Piece.t) : Prop :=
  free b a = true ∨ spawnPiece (Piece.k a) = Some a.

(** The same for the active piece of a state, when there is one. *)
Definition activeOk (s : State) : Prop :=
  ∀ a, active s = Some a → pieceOk (board s) a.

(** While a handler of the render [r] runs: a [spawn] is queued, or the
    grid is still the one of [r] and the active piece is clear of it or a
    spawn piece. *)
Definition moveInv (r : State) (w : Pending) : Prop :=
  deferred w ≠ []
  ∨ (board (st w) = board r ∧ ∀ a, active (st w) = Some a → pieceOk (board r) a).

(** An action of the render [r] that keeps [moveInv]. *)
Definition keepsMove (r : State) {A} (act : Act A) : Prop :=
  ∀ rnd w a w', act rnd w = Some (a, w') → moveInv r w → moveInv r w'.

(** ** Vocabulary of the held button *)

(** The first game with the O-piece on the floor: the render in which ◀
    is pressed. *)
Definition pressState : State :=
  mkState (emptyBoard ROWS COLS) (Some (Piece.mk 4 18 [[1; 1]; [1; 1]] "#F7D154" kO))
          [kT; kS; kZ; kJ; kL; kI] [kO; kT; kS; kZ; kJ; kL; kI] true 0 0 1 None true.

(** A row with the colour of the O-piece in columns 3 and 4. *)
Definition rowO3 : list Cell :=
  replicate 3 None ++ replicate 2 (Some "#F7D154") ++ replicate 5 None.

(** The game after the O-piece, moved one column to the left, has been
    locked and the T-piece has spawned. *)
Definition lockedState : State :=
  mkState (replicate 18 emptyRow ++ [rowO3; rowO3])
          (Some (Piece.mk 3 0 [[0; 1; 0]; [1; 1; 1]] "#B57AD2" kT))
          [kS; kZ; kJ; kL; kI] [kO; kT; kS; kZ; kJ; kL; kI] true 0 0 1 None true.

(** * Properties *)

(** ** [collides] *)

Lemma wfBoard_lookup (b : Board) (ny : Z) :
  wfBoard b → (0 <= ny < ROWS)%Z →
  ∃ r, b !! Z.to_nat ny = Some r ∧ length r = Z.to_nat COLS.
Proof.
  intros [Hlen Hrows] Hny.
  destruct (lookup_lt_is_Some_2 b (Z.to_nat ny)) as [r Hr]; [lia|].
  exists r. split; [done|].
  by eapply (Forall_lookup_1 _ _ _ _ Hrows).
Qed.

Lemma truthyAt_filledAt (b : Board) (r : list Cell) (ny nx : Z) :
  b !! Z.to_nat ny = Some r →
  truthyAt r nx = true ↔ filledAt b ny nx.
Proof.
  intros Hr. unfold truthyAt, filledAt. split.
  - destruct (r !! Z.to_nat nx) as [c|] eqn:Hc; [|done].
    intros Ht. by exists r, c.
  - intros (r' & c & Hr' & Hc & Ht).
    rewrite Hr in Hr'. injection Hr' as <-. by rewrite Hc.
Qed.

Lemma collidesCells_spec (b : Board) (p : Piece.t) (y : nat) (row : list nat) (x0 : nat) :
  wfBoard b →
  ∃ v, collidesCells b p y row x0 = Some v
       ∧ (v = true ↔ ∃ i val, row !! i = Some val ∧ truthyNum val = true
                              ∧ hits b p y (x0 + i)).
Proof.
  intros Hwf. revert x0. induction row as [|val rest IH]; intros x0; simpl.
  - exists false. split; [done|]. split; [done|]. by intros (i & v' & ? & _).
  - assert (Hshift : ∀ v : bool,
      (v = true ↔ ∃ i val0, rest !! i = Some val0 ∧ truthyNum val0 = true
                            ∧ hits b p y (S x0 + i)) →
      ¬ (truthyNum val = true ∧ hits b p y (x0 + 0)) →
      (v = true ↔ ∃ i val0, (val :: rest) !! i = Some val0 ∧ truthyNum val0 = true
                            ∧ hits b p y (x0 + i))).
    { intros v Hv Hno. rewrite Hv. split.
      - intros (i & v0 & Hi & Ht & Hh). exists (S i), v0. simpl.
        replace (x0 + S i) with (S x0 + i) by lia. done.
      - intros ([|i] & v0 & Hi & Ht & Hh); simpl in Hi.
        + injection Hi as ->. by destruct Hno.
        + exists i, v0. replace (S x0 + i) with (x0 + S i) by lia. done. }
    destruct (truthyNum val) eqn:Hval; simpl.
    2: { destruct (IH (S x0)) as (v & Hv & Hiff). exists v. split; [done|].
         apply Hshift; [done|]. by intros [? _]. }
    destruct ((Piece.x p + Z.of_nat x0 <? 0)%Z || (Piece.x p + Z.of_nat x0 >=? COLS)%Z
              || (Piece.y p + Z.of_nat y >=? ROWS)%Z) eqn:Hout.
    { exists true. split; [done|]. split; [|done]. intros _.
      exists 0, val. split; [done|]. split; [done|].
      unfold hits. replace (x0 + 0) with x0 by lia. simpl. lia. }
    destruct (Piece.y p + Z.of_nat y >=? 0)%Z eqn:Hrow.
    2: { destruct (IH (S x0)) as (v & Hv & Hiff). exists v. split; [done|].
         apply Hshift; [done|]. intros [_ Hh]. unfold hits in Hh.
         replace (x0 + 0) with x0 in Hh by lia. simpl in Hh. lia. }
    destruct (wfBoard_lookup b (Piece.y p + Z.of_nat y) Hwf) as (r & Hr & _); [lia|].
    rewrite Hr.
    destruct (truthyAt r (Piece.x p + Z.of_nat x0)) eqn:Hfill.
    { exists true. split; [done|]. split; [|done]. intros _.
      exists 0, val. split; [done|]. split; [done|].
      unfold hits. replace (x0 + 0) with x0 by lia. simpl.
      right; right; right. split; [lia|]. by apply (truthyAt_filledAt b r). }
    destruct (IH (S x0)) as (v & Hv & Hiff). exists v. split; [done|].
    apply Hshift; [done|]. intros [_ Hh]. unfold hits in Hh.
    replace (x0 + 0) with x0 in Hh by lia. simpl in Hh.
    destruct Hh as [?|[?|[?|[_ Hf]]]]; [lia..|].
    apply (truthyAt_filledAt b r) in Hf; [|done]. congruence.
Qed.

Lemma collidesRows_spec (b : Board) (p : Piece.t) (y0 : nat) (rows : Matrix) :
  wfBoard b →
  ∃ v, collidesRows b p y0 rows = Some v
       ∧ (v = true ↔ ∃ j i row val, rows !! j = Some row ∧ row !! i = Some val
                                    ∧ truthyNum val = true ∧ hits b p (y0 + j) i).
Proof.
  intros Hwf. revert y0. induction rows as [|row rest IH]; intros y0; simpl.
  - exists false. split; [done|]. split; [done|]. by intros (j & i & r & v & ? & _).
  - destruct (collidesCells_spec b p y0 row 0 Hwf) as (v & -> & Hv).
    destruct v.
    + exists true. split; [done|]. split; [|done]. intros _.
      destruct Hv as [Hv _]. destruct (Hv eq_refl) as (i & val & Hi & Ht & Hh).
      exists 0, i, row, val. replace (y0 + 0) with y0 by lia. done.
    + destruct (IH (S y0)) as (v & -> & Hrest). exists v. split; [done|].
      rewrite Hrest. split.
      * intros (j & i & r & val & Hj & Hi & Ht & Hh).
        exists (S j), i, r, val. replace (y0 + S j) with (S y0 + j) by lia. done.
      * intros ([|j] & i & r & val & Hj & Hi & Ht & Hh); simpl in Hj.
        -- injection Hj as ->. replace (y0 + 0) with y0 in Hh by lia.
           destruct Hv as [_ Hv]. discriminate Hv. by exists i, val.
        -- exists j, i, r, val. replace (S y0 + j) with (y0 + S j) by lia. done.
Qed.

Lemma collides_total (b : Board) (p : Piece.t) :
  wfBoard b → ∃ v, collides b p = Some v.
Proof.
  intros Hwf. destruct (collidesRows_spec b p 0 (Piece.m p) Hwf) as (v & Hv & _).
  by exists v.
Qed.

Lemma collides_true_iff (b : Board) (p : Piece.t) :
  wfBoard b →
  collides b p = Some true ↔ ∃ y x, occupied (Piece.m p) y x ∧ hits b p y x.
Proof.
  intros Hwf. destruct (collidesRows_spec b p 0 (Piece.m p) Hwf) as (v & Hv & Hiff).
  unfold collides. rewrite Hv. split.
  - intros [= ->]. destruct Hiff as [Hiff _].
    destruct (Hiff eq_refl) as (j & i & row & val & Hj & Hi & Ht & Hh).
    exists j, i. split; [by exists row, val | done].
  - intros (y & x & (row & val & Hy & Hx & Ht) & Hh).
    f_equal. apply Hiff. by exists y, x, row, val.
Qed.

(** C1.  On a grid of the game [collides] always returns, and it returns
    [true] exactly when some occupied cell of the piece's matrix, at its
    absolute coordinates, has column < 0, column >= COLS, row >= ROWS, or
    row >= 0 and a filled grid cell under it.  In particular a piece
    whose occupied cells all lie above the grid (row < 0) and inside the
    columns does not collide, whatever the grid holds. *)
Theorem C1_collides_iff (b : Board) (p : Piece.t) :
  wfBoard b →
  (∃ v, collides b p = Some v)
  ∧ (collides b p = Some true ↔ ∃ y x, occupied (Piece.m p) y x ∧ hits b p y x)
  ∧ ((∀ y x, occupied (Piece.m p) y x →
        (Piece.y p + Z.of_nat y < 0)%Z ∧ (0 <= Piece.x p + Z.of_nat x < COLS)%Z) →
     collides b p = Some false).
Proof.
  intros Hwf. split; [by apply collides_total|]. split; [by apply collides_true_iff|].
  intros Habove. destruct (collides_total b p Hwf) as [[|] Hv]; [|done].
  apply collides_true_iff in Hv; [|done].
  destruct Hv as (y & x & Hocc & Hh). destruct (Habove y x Hocc) as [Hy Hx].
  unfold hits, ROWS in Hh. simpl in Hh. lia.
Qed.

(** ** [mergePiece] on values *)

Lemma cloneBoard_id (b : Board) : cloneBoard b = b.
Proof. unfold cloneBoard. apply list_fmap_id. Qed.

Lemma jsSet_inside {A} (hole : A) (arr : list A) (i : nat) (v : A) :
  i < length arr → jsSet hole arr i v = <[i:=v]> arr.
Proof. intros Hi. unfold jsSet. by rewrite decide_True. Qed.

Lemma wfBoard_insert (nb : Board) (ny : nat) (r : list Cell) :
  wfBoard nb → length r = Z.to_nat COLS → wfBoard (<[ny:=r]> nb).
Proof.
  intros [Hlen Hrows] Hr. split.
  - by rewrite length_insert.
  - apply Forall_insert; done.
Qed.

Lemma cellAt_write (nb : Board) (ny nx : nat) (r : list Cell) (c : Cell) (ny' nx' : nat) :
  nb !! ny = Some r → nx < length r →
  cellAt (<[ny := <[nx:=c]> r]> nb) ny' nx'
  = if decide (ny' = ny ∧ nx' = nx) then Some c else cellAt nb ny' nx'.
Proof.
  intros Hr Hnx. unfold cellAt.
  assert (Hny : ny < length nb) by (by eapply lookup_lt_Some).
  destruct (decide (ny' = ny)) as [->|Hne].
  - rewrite list_lookup_insert_eq by done. simpl.
    destruct (decide (nx' = nx)) as [->|Hne'].
    + rewrite list_lookup_insert_eq by done. by rewrite decide_True.
    + rewrite list_lookup_insert_ne by done. rewrite decide_False by tauto.
      by rewrite Hr.
  - rewrite list_lookup_insert_ne by done. by rewrite decide_False by tauto.
Qed.

Section merge.
Variable p : Piece.t.

(** Grid cell [(ny, nx)] lies under an occupied entry of matrix row [y],
    whose entries from column [x0] on are [row]. *)
Let under (y : nat) (row : list nat) (x0 : nat) (ny nx : nat) : Prop :=
  ∃ i val, row !! i = Some val ∧ truthyNum val = true
           ∧ Z.of_nat ny = (Piece.y p + Z.of_nat y)%Z
           ∧ Z.of_nat nx = (Piece.x p + Z.of_nat (x0 + i))%Z.

Lemma mergeCells_spec (y : nat) (row : list nat) (x0 : nat) (nb : Board) :
  wfBoard nb →
  ∃ nb', mergeCells p y row x0 nb = Some nb' ∧ wfBoard nb'
         ∧ ∀ ny nx,
             (under y row x0 ny nx → ny < Z.to_nat ROWS → nx < Z.to_nat COLS →
              cellAt nb' ny nx = Some (Some (Piece.c p)))
             ∧ (¬ under y row x0 ny nx → cellAt nb' ny nx = cellAt nb ny nx).
Proof using Type.
  revert x0 nb. induction row as [|val rest IH]; intros x0 nb Hwf; simpl.
  - exists nb. split; [done|]. split; [done|]. intros ny nx. split; [|done].
    by intros (i & v & ? & _).
  - assert (Hskip : ∀ nb1 nb', wfBoard nb' →
      (∀ ny nx,
         (under y rest (S x0) ny nx → ny < Z.to_nat ROWS → nx < Z.to_nat COLS →
          cellAt nb' ny nx = Some (Some (Piece.c p)))
         ∧ (¬ under y rest (S x0) ny nx → cellAt nb' ny nx = cellAt nb1 ny nx)) →
      (∀ ny nx,
         (truthyNum val = true ∧ Z.of_nat ny = (Piece.y p + Z.of_nat y)%Z
          ∧ Z.of_nat nx = (Piece.x p + Z.of_nat x0)%Z
          ∧ ny < Z.to_nat ROWS ∧ nx < Z.to_nat COLS →
          cellAt nb1 ny nx = Some (Some (Piece.c p)))
         ∧ (¬ (truthyNum val = true ∧ Z.of_nat ny = (Piece.y p + Z.of_nat y)%Z
               ∧ Z.of_nat nx = (Piece.x p + Z.of_nat x0)%Z) →
            cellAt nb1 ny nx = cellAt nb ny nx)) →
      ∀ ny nx,
        (under y (val :: rest) x0 ny nx → ny < Z.to_nat ROWS → nx < Z.to_nat COLS →
         cellAt nb' ny nx = Some (Some (Piece.c p)))
        ∧ (¬ under y (val :: rest) x0 ny nx → cellAt nb' ny nx = cellAt nb ny nx)).
    { intros nb1 nb' Hwf' Hrest Hcur ny nx.
      destruct (Hrest ny nx) as [Hr1 Hr2]. destruct (Hcur ny nx) as [Hc1 Hc2].
      split.
      - intros ([|i] & v & Hi & Ht & Hy & Hx) Hny Hnx; simpl in Hi.
        + injection Hi as ->. replace (x0 + 0) with x0 in Hx by lia.
          rewrite Hr2; [by apply Hc1|].
          intros (i' & v' & _ & _ & _ & Hx'). lia.
        + apply Hr1; [|done..]. exists i, v.
          replace (S x0 + i) with (x0 + S i) by lia. done.
      - intros Hno. rewrite Hr2, Hc2; [done| |].
        + intros (Ht & Hy & Hx). apply Hno. exists 0, val.
          replace (x0 + 0) with x0 by lia. done.
        + intros (i & v & Hi & Ht & Hy & Hx). apply Hno. exists (S i), v.
          replace (x0 + S i) with (S x0 + i) by lia. done. }
    destruct (truthyNum val) eqn:Hval; simpl.
    2: { destruct (IH (S x0) nb Hwf) as (nb' & Hm & Hwf' & Hcells).
         exists nb'. split; [done|]. split; [done|].
         apply (Hskip nb nb' Hwf' Hcells). intros ny nx. split; [|done].
         by intros [? _]. }
    destruct ((Piece.y p + Z.of_nat y >=? 0)%Z && (Piece.y p + Z.of_nat y <? ROWS)%Z
              && (Piece.x p + Z.of_nat x0 >=? 0)%Z
              && (Piece.x p + Z.of_nat x0 <? COLS)%Z) eqn:Hin.
    2: { destruct (IH (S x0) nb Hwf) as (nb' & Hm & Hwf' & Hcells).
         exists nb'. split; [done|]. split; [done|].
         apply (Hskip nb nb' Hwf' Hcells). intros ny nx. split; [|done].
         intros (_ & Hy & Hx & Hny & Hnx). unfold ROWS, COLS in *. lia. }
    destruct (wfBoard_lookup nb (Piece.y p + Z.of_nat y) Hwf) as (r & Hr & Hlen); [lia|].
    rewrite Hr.
    assert (Hnx : Z.to_nat (Piece.x p + Z.of_nat x0) < length r).
    { rewrite Hlen. unfold COLS in *. lia. }
    rewrite jsSet_inside by done.
    set (nb1 := <[Z.to_nat (Piece.y p + Z.of_nat y) :=
                   <[Z.to_nat (Piece.x p + Z.of_nat x0) := Some (Piece.c p)]> r]> nb).
    assert (Hwf1 : wfBoard nb1).
    { apply wfBoard_insert; [done|]. by rewrite length_insert. }
    destruct (IH (S x0) nb1 Hwf1) as (nb' & Hm & Hwf' & Hcells).
    exists nb'. split; [done|]. split; [done|].
    apply (Hskip nb1 nb' Hwf' Hcells). intros ny nx. unfold nb1.
    rewrite cellAt_write by done. split.
    + intros (_ & Hy & Hx & _). rewrite decide_True; [done|]. lia.
    + intros Hno. rewrite decide_False; [done|]. intros [-> ->]. apply Hno.
      split; [done|]. lia.
Qed.

Let underRows (y0 : nat) (rows : Matrix) (ny nx : nat) : Prop :=
  ∃ j row, rows !! j = Some row ∧ under (y0 + j) row 0 ny nx.

Lemma mergeRows_spec (y0 : nat) (rows : Matrix) (nb : Board) :
  wfBoard nb →
  ∃ nb', mergeRows p y0 rows nb = Some nb' ∧ wfBoard nb'
         ∧ ∀ ny nx,
             (underRows y0 rows ny nx → ny < Z.to_nat ROWS → nx < Z.to_nat COLS →
              cellAt nb' ny nx = Some (Some (Piece.c p)))
             ∧ (¬ underRows y0 rows ny nx → cellAt nb' ny nx = cellAt nb ny nx).
Proof using Type.
  revert y0 nb. induction rows as [|row rest IH]; intros y0 nb Hwf; simpl.
  - exists nb. split; [done|]. split; [done|]. intros ny nx. split; [|done].
    by intros (j & r & ? & _).
  - destruct (mergeCells_spec y0 row 0 nb Hwf) as (nb1 & -> & Hwf1 & Hcur).
    destruct (IH (S y0) nb1 Hwf1) as (nb' & Hm & Hwf' & Hrest).
    exists nb'. split; [done|]. split; [done|]. intros ny nx.
    destruct (Hrest ny nx) as [Hr1 Hr2]. destruct (Hcur ny nx) as [Hc1 Hc2].
    split.
    + intros ([|j] & r & Hj & Hu) Hny Hnx; simpl in Hj.
      * injection Hj as ->. replace (y0 + 0) with y0 in Hu by lia.
        rewrite Hr2; [by apply Hc1|].
        intros (j' & r' & _ & (i' & v' & _ & _ & Hy' & _)).
        destruct Hu as (i & v & _ & _ & Hy & _). lia.
      * apply Hr1; [|done..]. exists j, r.
        replace (S y0 + j) with (y0 + S j) by lia. done.
    + intros Hno. rewrite Hr2, Hc2; [done| |].
      * intros Hu. apply Hno. exists 0, row.
        replace (y0 + 0) with y0 by lia. done.
      * intros (j & r & Hj & Hu). apply Hno. exists (S j), r.
        replace (y0 + S j) with (S y0 + j) by lia. done.
Qed.

Lemma covered_underRows (ny nx : nat) :
  covered p ny nx ↔ underRows 0 (Piece.m p) ny nx.
Proof using Type.
  unfold covered, occupied, underRows, under. split.
  - intros (y & x & (row & v & Hy & Hx & Ht) & Hny & Hnx).
    exists y, row. split; [done|]. exists x, v. simpl. done.
  - intros (j & row & Hj & (i & v & Hi & Ht & Hny & Hnx)). simpl in *.
    exists j, i. split; [by exists row, v | done].
Qed.

(** On a grid of the game [mergePiece] returns a grid of the game, in
    which the cells under the piece hold its colour and all others are
    as before. *)
Lemma mergePiece_spec (b : Board) :
  wfBoard b →
  ∃ nb, mergePiece b p = Some nb ∧ wfBoard nb
        ∧ ∀ ny nx,
            (covered p ny nx → ny < Z.to_nat ROWS → nx < Z.to_nat COLS →
             cellAt nb ny nx = Some (Some (Piece.c p)))
            ∧ (¬ covered p ny nx → cellAt nb ny nx = cellAt b ny nx).
Proof using Type.
  intros Hwf. unfold mergePiece. rewrite cloneBoard_id.
  destruct (mergeRows_spec 0 (Piece.m p) b Hwf) as (nb & Hm & Hwf' & Hcells).
  exists nb. split; [done|]. split; [done|]. intros ny nx.
  destruct (Hcells ny nx) as [H1 H2]. split.
  - intros Hc. apply H1. by apply covered_underRows.
  - intros Hc. apply H2. by rewrite <- covered_underRows.
Qed.
End merge.

(** ** [mergePiece] on the store *)

Lemma readBoard_Some (σ : gmap Store.loc Store.Obj) (b : Store.loc) (g : Board) :
  Store.readBoard σ b = Some g ↔ ∃ ls, σ !! b = Some (Store.Rows ls) ∧ holds σ ls g.
Proof.
  unfold Store.readBoard, holds. split.
  - destruct (σ !! b) as [[cs|ls]|] eqn:Hb; [done| |done].
    intros Hm. exists ls. split; [done|]. apply mapM_Some_1 in Hm.
    eapply Forall2_impl; [exact Hm|]. intros l r. unfold Store.readRow.
    destruct (σ !! l) as [[cs|?]|]; congruence.
  - intros (ls & -> & Hh). apply mapM_Some_2.
    eapply Forall2_impl; [exact Hh|]. intros l r Hl. unfold Store.readRow. by rewrite Hl.
Qed.

Lemma holds_weaken (σ τ : gmap Store.loc Store.Obj) (ls : list Store.loc) (g : Board) :
  holds σ ls g → σ ⊆ τ → holds τ ls g.
Proof.
  intros Hh Hsub. eapply Forall2_impl; [exact Hh|].
  intros l r Hl. simpl in *. by eapply lookup_weaken.
Qed.

Lemma alloc_fresh (σ : gmap Store.loc Store.Obj) (o : Store.Obj) :
  σ !! (Store.alloc σ o).2 = None ∧ σ ⊆ (Store.alloc σ o).1
  ∧ (Store.alloc σ o).1 !! (Store.alloc σ o).2 = Some o.
Proof.
  unfold Store.alloc. simpl.
  assert (Hf : σ !! fresh (dom σ) = None) by (apply not_elem_of_dom, is_fresh).
  split; [done|]. split; [by apply insert_subseteq|]. by rewrite lookup_insert_eq.
Qed.

(** Copying the rows allocates distinct new arrays with the same
    contents and leaves the store that was there as it was. *)
Lemma sliceAll_spec (σ : gmap Store.loc Store.Obj) (ls : list Store.loc) (g : Board) :
  holds σ ls g →
  ∃ σ1 ls', Store.sliceAll σ ls = Some (σ1, ls') ∧ σ ⊆ σ1 ∧ holds σ1 ls' g
            ∧ NoDup ls' ∧ Forall (λ l, σ !! l = None) ls'.
Proof.
  revert σ g. induction ls as [|l ls IH]; intros σ g Hh.
  - apply Forall2_nil_inv_l in Hh as ->. exists σ, []. simpl.
    repeat split; [done|constructor|constructor|constructor].
  - apply Forall2_cons_inv_l in Hh as (r & g' & Hl & Hh & ->). simpl.
    unfold Store.slice. rewrite Hl.
    destruct (alloc_fresh σ (Store.Cells r)) as (Hnew & Hsub & Hget).
    destruct (Store.alloc σ (Store.Cells r)) as [σa l1] eqn:Ha. simpl in *.
    destruct (IH σa g' (holds_weaken _ _ _ _ Hh Hsub))
      as (σ1 & ls' & -> & Hsub1 & Hh1 & Hnd & Hfr).
    exists σ1, (l1 :: ls'). split; [done|]. split; [by etrans|]. split.
    { constructor; [|done]. by eapply lookup_weaken. }
    split.
    { constructor; [|done]. intros Hin.
      rewrite Forall_forall in Hfr. specialize (Hfr l1 Hin). congruence. }
    constructor; [done|]. eapply Forall_impl; [exact Hfr|].
    intros l' Hl'. simpl in *. by eapply lookup_weaken_None.
Qed.

Lemma cloneBoard_spec (σ : gmap Store.loc Store.Obj) (b : Store.loc) (g : Board) :
  Store.readBoard σ b = Some g →
  ∃ σ1 nb ls', Store.cloneBoard σ b = Some (σ1, nb) ∧ σ !! nb = None
               ∧ merging σ nb ls' σ1 g.
Proof.
  intros (ls & Hb & Hh)%readBoard_Some. unfold Store.cloneBoard. rewrite Hb.
  destruct (sliceAll_spec σ ls g Hh) as (σ1 & ls' & -> & Hsub & Hh1 & Hnd & Hfr).
  destruct (alloc_fresh σ1 (Store.Rows ls')) as (Hnew & Hsub' & Hget).
  destruct (Store.alloc σ1 (Store.Rows ls')) as [σ2 nb] eqn:Ha. simpl in *.
  exists σ2, nb, ls'. split; [done|]. split; [by eapply lookup_weaken_None|].
  split; [by etrans|]. split; [done|]. split; [by eapply holds_weaken|].
  split; [done|]. split; [|done].
  intros Hin. apply list_elem_of_lookup in Hin as [i Hi].
  destruct (Forall2_lookup_l _ _ _ _ _ Hh1 Hi) as (r & _ & Hr). congruence.
Qed.

Lemma merging_write σ nb ls τ g ny nx c :
  merging σ nb ls τ g →
  match g !! ny with
  | None => Store.write τ nb ny nx c = None
  | Some r =>
      ∃ τ', Store.write τ nb ny nx c = Some τ'
            ∧ merging σ nb ls τ' (<[ny := jsSet None r nx c]> g)
  end.
Proof.
  intros (Hsub & Hnb & Hh & Hnd & Hnotin & Hfr). unfold Store.write. rewrite Hnb.
  destruct (g !! ny) as [r|] eqn:Hg.
  - destruct (Forall2_lookup_r _ _ _ _ _ Hh Hg) as (l & Hl & Hr). rewrite Hl, Hr.
    eexists. split; [done|].
    assert (Hlnb : l ≠ nb).
    { intros ->. apply Hnotin. by eapply list_elem_of_lookup_2. }
    split.
    { apply insert_subseteq_r; [|done].
      rewrite Forall_forall in Hfr. apply Hfr. by eapply list_elem_of_lookup_2. }
    split; [by rewrite lookup_insert_ne|].
    split; [|done].
    unfold holds. apply Forall2_same_length_lookup_2.
    { rewrite length_insert. by eapply Forall2_length. }
    intros i l' r' Hl' Hr'.
    destruct (decide (i = ny)) as [->|Hne].
    + rewrite Hl in Hl'. injection Hl' as <-.
      rewrite list_lookup_insert_eq in Hr' by (by eapply lookup_lt_Some).
      injection Hr' as <-. by rewrite lookup_insert_eq.
    + rewrite list_lookup_insert_ne in Hr' by done.
      assert (l' ≠ l).
      { intros ->. apply Hne. by eapply (NoDup_lookup ls). }
      rewrite lookup_insert_ne by done.
      by eapply (Forall2_lookup_lr _ _ _ _ _ _ Hh).
  - assert (ls !! ny = None) as ->; [|done].
    apply lookup_ge_None. apply lookup_ge_None in Hg.
    by rewrite (Forall2_length _ _ _ Hh).
Qed.

(** The loops on the store and the loops on values go in step. *)
Lemma mergeCells_sim σ nb ls p y row x τ g :
  merging σ nb ls τ g →
  match mergeCells p y row x g with
  | None => Store.mergeCells p y row x nb τ = None
  | Some g' => ∃ τ', Store.mergeCells p y row x nb τ = Some τ' ∧ merging σ nb ls τ' g'
  end.
Proof.
  revert x τ g. induction row as [|v rest IH]; intros x τ g Hm; simpl.
  - by exists τ.
  - destruct (negb (truthyNum v)); [by apply IH|].
    destruct ((Piece.y p + Z.of_nat y >=? 0)%Z && (Piece.y p + Z.of_nat y <? ROWS)%Z
              && (Piece.x p + Z.of_nat x >=? 0)%Z && (Piece.x p + Z.of_nat x <? COLS)%Z);
      [|by apply IH].
    pose proof (merging_write σ nb ls τ g (Z.to_nat (Piece.y p + Z.of_nat y))
                  (Z.to_nat (Piece.x p + Z.of_nat x)) (Some (Piece.c p)) Hm) as Hw.
    destruct (g !! Z.to_nat (Piece.y p + Z.of_nat y)) as [r|].
    + destruct Hw as (τ' & -> & Hm'). by apply IH.
    + by rewrite Hw.
Qed.

Lemma mergeRows_sim σ nb ls p y rows τ g :
  merging σ nb ls τ g →
  match mergeRows p y rows g with
  | None => Store.mergeRows p y rows nb τ = None
  | Some g' => ∃ τ', Store.mergeRows p y rows nb τ = Some τ' ∧ merging σ nb ls τ' g'
  end.
Proof.
  revert y τ g. induction rows as [|row rest IH]; intros y τ g Hm; simpl.
  - by exists τ.
  - pose proof (mergeCells_sim σ nb ls p y row 0 τ g Hm) as Hc.
    destruct (mergeCells p y row 0 g) as [g1|].
    + destruct Hc as (τ1 & -> & Hm1). by apply IH.
    + by rewrite Hc.
Qed.

(** [Store.mergePiece] computes what [mergePiece] computes on the value of
    its argument, in a newly allocated board, and every array that was in
    the store at the call is in the store after it with the same
    contents. *)
Lemma mergePiece_store σ b p g :
  Store.readBoard σ b = Some g →
  match mergePiece g p with
  | None => Store.mergePiece σ b p = None
  | Some g' =>
      ∃ σ' nb, Store.mergePiece σ b p = Some (σ', nb)
               ∧ σ !! nb = None
               ∧ Store.readBoard σ' nb = Some g'
               ∧ σ ⊆ σ'
  end.
Proof.
  intros Hread. unfold Store.mergePiece, mergePiece. rewrite cloneBoard_id.
  destruct (cloneBoard_spec σ b g Hread) as (σ1 & nb & ls' & -> & Hnew & Hm).
  pose proof (mergeRows_sim σ nb ls' p 0 (Piece.m p) σ1 g Hm) as Hr.
  destruct (mergeRows p 0 (Piece.m p) g) as [g'|].
  - destruct Hr as (τ' & -> & (Hsub & Hnb & Hh & _)).
    exists τ', nb. split; [done|]. split; [done|]. split; [|done].
    apply readBoard_Some. by exists ls'.
  - by rewrite Hr.
Qed.

Lemma readBoard_weaken σ τ b g :
  Store.readBoard σ b = Some g → σ ⊆ τ → Store.readBoard τ b = Some g.
Proof.
  intros (ls & Hb & Hh)%readBoard_Some Hsub. apply readBoard_Some.
  exists ls. split; [by eapply lookup_weaken | by eapply holds_weaken].
Qed.

(** C9.  For a grid of the game held in the store, [mergePiece] returns a
    newly allocated grid in which every in-bounds cell under an occupied
    cell of the piece holds the piece's colour and every other cell is as
    in the argument; no array that existed before the call is changed, so
    reading the grid through the original reference afterwards gives the
    original contents. *)
Theorem C9_merge_does_not_mutate σ b p g :
  Store.readBoard σ b = Some g → wfBoard g →
  ∃ σ' nb g',
    Store.mergePiece σ b p = Some (σ', nb)
    ∧ σ !! nb = None
    ∧ Store.readBoard σ' nb = Some g'
    ∧ mergePiece g p = Some g'
    ∧ (∀ ny nx,
         (covered p ny nx → ny < Z.to_nat ROWS → nx < Z.to_nat COLS →
          cellAt g' ny nx = Some (Some (Piece.c p)))
         ∧ (¬ covered p ny nx → cellAt g' ny nx = cellAt g ny nx))
    ∧ (∀ l o, σ !! l = Some o → σ' !! l = Some o)
    ∧ Store.readBoard σ' b = Some g.
Proof.
  intros Hread Hwf.
  destruct (mergePiece_spec p g Hwf) as (g' & Hg' & _ & Hcells).
  pose proof (mergePiece_store σ b p g Hread) as Hst. rewrite Hg' in Hst.
  destruct Hst as (σ' & nb & Hm & Hnew & Hread' & Hsub).
  exists σ', nb, g'. repeat split; try done.
  - by apply Hcells.
  - by apply Hcells.
  - intros l o Hl. by eapply lookup_weaken.
  - by eapply readBoard_weaken.
Qed.

(** ** [clearLines] *)

Lemma forallb_fullRow (r : list Cell) : forallb truthyCell r = true ↔ fullRow r.
Proof.
  unfold fullRow. induction r as [|c r IH]; simpl.
  - split; [constructor|done].
  - rewrite andb_true_iff, IH, Forall_cons. done.
Qed.

(** The first loop finds exactly the full rows. *)
Lemma fullRowsFrom_spec (b : Board) (n y : nat) :
  y + n ≤ length b →
  ∃ rows, fullRowsFrom b y n = Some rows
          ∧ (∀ i, i ∈ rows ↔ (y ≤ i < y + n) ∧ ∃ r, b !! i = Some r ∧ fullRow r)
          ∧ length rows = length (filter fullRow (take n (drop y b))).
Proof.
  revert y. induction n as [|n IH]; intros y Hlen; simpl.
  - exists []. split; [done|]. split; [|done].
    intros i. split; [by intros ?%elem_of_nil | lia].
  - destruct (lookup_lt_is_Some_2 b y) as [r Hr]; [lia|]. rewrite Hr.
    destruct (IH (S y)) as (rows & -> & Hmem & Hcount); [lia|].
    rewrite (drop_S _ _ _ Hr). simpl. rewrite filter_cons.
    destruct (forallb truthyCell r) eqn:Hfull.
    + apply forallb_fullRow in Hfull. rewrite decide_True by done.
      exists (y :: rows). split; [done|]. split; [|simpl; by rewrite Hcount].
      intros i. rewrite elem_of_cons, Hmem. split.
      * intros [->|[? ?]]; [|split; [lia|done]]. split; [lia|]. by exists r.
      * intros [? Hi]. destruct (decide (i = y)) as [->|]; [by left|].
        right. split; [lia|done].
    + assert (¬ fullRow r) as Hnot.
      { intros Hf%forallb_fullRow. congruence. }
      rewrite decide_False by done.
      exists rows. split; [done|]. split; [|done].
      intros i. rewrite Hmem. split.
      * intros [? ?]. split; [lia|done].
      * intros [? (r' & Hr' & Hf)]. split; [|by exists r'].
        destruct (decide (i = y)) as [->|]; [|lia]. congruence.
Qed.

(** The filter drops exactly the rows whose index was found. *)
Lemma filterRowsFrom_spec (rows : list nat) (y : nat) (b : Board) :
  (∀ i r, b !! i = Some r → (y + i ∈ rows ↔ fullRow r)) →
  filterRowsFrom rows y b = filter (λ r, ¬ fullRow r) b.
Proof.
  revert y. induction b as [|r b IH]; intros y Hrows; simpl; [done|].
  rewrite filter_cons.
  assert (Hrest : filterRowsFrom rows (S y) b = filter (λ r, ¬ fullRow r) b).
  { apply IH. intros i r' Hi. rewrite <- (Hrows (S i) r' Hi).
    by replace (y + S i) with (S y + i) by lia. }
  pose proof (Hrows 0 r eq_refl) as H0. replace (y + 0) with y in H0 by lia.
  destruct (decide (fullRow r)) as [Hf|Hf].
  - rewrite bool_decide_eq_true_2 by (by apply H0).
    rewrite decide_False by tauto. done.
  - rewrite bool_decide_eq_false_2 by (by rewrite H0).
    rewrite decide_True by done. by rewrite Hrest.
Qed.

(** The loop puts empty rows on top until there are [ROWS] rows. *)
Lemma unshiftRows_spec (fuel : nat) (nb : Board) :
  Z.to_nat ROWS - length nb ≤ fuel →
  unshiftRows fuel nb = replicate (Z.to_nat ROWS - length nb) emptyRow ++ nb.
Proof.
  revert nb. induction fuel as [|fuel IH]; intros nb Hfuel.
  - by replace (Z.to_nat ROWS - length nb) with 0 by lia.
  - cbn [unshiftRows]. destruct (Z.of_nat (length nb) <? ROWS)%Z eqn:Hlt.
    + rewrite IH by (cbn [length]; lia). cbn [length].
      replace (Z.to_nat ROWS - length nb) with (S (Z.to_nat ROWS - S (length nb))) by lia.
      rewrite replicate_S_end. by rewrite <- app_assoc.
    + by replace (Z.to_nat ROWS - length nb) with 0 by lia.
Qed.

Lemma filter_length_complement {A} (P : A → Prop) `{!∀ x, Decision (P x)} (l : list A) :
  length (filter P l) + length (filter (λ x, ¬ P x) l) = length l.
Proof.
  induction l as [|x l IH]; [done|]. rewrite !filter_cons.
  destruct (decide (P x)).
  - rewrite decide_False by tauto. simpl. lia.
  - rewrite decide_True by done. simpl. lia.
Qed.

Lemma filter_none_full (b : Board) :
  length (filter fullRow b) = 0 → filter (λ r, ¬ fullRow r) b = b.
Proof.
  induction b as [|r b IH]; [done|]. rewrite !filter_cons.
  destruct (decide (fullRow r)); simpl; [done|].
  intros Hlen. rewrite decide_True by done. by rewrite IH.
Qed.

(** On a grid of the game [clearLines] returns the rows that are not
    full, in their order, under as many empty rows as there were full
    rows, and the number of full rows. *)
Lemma clearLines_spec (b : Board) :
  wfBoard b →
  clearLines b =
    Some (replicate (length (filter fullRow b)) emptyRow ++ filter (λ r, ¬ fullRow r) b,
          Z.of_nat (length (filter fullRow b))).
Proof.
  intros [Hlen Hrows]. unfold clearLines.
  destruct (fullRowsFrom_spec b (Z.to_nat ROWS) 0) as (rows & -> & Hmem & Hcount); [lia|].
  rewrite drop_0, take_ge in Hcount by lia.
  assert (Hfilter : filterRowsFrom rows 0 b = filter (λ r, ¬ fullRow r) b).
  { apply filterRowsFrom_spec. intros i r Hi. simpl. rewrite Hmem. split.
    - intros [_ (r' & Hr' & Hf)]. congruence.
    - intros Hf. split; [|by exists r]. apply lookup_lt_Some in Hi. lia. }
  pose proof (filter_length_complement fullRow b) as Hsum.
  destruct (decide (length rows = 0)) as [Hz|Hnz].
  - rewrite bool_decide_eq_true_2 by done. rewrite <- Hcount, Hz. simpl.
    rewrite filter_none_full by congruence. done.
  - rewrite bool_decide_eq_false_2 by done. rewrite Hfilter, Hcount.
    rewrite unshiftRows_spec by lia. do 4 f_equal. lia.
Qed.

Lemma filter_keep_all {A} (P : A → Prop) `{!∀ x, Decision (P x)} (l : list A) :
  Forall P l → filter P l = l ∧ filter (λ x, ¬ P x) l = [].
Proof.
  induction 1 as [|x l Hx _ [IH1 IH2]]; [done|].
  rewrite filter_cons_True by done. rewrite filter_cons_False by tauto.
  by rewrite IH1.
Qed.

Lemma filter_drop_all {A} (P : A → Prop) `{!∀ x, Decision (P x)} (l : list A) :
  Forall (λ x, ¬ P x) l → filter P l = [] ∧ filter (λ x, ¬ P x) l = l.
Proof.
  induction 1 as [|x l Hx _ [IH1 IH2]]; [done|].
  rewrite filter_cons_False by done. rewrite filter_cons_True by done.
  by rewrite IH2.
Qed.

(** A grid in which exactly rows 3 and 7 are full, cut at those rows. *)
Lemma rows_3_7_split (b : Board) :
  wfBoard b →
  (∀ y r, b !! y = Some r → (fullRow r ↔ y = 3 ∨ y = 7)) →
  ∃ r3 r7, b = take 3 b ++ r3 :: take 3 (drop 4 b) ++ r7 :: drop 8 b
           ∧ fullRow r3 ∧ fullRow r7
           ∧ Forall (λ r, ¬ fullRow r) (take 3 b)
           ∧ Forall (λ r, ¬ fullRow r) (take 3 (drop 4 b))
           ∧ Forall (λ r, ¬ fullRow r) (drop 8 b).
Proof.
  intros [Hlen _] H37.
  destruct (lookup_lt_is_Some_2 b 3) as [r3 H3]; [rewrite Hlen; unfold ROWS; lia|].
  destruct (lookup_lt_is_Some_2 b 7) as [r7 H7]; [rewrite Hlen; unfold ROWS; lia|].
  exists r3, r7. split.
  { rewrite <- (take_drop 3 b) at 1. f_equal. rewrite (drop_S _ _ _ H3). f_equal.
    rewrite <- (take_drop 3 (drop 4 b)) at 1. f_equal. rewrite drop_drop.
    change (4 + 3) with 7. by rewrite (drop_S _ _ _ H7). }
  split; [apply (H37 3 r3 H3); lia|]. split; [apply (H37 7 r7 H7); lia|].
  split; [|split]; apply Forall_lookup; intros i r Hi.
  - apply lookup_take_Some in Hi as [Hi ?]. rewrite (H37 i r Hi). lia.
  - apply lookup_take_Some in Hi as [Hi ?]. rewrite lookup_drop in Hi.
    rewrite (H37 _ r Hi). lia.
  - rewrite lookup_drop in Hi. rewrite (H37 _ r Hi). lia.
Qed.

(** C2 (amended).  On a grid of the game [clearLines] removes exactly the
    full rows, all at once, puts that many empty rows on top, keeps the
    other rows in their order and returns the number of rows removed; with
    no full row it returns the grid as it is and 0.  When exactly rows 3
    and 7 are full it returns 2 and the grid made of two empty rows, rows
    0-2 of the input (now rows 2-4, two lower), rows 4-6 (now rows 5-7, one
    lower) and rows 8-19 (where they were). *)
Theorem C2_clearLines_removes_full_rows (b : Board) :
  wfBoard b →
  clearLines b =
    Some (replicate (length (filter fullRow b)) emptyRow ++ filter (λ r, ¬ fullRow r) b,
          Z.of_nat (length (filter fullRow b)))
  ∧ (length (filter fullRow b) = 0 → clearLines b = Some (b, 0%Z))
  ∧ ((∀ y r, b !! y = Some r → (fullRow r ↔ y = 3 ∨ y = 7)) →
     clearLines b =
       Some ([emptyRow; emptyRow] ++ take 3 b ++ take 3 (drop 4 b) ++ drop 8 b, 2%Z)).
Proof.
  intros Hwf. pose proof (clearLines_spec b Hwf) as Hspec.
  split; [done|]. split.
  - intros Hz. rewrite Hspec, Hz. simpl. by rewrite filter_none_full.
  - intros H37. rewrite Hspec. clear Hspec.
    destruct (rows_3_7_split b Hwf H37) as (r3 & r7 & Hb & Hf3 & Hf7 & Ha & Hm & Hz).
    destruct (filter_drop_all fullRow _ Ha) as [Ha1 Ha2].
    destruct (filter_drop_all fullRow _ Hm) as [Hm1 Hm2].
    destruct (filter_drop_all fullRow _ Hz) as [Hz1 Hz2].
    assert (Hfull : filter fullRow b = [r3; r7]).
    { rewrite Hb. rewrite filter_app, filter_cons_True, filter_app, filter_cons_True by done.
      by rewrite Ha1, Hm1, Hz1. }
    assert (Hrest : filter (λ r, ¬ fullRow r) b = take 3 b ++ take 3 (drop 4 b) ++ drop 8 b).
    { rewrite Hb at 1.
      rewrite filter_app, filter_cons_False, filter_app, filter_cons_False by tauto.
      by rewrite Ha2, Hm2, Hz2. }
    rewrite Hfull, Hrest. done.
Qed.

(** C2, the claim as written fails: in [board37] exactly rows 3 and 7 are
    full, [clearLines] returns 2, and row 12 of the result is row 12 of the
    input, not row 10 moved down by two. *)
Lemma C2_rows_below_do_not_shift :
  wfBoard board37
  ∧ (∀ y r, board37 !! y = Some r → (fullRow r ↔ y = 3 ∨ y = 7))
  ∧ ∃ nb, clearLines board37 = Some (nb, 2%Z)
          ∧ nb !! 12 = board37 !! 12 ∧ nb !! 12 ≠ board37 !! 10.
Proof.
  split; [|split].
  - split; [reflexivity|]. vm_compute. repeat constructor.
  - intros y r Hy. rewrite <- forallb_fullRow.
    do 20 (destruct y as [|y];
           [injection Hy as <-; vm_compute; split; [try discriminate; auto | intros; try lia; done]|]).
    discriminate Hy.
  - eexists. split; [vm_compute; reflexivity|]. split; [reflexivity|]. discriminate.
Qed.

(** ** Rotation *)

Lemma entry_inside (m : Matrix) (h w y x : nat) :
  rectangular m h w → y < h → x < w →
  ∃ row, m !! y = Some row ∧ row !! x = Some (entry m y x).
Proof.
  intros [Hlen Hrows] Hy Hx.
  destruct (lookup_lt_is_Some_2 m y) as [row Hrow]; [lia|].
  assert (length row = w) as Hw by (by eapply (Forall_lookup_1 _ _ _ _ Hrows)).
  destruct (lookup_lt_is_Some_2 row x) as [v Hv]; [lia|].
  exists row. split; [done|]. unfold entry. rewrite Hrow. simpl. by rewrite Hv.
Qed.

(** Two matrices of the same size with the same entries are equal. *)
Lemma matrix_ext (a b : Matrix) (h w : nat) :
  rectangular a h w → rectangular b h w →
  (∀ y x, y < h → x < w → entry a y x = entry b y x) → a = b.
Proof.
  intros Ha Hb Hent. apply (list_eq_same_length _ _ h); [apply Hb|apply Ha|].
  intros y ra rb Hy Hra Hrb.
  assert (length ra = w) as Hwa by (by eapply (Forall_lookup_1 _ _ _ _ (proj2 Ha))).
  assert (length rb = w) as Hwb by (by eapply (Forall_lookup_1 _ _ _ _ (proj2 Hb))).
  apply (list_eq_same_length _ _ w); [done..|].
  intros x va vb Hx Hva Hvb. specialize (Hent y x Hy Hx).
  unfold entry in Hent. rewrite Hra, Hrb in Hent. simpl in Hent.
  by rewrite Hva, Hvb in Hent.
Qed.

(** One assignment [res[i][j] = v] inside a [w] by [h] array. *)
Lemma write_rectangular (res : Matrix) (w h i j v : nat) :
  rectangular res w h → rectangular (alter (<[j:=v]>) i res) w h.
Proof.
  intros [Hlen Hrows]. split; [by rewrite length_alter|].
  apply Forall_lookup_2. intros i' r Hr. rewrite list_lookup_alter in Hr.
  destruct (decide (i = i')) as [->|].
  - destruct (res !! i') as [r0|] eqn:Hr0; [|done]. simpl in Hr. injection Hr as <-.
    rewrite length_insert. by eapply (Forall_lookup_1 _ _ _ _ Hrows).
  - by eapply (Forall_lookup_1 _ _ _ _ Hrows).
Qed.

Lemma entry_write (res : Matrix) (w h i j v i' j' : nat) :
  rectangular res w h → i < w → j < h →
  entry (alter (<[j:=v]>) i res) i' j'
  = if decide (i' = i ∧ j' = j) then v else entry res i' j'.
Proof.
  intros Hrect Hi Hj. unfold entry. rewrite list_lookup_alter.
  destruct (entry_inside res w h i j Hrect Hi Hj) as (r & Hr & Hv).
  assert (j < length r) by (by eapply lookup_lt_Some).
  destruct (decide (i = i')) as [<-|Hne].
  - rewrite Hr. simpl. destruct (decide (j' = j)) as [->|Hne'].
    + rewrite list_lookup_insert_eq by done. by rewrite decide_True.
    + rewrite list_lookup_insert_ne by done. by rewrite decide_False by tauto.
  - rewrite decide_False; [done|]. intros [-> _]. done.
Qed.

Section loops.
Variables (fi fj : nat → nat → nat) (m : Matrix) (h w : nat).

Let assign (res : Matrix) (p : nat * nat) : Matrix :=
  alter (<[fj p.1 p.2 := entry m p.1 p.2]>) (fi p.1 p.2) res.
Let target (p : nat * nat) : nat * nat := (fi p.1 p.2, fj p.1 p.2).

(** The nested loops are one loop over [visits]. *)
Lemma rotateLoops_visits :
  rotateLoops fi fj m h w = foldl assign (replicate w (replicate h 0)) (visits h w).
Proof using Type.
  unfold rotateLoops, visits. generalize (replicate w (replicate h 0)).
  generalize (seq 0 h). intros ys. induction ys as [|y ys IH]; intros res; [done|].
  rewrite bind_cons, foldl_app. simpl. rewrite IH. f_equal.
  by rewrite foldl_fmap.
Qed.

(** A run of assignments to distinct places inside the array: each
    place assigned holds its value, every other place is as before. *)
Lemma assignments_spec (ps : list (nat * nat)) (res : Matrix) :
  rectangular res w h →
  NoDup (target <$> ps) →
  (∀ p, p ∈ ps → fi p.1 p.2 < w ∧ fj p.1 p.2 < h) →
  rectangular (foldl assign res ps) w h
  ∧ (∀ p, p ∈ ps → entry (foldl assign res ps) (fi p.1 p.2) (fj p.1 p.2)
                     = entry m p.1 p.2)
  ∧ (∀ i j, (i, j) ∉ target <$> ps → entry (foldl assign res ps) i j = entry res i j).
Proof using Type.
  revert res. induction ps as [|p ps IH]; intros res Hrect Hnd Hin.
  - split; [done|]. split; [|done]. by intros p ?%elem_of_nil.
  - rewrite fmap_cons in Hnd. apply NoDup_cons in Hnd as [Hfresh Hnd].
    destruct (Hin p) as [Hi Hj]; [left|].
    destruct (IH (assign res p)) as (Hrect' & Hset & Hkeep).
    { by apply write_rectangular. }
    { done. }
    { intros q Hq. apply Hin. by right. }
    simpl. split; [done|]. split.
    + intros q [->|Hq]%elem_of_cons; [|by apply Hset].
      rewrite (Hkeep _ _ Hfresh). unfold assign.
      rewrite (entry_write _ w h) by done. by rewrite decide_True.
    + intros i j Hnot. apply not_elem_of_cons in Hnot as [Hne Hnot]. rewrite (Hkeep _ _ Hnot). unfold assign.
      rewrite (entry_write _ w h) by done. rewrite decide_False; [done|].
      intros [-> ->]. by apply Hne.
Qed.

Lemma visits_elem (p : nat * nat) : p ∈ visits h w ↔ p.1 < h ∧ p.2 < w.
Proof using Type.
  unfold visits. rewrite list_elem_of_bind. split.
  - intros (y & (x & -> & Hx%elem_of_seq)%list_elem_of_fmap & Hy%elem_of_seq).
    simpl. lia.
  - intros [Hy Hx]. exists p.1. split; [|apply elem_of_seq; lia].
    apply list_elem_of_fmap. exists p.2. split; [by destruct p|apply elem_of_seq; lia].
Qed.

Lemma visits_NoDup : NoDup (visits h w).
Proof using Type.
  unfold visits. apply NoDup_bind; [| |apply NoDup_seq].
  - intros y1 y2 p _ _ (x1 & -> & _)%list_elem_of_fmap (x2 & Heq & _)%list_elem_of_fmap.
    congruence.
  - intros y _. apply NoDup_fmap_2_strong; [|apply NoDup_seq]. congruence.
Qed.

(** The loops, when they assign to distinct places inside the array. *)
Lemma rotateLoops_spec :
  (∀ y x, y < h → x < w → fi y x < w ∧ fj y x < h) →
  (∀ y x y' x', y < h → x < w → y' < h → x' < w →
     fi y x = fi y' x' → fj y x = fj y' x' → y = y' ∧ x = x') →
  rectangular (rotateLoops fi fj m h w) w h
  ∧ ∀ y x, y < h → x < w →
      entry (rotateLoops fi fj m h w) (fi y x) (fj y x) = entry m y x.
Proof using Type.
  intros Hin Hinj. rewrite rotateLoops_visits.
  destruct (assignments_spec (visits h w) (replicate w (replicate h 0)))
    as (Hrect & Hset & _).
  - split; [by rewrite length_replicate|].
    apply Forall_replicate. by rewrite length_replicate.
  - apply NoDup_fmap_2_strong; [|apply visits_NoDup].
    intros [y x] [y' x'] [? ?]%visits_elem [? ?]%visits_elem Heq.
    unfold target in Heq. simpl in *. injection Heq as Heq1 Heq2.
    destruct (Hinj y x y' x') as [-> ->]; done.
  - intros [y x] [? ?]%visits_elem. by apply Hin.
  - split; [done|]. intros y x Hy Hx. apply (Hset (y, x)).
    apply visits_elem. done.
Qed.
End loops.

Lemma rectangular_head (m : Matrix) (m0 : list nat) (rest : Matrix) (h w : nat) :
  rectangular m h w → m = m0 :: rest → length m = h ∧ length m0 = w.
Proof. intros [Hlen Hrows] ->. split; [done|]. by inversion Hrows. Qed.

(** [rotateMatrixCW]: entry [(y, x)] of [m] goes to entry [(x, h-1-y)]. *)
Lemma rotateMatrixCW_entry (m : Matrix) (h w : nat) :
  rectangular m h w → 0 < h →
  ∃ r, rotateMatrixCW m = Some r ∧ rectangular r w h
       ∧ ∀ y x, y < h → x < w → entry r x (h - 1 - y) = entry m y x.
Proof.
  intros Hrect Hh. destruct m as [|m0 rest] eqn:Hm.
  { destruct Hrect as [Hlen _]. simpl in Hlen. lia. }
  destruct (rectangular_head _ m0 rest h w Hrect eq_refl) as [Hlen Hw].
  unfold rotateMatrixCW. rewrite Hlen, Hw. eexists. split; [done|].
  apply (rotateLoops_spec (λ y x, x) (λ y x, h - 1 - y)).
  - intros y x Hy Hx. lia.
  - intros y x y' x' Hy Hx Hy' Hx' H1 H2. lia.
Qed.

(** [rotateMatrixCCW]: entry [(y, x)] of [m] goes to entry [(w-1-x, y)]. *)
Lemma rotateMatrixCCW_entry (m : Matrix) (h w : nat) :
  rectangular m h w → 0 < h →
  ∃ r, rotateMatrixCCW m = Some r ∧ rectangular r w h
       ∧ ∀ y x, y < h → x < w → entry r (w - 1 - x) y = entry m y x.
Proof.
  intros Hrect Hh. destruct m as [|m0 rest] eqn:Hm.
  { destruct Hrect as [Hlen _]. simpl in Hlen. lia. }
  destruct (rectangular_head _ m0 rest h w Hrect eq_refl) as [Hlen Hw].
  unfold rotateMatrixCCW. rewrite Hlen, Hw. eexists. split; [done|].
  apply (rotateLoops_spec (λ y x, w - 1 - x) (λ y x, y)).
  - intros y x Hy Hx. lia.
  - intros y x y' x' Hy Hx Hy' Hx' H1 H2. lia.
Qed.




(** Counter-clockwise rotation undoes clockwise rotation, and the other
    way round. *)
Lemma rotateMatrixCCW_CW (m : Matrix) (h w : nat) :
  rectangular m h w → 0 < h → 0 < w →
  ∃ r, rotateMatrixCW m = Some r ∧ rotateMatrixCCW r = Some m.
Proof.
  intros Hrect Hh Hw.
  destruct (rotateMatrixCW_entry m h w Hrect Hh) as (r & Hr & Hrrect & Hent).
  exists r. split; [done|].
  destruct (rotateMatrixCCW_entry r w h Hrrect Hw) as (r2 & -> & Hr2 & Hent2).
  f_equal. apply (matrix_ext _ _ h w); [done..|].
  intros y x Hy Hx.
  rewrite <- (Hent y x) by done. rewrite <- (Hent2 x (h - 1 - y)) by lia.
  f_equal. lia.
Qed.

Lemma rotateMatrixCW_CCW (m : Matrix) (h w : nat) :
  rectangular m h w → 0 < h → 0 < w →
  ∃ r, rotateMatrixCCW m = Some r ∧ rotateMatrixCW r = Some m.
Proof.
  intros Hrect Hh Hw.
  destruct (rotateMatrixCCW_entry m h w Hrect Hh) as (r & Hr & Hrrect & Hent).
  exists r. split; [done|].
  destruct (rotateMatrixCW_entry r w h Hrrect Hw) as (r2 & -> & Hr2 & Hent2).
  f_equal. apply (matrix_ext _ _ h w); [done..|].
  intros y x Hy Hx.
  rewrite <- (Hent y x) by done. rewrite <- (Hent2 (w - 1 - x) y) by lia.
  f_equal. lia.
Qed.

(** ** Running actions *)

(** Unfold the monad and the setters, to run an action by rewriting. *)
Ltac act_unfold :=
  unfold mbind, Act_bind, mret, Act_ret, try, throw, random,
    setBoard, setActive, setQueue, setNextBag, setRunning, setScore, setLines,
    setLevel, setHold, setCanHold, modify.

Lemma bind_try {A B} (o : option A) (a : A) (f : A → Act B) rnd w :
  o = Some a → (try o ≫= f) rnd w = f a rnd w.
Proof. by intros ->. Qed.

Lemma flush_nothing rnd s n : flush rnd (mkPending s n []) = Some ((), mkPending s n []).
Proof. done. Qed.

(** An action that queues no updater commits to the state it leaves. *)
Lemma commit_plain rnd n (act : Act unit) s s' n' :
  act rnd (mkPending s n []) = Some ((), mkPending s' n' []) →
  commit rnd n act s = Some (s', n').
Proof.
  intros Hact. unfold commit, mbind, Act_bind. by rewrite Hact.
Qed.

(** The loop over the kick offsets adopts the first that fits. *)
Lemma tryKicks_spec (r : State) (a : Piece.t) (rotated : Matrix) (ks : list Z) rnd w :
  wfBoard (board r) →
  tryKicks r a rotated ks rnd w =
    Some ((), match find (fits (board r) a rotated) ks with
              | Some dx => mkPending (withActive (st w) (Some (moved a dx 0 rotated)))
                                     (calls w) (deferred w)
              | None => w
              end).
Proof.
  intros Hwf. induction ks as [|dx ks IH]; [done|]. cbn [tryKicks find].
  destruct (collides_total (board r) (moved a dx 0 rotated) Hwf) as [hit Hhit].
  rewrite (bind_try _ hit) by done.
  assert (fits (board r) a rotated dx = negb hit) as ->.
  { unfold fits. rewrite Hhit. destruct hit.
    - by apply bool_decide_eq_false_2.
    - by apply bool_decide_eq_true_2. }
  destruct hit; cbn [negb]; [apply IH|done].
Qed.

(** [rotate] on a grid of the game: the first kick offset that fits is
    adopted, and with none the state stays as it is. *)
Lemma rotate_spec rnd n (s : State) (a : Piece.t) rotFn (rotated : Matrix) :
  active s = Some a → rotFn (Piece.m a) = Some rotated → wfBoard (board s) →
  commit rnd n (rotate s rotFn) s =
    Some (match find (fits (board s) a rotated) kicks with
          | Some dx => withActive s (Some (moved a dx 0 rotated))
          | None => s
          end, n).
Proof.
  intros Ha Hrot Hwf. apply commit_plain.
  unfold rotate. rewrite Ha. rewrite (bind_try _ rotated) by done.
  rewrite tryKicks_spec by done.
  by destruct (find (fits (board s) a rotated) kicks).
Qed.


(** ** Spawning *)

Lemma spawnPiece_total (key : Kind) : ∃ piece, spawnPiece key = Some piece.
Proof. destruct key; by eexists. Qed.

Lemma shuffle_total (i : nat) (b : list Kind) rnd w :
  ∃ b', shuffle i b rnd w = Some (b', mkPending (st w) (i + calls w) (deferred w)).
Proof.
  revert b w. induction i as [|i IH]; intros b w.
  - exists b. by destruct w.
  - cbn [shuffle]. unfold mbind, Act_bind, random at 1.
    destruct (IH (swap b (S i) (floorRandom (rnd (calls w)) (S i)))
                 (mkPending (st w) (S (calls w)) (deferred w))) as [b' Hb'].
    exists b'. rewrite Hb'. simpl. do 3 f_equal. lia.
Qed.

Lemma bag_total rnd w :
  ∃ b, bag rnd w = Some (b, mkPending (st w) (6 + calls w) (deferred w)).
Proof. apply (shuffle_total 6). Qed.

(** What the updater of [spawn] does, given the state [r] of the render
    it was created in and the pending state [w] it runs on. *)
Lemma spawnUpdater_spec (r : State) (resetAcc : bool) rnd w key rest :
  queue r = key :: rest → wfBoard (board r) →
  ∃ piece hit q nb n',
    spawnPiece key = Some piece
    ∧ collides (board r) piece = Some hit
    ∧ q = (if bool_decide (length rest = 0) then nextBag r else rest)
    ∧ spawnUpdater r resetAcc rnd w =
        Some ((), mkPending
                    (mkState (board (st w)) (Some piece) q nb
                             (if hit then false else running (st w))
                             (score (st w)) (lines (st w)) (level (st w))
                             (hold (st w)) true)
                    n' (deferred w)).
Proof.
  intros Hq Hwf. destruct (spawnPiece_total key) as [piece Hpiece].
  destruct (collides_total (board r) piece Hwf) as [hit Hhit].
  unfold spawnUpdater. rewrite Hq. cbn [head tail].
  destruct (bool_decide (length rest = 0)).
  - destruct (bag_total rnd w) as [nb Hnb].
    exists piece, hit, (nextBag r), nb, (6 + calls w). do 3 (split; [done|]).
    act_unfold. rewrite Hnb. cbv beta iota. rewrite Hpiece. cbv beta iota.
    rewrite Hhit. by destruct hit.
  - exists piece, hit, rest, (nextBag (st w)), (calls w). do 3 (split; [done|]).
    act_unfold. cbv beta iota. rewrite Hpiece. cbv beta iota.
    rewrite Hhit. by destruct hit.
Qed.

(** ** Locking and scoring *)

Lemma scoreFor_points (lvl n : Z) : (0 <= n)%Z → scoreFor lvl n = (points n * lvl)%Z.
Proof.
  intros Hn. unfold scoreFor, points.
  destruct (n =? 1)%Z eqn:H1; [replace n with 1%Z by lia; done|].
  destruct (n =? 2)%Z eqn:H2; [replace n with 2%Z by lia; done|].
  destruct (n =? 3)%Z eqn:H3; [replace n with 3%Z by lia; done|].
  destruct (n =? 0)%Z eqn:H0; [replace n with 0%Z by lia; done|].
  destruct (n >=? 4)%Z eqn:H4.
  - assert ((4 <=? n)%Z = true) as -> by lia. done.
  - lia.
Qed.

Lemma clearLines_total (b : Board) :
  wfBoard b → ∃ cb cleared, clearLines b = Some (cb, cleared) ∧ (0 <= cleared)%Z.
Proof.
  intros Hwf. rewrite (clearLines_spec b Hwf). eexists _, _. split; [done|]. lia.
Qed.

(** The lock sequence on a grid of the game: the updates it queues. *)
Lemma lock_spec (r : State) (p : Piece.t) rnd w :
  wfBoard (board r) →
  ∃ merged cb cleared,
    mergePiece (board r) p = Some merged
    ∧ clearLines merged = Some (cb, cleared)
    ∧ (0 <= cleared)%Z
    ∧ lock r p rnd w =
        Some ((), mkPending
                    (mkState cb (active (st w)) (queue (st w)) (nextBag (st w))
                             (running (st w))
                             (score (st w) + scoreFor (level r) cleared)%Z
                             (lines (st w) + cleared)%Z
                             (if (cleared >? 0)%Z then (1 + (lines r + cleared) / 10)%Z
                              else level (st w))
                             (hold (st w)) (canHold (st w)))
                    (calls w) (deferred w ++ [(r, true)])).
Proof.
  intros Hwf. destruct (mergePiece_spec p (board r) Hwf) as (merged & Hm & Hwfm & _).
  destruct (clearLines_total merged Hwfm) as (cb & cleared & Hc & Hpos).
  exists merged, cb, cleared. do 3 (split; [done|]).
  unfold lock. rewrite (bind_try _ merged) by done.
  rewrite (bind_try _ (cb, cleared)) by done. cbn.
  destruct (cleared >? 0)%Z eqn:Hgt; cbn; [done|].
  assert (cleared = 0%Z) as -> by lia. cbn. by rewrite !Z.add_0_r.
Qed.

(** The loop of [hardDrop] ends: the floor stops a piece that has an
    occupied cell. *)
Lemma dropLoop_total (b : Board) (y x : nat) (fuel : nat) (p : Piece.t) (dist : Z) :
  wfBoard b → occupied (Piece.m p) y x →
  0 < fuel → (ROWS - (Piece.y p + Z.of_nat y) < Z.of_nat fuel)%Z →
  ∃ ghost d, dropLoop fuel b p dist = Some (ghost, d) ∧ (dist <= d)%Z.
Proof.
  intros Hwf. revert p dist. induction fuel as [|fuel IH]; intros p dist Hocc Hpos Hfuel.
  - lia.
  - cbn [dropLoop].
    destruct (collides_total b (moved p 0 1 (Piece.m p)) Hwf) as [[|] Hhit]; rewrite Hhit.
    + exists p, dist. split; [done|lia].
    + assert (Hlow : (Piece.y p + 1 + Z.of_nat y < ROWS)%Z).
      { destruct (Z.lt_ge_cases (Piece.y p + 1 + Z.of_nat y) ROWS) as [|Hge]; [done|].
        assert (collides b (moved p 0 1 (Piece.m p)) = Some true) as Htrue; [|congruence].
        apply collides_true_iff; [done|]. exists y, x. split; [done|].
        unfold hits. simpl. lia. }
      destruct (IH (moved p 0 1 (Piece.m p)) (dist + 1)%Z) as (ghost & d & Hd & Hle).
      * done.
      * lia.
      * simpl. lia.
      * exists ghost, d. split; [done|lia].
Qed.

Lemma progressed_intro (s s' : State) (gain cleared : Z) :
  (0 <= cleared)%Z →
  score s' = (score s + gain + scoreFor (level s) cleared)%Z →
  lines s' = (lines s + cleared)%Z →
  level s' = (if (cleared >? 0)%Z then (1 + (lines s + cleared) / 10)%Z else level s) →
  progressed s s' gain cleared.
Proof.
  intros Hpos Hscore Hlines Hlevel. unfold progressed.
  rewrite Hscore, Hlines, Hlevel, scoreFor_points by done. split; [done|]. split; [done|].
  destruct (cleared >? 0)%Z eqn:Hgt.
  - split; [done|]. split; [lia|done].
  - assert (cleared = 0%Z) as -> by lia. split; [lia|]. split; [done|].
    by rewrite Z.add_0_r.
Qed.

(** [stepDown] when the piece cannot move down. *)
Lemma stepDown_lock_spec rnd n (s : State) (a : Piece.t) key rest :
  active s = Some a → wfBoard (board s) → queue s = key :: rest →
  collides (board s) (moved a 0 1 (Piece.m a)) = Some true →
  ∃ merged cb cleared s' n',
    mergePiece (board s) a = Some merged
    ∧ clearLines merged = Some (cb, cleared)
    ∧ commit rnd n (stepDown s) s = Some (s', n')
    ∧ board s' = cb
    ∧ progressed s s' 0 cleared.
Proof.
  intros Ha Hwf Hq Hhit. unfold commit, stepDown. rewrite Ha.
  unfold mbind at 1, Act_bind at 1. rewrite (bind_try _ true) by done. cbn [negb].
  destruct (lock_spec s a rnd (mkPending s n []) Hwf)
    as (merged & cb & cleared & Hm & Hc & Hpos & ->).
  cbn [st calls deferred app]. unfold flush. cbn [deferred st calls runUpdaters].
  destruct (spawnUpdater_spec s true rnd
              (mkPending
                 (mkState cb (active s) (queue s) (nextBag s) (running s)
                    (score s + scoreFor (level s) cleared) (lines s + cleared)
                    (if (cleared >? 0)%Z then (1 + (lines s + cleared) / 10)%Z
                     else level s) (hold s) (canHold s)) n []) key rest Hq Hwf)
    as (piece & hit & q & nb & n' & _ & _ & _ & Hsp).
  unfold mbind, Act_bind. rewrite Hsp. cbn.
  eexists merged, cb, cleared, _, _. do 4 (split; [done|]).
  apply progressed_intro; cbn; [done|lia|done|done].
Qed.

(** [hardDrop] of a piece with an occupied cell. *)
Lemma hardDrop_spec rnd n (s : State) (a : Piece.t) key rest :
  active s = Some a → wfBoard (board s) → queue s = key :: rest →
  (∃ y x, occupied (Piece.m a) y x) →
  ∃ ghost dist merged cb cleared s' n',
    dropLoop (dropFuel a) (board s) a 0 = Some (ghost, dist)
    ∧ mergePiece (board s) ghost = Some merged
    ∧ clearLines merged = Some (cb, cleared)
    ∧ commit rnd n (hardDrop s) s = Some (s', n')
    ∧ board s' = cb
    ∧ progressed s s' (dist * 2) cleared.
Proof.
  intros Ha Hwf Hq (y & x & Hocc).
  destruct (dropLoop_total (board s) y x (dropFuel a) a 0 Hwf Hocc)
    as (ghost & dist & Hdrop & _).
  { unfold dropFuel. lia. }
  { unfold dropFuel. lia. }
  unfold commit, hardDrop. rewrite Ha.
  unfold mbind at 1, Act_bind at 1. rewrite (bind_try _ (ghost, dist)) by done.
  cbn [fst snd]. unfold mbind at 1 2, Act_bind at 1 2, setActive, setScore, modify.
  cbn [st calls deferred].
  destruct (lock_spec s ghost rnd
              (mkPending
                 (mkState (board s) (Some ghost) (queue s) (nextBag s) (running s)
                    (score s + dist * 2) (lines s) (level s) (hold s) (canHold s))
                 n []) Hwf)
    as (merged & cb & cleared & Hm & Hc & Hpos & Hlock).
  cbn [st calls deferred board active queue nextBag running score lines level hold
       canHold] in Hlock |- *.
  rewrite Hlock.
  cbn [app]. unfold flush. cbn [deferred st calls runUpdaters].
  destruct (spawnUpdater_spec s true rnd
              (mkPending
                 (mkState cb (Some ghost) (queue s) (nextBag s) (running s)
                    (score s + dist * 2 + scoreFor (level s) cleared) (lines s + cleared)
                    (if (cleared >? 0)%Z then (1 + (lines s + cleared) / 10)%Z
                     else level s) (hold s) (canHold s)) n []) key rest Hq Hwf)
    as (piece & hit & q & nb & n' & _ & _ & _ & Hsp).
  unfold mbind, Act_bind. rewrite Hsp. cbn.
  eexists ghost, dist, merged, cb, cleared, _, _. do 5 (split; [done|]).
  apply progressed_intro; cbn; done.
Qed.

(** X26.  A lock that is the only one of its render (a [stepDown] on a
    piece that cannot move down, or a [hardDrop], run once and committed)
    adds to the score the table value for the number [cleared] of rows
    cleared (100, 300, 500, 800 for 1, 2, 3, 4 or more, and 0 for none)
    times the level the game had before the lock, adds [cleared] to the
    lines, and sets the level to 1 + floor(lines / 10) for the new total
    of lines; [hardDrop] first adds twice the distance dropped.  Clearing
    2 rows at level 3 adds 900 and clearing no row adds 0. *)
Theorem single_lock_scoring rnd n s a key rest :
  active s = Some a → wfBoard (board s) → queue s = key :: rest →
  (∀ lvl c, (0 <= c)%Z → scoreFor lvl c = (points c * lvl)%Z)
  ∧ scoreFor 3 2 = 900%Z
  ∧ (∀ lvl, scoreFor lvl 0 = 0%Z)
  ∧ (collides (board s) (moved a 0 1 (Piece.m a)) = Some true →
     ∃ merged cb cleared s' n',
       mergePiece (board s) a = Some merged
       ∧ clearLines merged = Some (cb, cleared)
       ∧ commit rnd n (stepDown s) s = Some (s', n')
       ∧ score s' = (score s + points cleared * level s)%Z
       ∧ lines s' = (lines s + cleared)%Z
       ∧ ((0 < cleared)%Z → level s' = (1 + lines s' / 10)%Z)
       ∧ (cleared = 0%Z → level s' = level s)
       ∧ (level s = (1 + lines s / 10)%Z → level s' = (1 + lines s' / 10)%Z))
  ∧ ((∃ y x, occupied (Piece.m a) y x) →
     ∃ ghost dist merged cb cleared s' n',
       dropLoop (dropFuel a) (board s) a 0 = Some (ghost, dist)
       ∧ mergePiece (board s) ghost = Some merged
       ∧ clearLines merged = Some (cb, cleared)
       ∧ commit rnd n (hardDrop s) s = Some (s', n')
       ∧ score s' = (score s + dist * 2 + points cleared * level s)%Z
       ∧ lines s' = (lines s + cleared)%Z
       ∧ ((0 < cleared)%Z → level s' = (1 + lines s' / 10)%Z)
       ∧ (cleared = 0%Z → level s' = level s)
       ∧ (level s = (1 + lines s / 10)%Z → level s' = (1 + lines s' / 10)%Z)).
Proof.
  intros Ha Hwf Hq.
  split; [exact scoreFor_points|]. split; [done|]. split; [done|]. split.
  - intros Hhit.
    destruct (stepDown_lock_spec rnd n s a key rest Ha Hwf Hq Hhit)
      as (merged & cb & cleared & s' & n' & Hm & Hc & Hrun & _ & Hp).
    exists merged, cb, cleared, s', n'. do 3 (split; [done|]).
    unfold progressed in Hp. by rewrite Z.add_0_r in Hp.
  - intros Hocc.
    destruct (hardDrop_spec rnd n s a key rest Ha Hwf Hq Hocc)
      as (ghost & dist & merged & cb & cleared & s' & n' & Hd & Hm & Hc & Hrun & _ & Hp).
    by exists ghost, dist, merged, cb, cleared, s', n'.
Qed.


(** ** The randomizer *)

(** [Math.random()] returns a number in [0, 1), so the index [j] drawn in
    round [i] of the shuffle is at most [i]. *)
Lemma floorRandom_bounds (r : Q) (i : nat) :
  (0 <= r)%Q → (r < 1)%Q → floorRandom r i ≤ i.
Proof.
  intros H0 H1. unfold floorRandom.
  set (k := Z.of_nat (i + 1)).
  assert (Hk : (0 < inject_Z k)%Q).
  { change (inject_Z 0 < inject_Z k)%Q. rewrite <- Zlt_Qlt. lia. }
  assert (Hlt : (Qfloor (r * inject_Z k) < k)%Z).
  { rewrite Zlt_Qlt. eapply Qle_lt_trans; [apply Qfloor_le|].
    rewrite <- (Qmult_1_l (inject_Z k)) at 2. by apply Qmult_lt_compat_r. }
  lia.
Qed.

Lemma swap_Permutation (b : list Kind) (i j : nat) : swap b i j ≡ₚ b.
Proof.
  unfold swap. destruct (b !! i) as [bi|] eqn:Hi; [|done].
  destruct (b !! j) as [bj|] eqn:Hj; [|done].
  by apply Permutation_insert_swap.
Qed.

Lemma shuffle_Permutation (i : nat) (b b' : list Kind) rnd w w' :
  shuffle i b rnd w = Some (b', w') → b' ≡ₚ b.
Proof.
  revert b w. induction i as [|i IH]; intros b w.
  - by intros [= <- _].
  - cbn [shuffle]. act_unfold. intros Hrun. apply IH in Hrun.
    by rewrite Hrun, swap_Permutation.
Qed.

Lemma spawnPiece_kind (key : Kind) (piece : Piece.t) :
  spawnPiece key = Some piece → Piece.k piece = key.
Proof. destruct key; by intros [= <-]. Qed.

(** One draw: [spawn] makes the piece of the kind at the head of the
    queue active and leaves the rest of the queue, or the next bag when
    there is no rest; the grid and the progression stay as they are. *)
Lemma draw_spec rnd n (s : State) key rest :
  queue s = key :: rest → wfBoard (board s) →
  ∃ s' n' p, commit rnd n (spawn s false) s = Some (s', n')
             ∧ active s' = Some p ∧ spawnPiece key = Some p
             ∧ board s' = board s
             ∧ queue s' = (if bool_decide (length rest = 0) then nextBag s else rest)
             ∧ score s' = score s ∧ lines s' = lines s ∧ level s' = level s.
Proof.
  intros Hq Hwf. unfold commit, spawn. act_unfold. unfold flush.
  cbn [deferred st calls app runUpdaters].
  destruct (spawnUpdater_spec s false rnd (mkPending s n []) key rest Hq Hwf)
    as (piece & hit & q & nb & n' & Hpiece & _ & -> & Hsp).
  act_unfold. rewrite Hsp. eexists _, _, piece. split; [done|]. cbn. done.
Qed.

Lemma draws_queue rnd (ks : list Kind) key (s : State) n :
  queue s = key :: ks → wfBoard (board s) →
  ∃ sn', draws rnd (S (length ks)) (s, n) = Some (key :: ks, sn').
Proof.
  revert key s n. induction ks as [|k2 ks IH]; intros key s n Hq Hwf.
  - destruct (draw_spec rnd n s key [] Hq Hwf) as (s' & n' & p & Hc & Hp & Hk & _).
    apply spawnPiece_kind in Hk.
    cbn [length draws fst snd]. rewrite Hc. cbn [fst]. rewrite Hp, Hk. by eexists.
  - destruct (draw_spec rnd n s key (k2 :: ks) Hq Hwf)
      as (s' & n' & p & Hc & Hp & Hk & Hb & Hq' & _).
    apply spawnPiece_kind in Hk.
    rewrite bool_decide_eq_false_2 in Hq' by done.
    destruct (IH k2 s' n' Hq') as [sn' Hd]; [by rewrite Hb|].
    cbn [draws fst snd]. rewrite Hc. cbn [fst]. rewrite Hp, Hk.
    change (length (k2 :: ks)) with (S (length ks)). rewrite Hd. by eexists.
Qed.

(** C8.  With [Math.random()] in [0, 1) every index the shuffle draws is
    inside the array, and [bag] returns a permutation of the seven kinds
    in which each kind occurs exactly once; seven draws from a queue that
    is such a bag make pieces of exactly its kinds, in its order. *)
Theorem C8_bag_is_permutation rnd w :
  (∀ k, (0 <= rnd k)%Q ∧ (rnd k < 1)%Q) →
  (∀ k i, floorRandom (rnd k) i ≤ i)
  ∧ ∃ b w', bag rnd w = Some (b, w')
            ∧ b ≡ₚ ORDER ∧ NoDup b ∧ length b = 7
            ∧ (∀ kind, length (filter (λ x, x = kind) b) = 1)
            ∧ (∀ s n, queue s = b → wfBoard (board s) →
                 ∃ sn', draws rnd 7 (s, n) = Some (b, sn')).
Proof.
  intros Hrnd. split.
  { intros k i. apply floorRandom_bounds; apply Hrnd. }
  destruct (bag_total rnd w) as [b Hb]. eexists b, _. split; [exact Hb|].
  assert (Hperm : b ≡ₚ ORDER) by (by eapply shuffle_Permutation).
  assert (Hlen : length b = 7) by (by rewrite Hperm).
  split; [done|]. split.
  { rewrite Hperm. apply (bool_decide_unpack _). by vm_compute. }
  split; [done|]. split.
  { intros kind. rewrite Hperm. by destruct kind. }
  intros s n Hq Hwf. destruct b as [|key ks]; [done|].
  destruct (draws_queue rnd ks key s n Hq Hwf) as [sn' Hd].
  exists sn'. simpl in Hlen. by replace 7 with (S (length ks)) by lia.
Qed.

(** ** The vertical I at the right wall *)

Lemma wfBoard_emptyBoard : wfBoard (emptyBoard ROWS COLS).
Proof.
  split; [apply length_replicate|]. apply Forall_replicate, length_replicate.
Qed.

Lemma emptyBoard_not_filled (ny nx : Z) : ¬ filledAt (emptyBoard ROWS COLS) ny nx.
Proof.
  intros (row & c & Hrow & Hc & Hfill). unfold emptyBoard in Hrow.
  apply lookup_replicate in Hrow as [-> _].
  apply lookup_replicate in Hc as [-> _]. done.
Qed.

Lemma collides_false_iff (b : Board) (p : Piece.t) :
  wfBoard b →
  collides b p = Some false ↔ ∀ y x, occupied (Piece.m p) y x → ¬ hits b p y x.
Proof.
  intros Hwf. pose proof (collides_true_iff b p Hwf) as Htrue.
  destruct (collides_total b p Hwf) as [[|] Hv]; rewrite Hv; split; try done.
  - intros Hno. destruct Htrue as [Htrue _].
    destruct (Htrue Hv) as (y & x & Hocc & Hh). by destruct (Hno y x).
  - intros _ y x Hocc Hh. assert (Some false = Some true); [|done].
    rewrite <- Hv. apply Htrue. by exists y, x.
Qed.

Lemma occupied_horizontalI (y x : nat) :
  occupied [[1; 1; 1; 1]] y x ↔ y = 0 ∧ x < 4.
Proof.
  unfold occupied. split.
  - intros (row & v & Hy & Hx & _). destruct y as [|y]; [|by destruct y].
    injection Hy as <-. split; [done|]. by eapply lookup_lt_Some in Hx.
  - intros [-> Hx]. exists [1; 1; 1; 1], 1. split; [done|].
    do 4 (destruct x as [|x]; [done|]). lia.
Qed.

(** The horizontal I does not fit where its last cell is past the wall. *)
Lemma horizontalI_past_wall (b : Board) (a : Piece.t) (dx : Z) :
  wfBoard b → (COLS <= Piece.x a + dx + 3)%Z → fits b a [[1; 1; 1; 1]] dx = false.
Proof.
  intros Hwf Hx. unfold fits. apply bool_decide_eq_false_2.
  assert (collides b (moved a dx 0 [[1; 1; 1; 1]]) = Some true) as ->; [|done].
  apply collides_true_iff; [done|]. exists 0, 3. split.
  - cbn [moved Piece.m]. apply occupied_horizontalI. lia.
  - unfold hits. simpl. lia.
Qed.

(** On the empty grid it fits where all its cells are inside. *)
Lemma horizontalI_inside (a : Piece.t) (dx : Z) :
  (0 <= Piece.x a + dx)%Z → (Piece.x a + dx + 3 < COLS)%Z → (Piece.y a < ROWS)%Z →
  fits (emptyBoard ROWS COLS) a [[1; 1; 1; 1]] dx = true.
Proof.
  intros Hx0 Hx1 Hy. unfold fits. apply bool_decide_eq_true_2.
  apply collides_false_iff; [apply wfBoard_emptyBoard|].
  cbn [moved Piece.m]. intros y x [-> Hlt]%occupied_horizontalI Hh.
  unfold hits in Hh. simpl in Hh.
  destruct Hh as [?|[?|[?|[_ Hf]]]]; [lia..|]. by apply emptyBoard_not_filled in Hf.
Qed.

(** C6.  A clockwise rotation of a vertical I-piece tries the offsets of
    the kick order 0, -1, +1, -2, +2 and takes the first at which the
    horizontal I fits; when none fits, matrix and position stay as they
    were.  Flush against the right wall (column 9) none fits, whatever
    the grid holds: the horizontal I would have to move 3 columns to the
    left and the offsets reach 2, so the rotation leaves matrix and
    position unchanged.  On the empty grid a vertical I in column 8 is
    moved 2 columns to the left and one in column 7 is moved 1, in both
    cases to column 6, by exactly enough columns for the horizontal I to
    fit. *)
Theorem C6_vertical_I_at_right_wall rnd n (s : State) (a : Piece.t) :
  active s = Some a → Piece.m a = verticalI → wfBoard (board s) →
  (Piece.x a = 9%Z →
   Forall (λ dx, fits (board s) a [[1; 1; 1; 1]] dx = false) kicks
   ∧ commit rnd n (rotateCW s) s = Some (s, n))
  ∧ (board s = emptyBoard ROWS COLS → (Piece.y a < ROWS)%Z →
     Piece.x a = 8%Z ∨ Piece.x a = 7%Z →
     commit rnd n (rotateCW s) s =
       Some (withActive s
               (Some (Piece.mk 6 (Piece.y a) [[1; 1; 1; 1]] (Piece.c a) (Piece.k a))),
             n)).
Proof.
  intros Ha Hm Hwf.
  assert (Hrot : rotateMatrixCW (Piece.m a) = Some [[1; 1; 1; 1]]) by (by rewrite Hm).
  unfold rotateCW. rewrite (rotate_spec rnd n s a rotateMatrixCW _ Ha Hrot Hwf).
  unfold kicks. split.
  - intros Hx. split.
    + repeat constructor;
        apply horizontalI_past_wall; (done || (rewrite Hx; unfold COLS; lia)).
    + cbn [find].
      rewrite !horizontalI_past_wall by (done || (rewrite Hx; unfold COLS; lia)). done.
  - intros Hb Hy [Hx|Hx]; rewrite Hb in *; cbn [find].
    + rewrite !horizontalI_past_wall by (done || (rewrite Hx; unfold COLS; lia)).
      rewrite horizontalI_inside by (done || (rewrite Hx; unfold COLS; lia)).
      unfold moved. rewrite Hx, Z.add_0_r. done.
    + rewrite horizontalI_past_wall by (done || (rewrite Hx; unfold COLS; lia)).
      rewrite horizontalI_inside by (done || (rewrite Hx; unfold COLS; lia)).
      unfold moved. rewrite Hx, Z.add_0_r. done.
Qed.

(** The same in a session: spawn the I, turn it upright, move it to the
    right wall of the empty grid and rotate it clockwise.  The piece is in
    column 9 and upright before the rotation, no offset fits, and it is in
    column 9 and upright after it. *)
Lemma vertical_I_session_at_right_wall :
  ∃ s n a,
    play lateEntropy (Mount :: Key ArrowUp :: repeat (Key ArrowRight) 6) = Some (s, n)
    ∧ board s = emptyBoard ROWS COLS
    ∧ active s = Some a ∧ Piece.k a = kI ∧ Piece.m a = verticalI ∧ Piece.x a = 9%Z
    ∧ play lateEntropy (Mount :: Key ArrowUp :: repeat (Key ArrowRight) 6 ++ [Key ArrowUp])
      = Some (s, n).
Proof.
  eexists _, _, _.
  repeat (split; [vm_compute; reflexivity|]). vm_compute. reflexivity.
Qed.

(** ** The O-piece dropped on the empty grid *)

(** C7 (amended).  On the empty grid [spawn] puts the O-piece at columns 4
    and 5, rows 0 and 1 (the centred spawn position), and a hard drop with
    no horizontal move in between leaves its four cells in rows 18 and 19
    of columns 4 and 5, the bottom centre of the grid; no line is cleared,
    and the score grows by twice the 18 rows dropped. *)
Theorem C7_O_piece_lands_bottom_centre rnd n (s : State) k2 rest :
  board s = emptyBoard ROWS COLS → queue s = kO :: k2 :: rest →
  ∃ s1 n1 s2 n2,
    commit rnd n (spawn s false) s = Some (s1, n1)
    ∧ active s1 = Some (Piece.mk 4 0 [[1; 1]; [1; 1]] "#F7D154" kO)
    ∧ board s1 = emptyBoard ROWS COLS
    ∧ commit rnd n1 (hardDrop s1) s1 = Some (s2, n2)
    ∧ board s2 = boardO
    ∧ lines s2 = lines s
    ∧ score s2 = (score s + 36)%Z.
Proof.
  intros Hb Hq.
  assert (Hwf : wfBoard (board s)) by (rewrite Hb; apply wfBoard_emptyBoard).
  destruct (draw_spec rnd n s kO (k2 :: rest) Hq Hwf)
    as (s1 & n1 & p & Hspawn & Hp & Hpiece & Hb1 & Hq1 & Hscore1 & Hlines1 & Hlevel1).
  rewrite bool_decide_eq_false_2 in Hq1 by done.
  injection Hpiece as <-. rewrite Hb in Hb1.
  assert (Hwf1 : wfBoard (board s1)) by (rewrite Hb1; apply wfBoard_emptyBoard).
  destruct (hardDrop_spec rnd n1 s1 _ k2 rest Hp Hwf1 Hq1)
    as (ghost & dist & merged & cb & cleared & s2 & n2
        & Hdrop & Hmerge & Hclear & Hhard & Hb2 & Hprog).
  { exists 0, 0. by exists [1; 1], 1. }
  rewrite Hb1 in Hdrop, Hmerge.
  vm_compute in Hdrop. injection Hdrop as <- <-.
  vm_compute in Hmerge. injection Hmerge as <-.
  vm_compute in Hclear. injection Hclear as <- <-.
  exists s1, n1, s2, n2. do 4 (split; [done|]). split; [by rewrite Hb2|].
  destruct Hprog as (Hscore2 & Hlines2 & _).
  split; [lia|]. change (points 0) with 0%Z in Hscore2. lia.
Qed.

(** C7, the claim as written fails: in the session that starts with an
    O-piece on the empty grid and hard-drops it at once, the bottom-left
    2 by 2 cells of the grid stay empty, and the piece fills rows 18 and
    19 of columns 4 and 5. *)
Lemma C7_bottom_left_stays_empty :
  ∃ s1 n1 s2 n2 p,
    play noEntropy [Mount] = Some (s1, n1)
    ∧ board s1 = emptyBoard ROWS COLS
    ∧ active s1 = Some p ∧ Piece.k p = kO
    ∧ play noEntropy [Mount; Key Space] = Some (s2, n2)
    ∧ lines s2 = 0%Z
    ∧ cellAt (board s2) 18 0 = Some None ∧ cellAt (board s2) 18 1 = Some None
    ∧ cellAt (board s2) 19 0 = Some None ∧ cellAt (board s2) 19 1 = Some None
    ∧ cellAt (board s2) 18 4 = Some (Some "#F7D154")
    ∧ cellAt (board s2) 18 5 = Some (Some "#F7D154")
    ∧ cellAt (board s2) 19 4 = Some (Some "#F7D154")
    ∧ cellAt (board s2) 19 5 = Some (Some "#F7D154").
Proof.
  eexists _, _, _, _, _.
  repeat (split; [vm_compute; reflexivity|]). vm_compute. reflexivity.
Qed.

(** ** Game over and the pause key *)

(** C5 fails on the code.  Hard-dropping every piece where it spawns fills
    the middle columns; the piece spawned after the eleventh drop collides
    with the grid, and [spawn] sets [running] to false: the game is over.
    [spawn] nevertheless makes that piece active, so the guard
    [if (!active) return] of the key handler lets the pause key through:
    pressing P sets [running] back to true, the pause button does the
    same, and the game goes on: the next tick locks the piece and spawns
    the next one. *)
Theorem C5_pause_resumes_after_game_over :
  ∃ s10 n10 s11 n11 p s12 n12 s13 n13 p',
    play noEntropy (Mount :: repeat (Key Space) 10) = Some (s10, n10)
    ∧ running s10 = true
    ∧ play noEntropy (Mount :: repeat (Key Space) 11) = Some (s11, n11)
    ∧ active s11 = Some p ∧ Piece.k p = kJ
    ∧ collides (board s10) p = Some true
    ∧ running s11 = false
    ∧ play noEntropy (Mount :: repeat (Key Space) 11 ++ [Key KeyP]) = Some (s12, n12)
    ∧ running s12 = true
    ∧ play noEntropy (Mount :: repeat (Key Space) 11 ++ [Click BtnPause]) = Some (s12, n12)
    ∧ play noEntropy (Mount :: repeat (Key Space) 11 ++ [Key KeyP; Frame 1])
      = Some (s13, n13)
    ∧ active s13 = Some p' ∧ Piece.k p' = kL.
Proof.
  eexists _, _, _, _, _, _, _, _, _, _.
  repeat (split; [vm_compute; reflexivity|]). vm_compute. reflexivity.
Qed.

(** ** Hold *)

Create HintDb keeps.

Lemma keeps_ret {A} (a : A) : keeps (mret a).
Proof. intros rnd w a' w' [= <- <-]. done. Qed.

Lemma keeps_bind {A B} (act : Act A) (f : A → Act B) :
  keeps act → (∀ a, keeps (f a)) → keeps (act ≫= f).
Proof.
  intros Hact Hf rnd w b w'. unfold mbind, Act_bind.
  destruct (act rnd w) as [[a w1]|] eqn:Hrun; [|done]. intros Hrun'.
  destruct (Hact _ _ _ _ Hrun) as (H1 & H2 & H3).
  destruct (Hf a _ _ _ _ Hrun') as (H1' & H2' & H3').
  split; [tauto|]. split; [congruence|tauto].
Qed.

Lemma keeps_try {A} (o : option A) : keeps (try o).
Proof. intros rnd w a w'. unfold try. destruct o; [|done]. by intros [= <- <-]. Qed.

Lemma keeps_random : keeps random.
Proof. intros rnd w a w' [= <- <-]. done. Qed.

Lemma keeps_spawn (r : State) (resetAcc : bool) : keeps (spawn r resetAcc).
Proof.
  intros rnd w a w' [= <- <-]. cbn. split; [done|]. split; [done|].
  intros _. by destruct (deferred w).
Qed.

Lemma keeps_setBoard f : keeps (setBoard f).
Proof. intros rnd w a w' [= <- <-]. done. Qed.
Lemma keeps_setQueue f : keeps (setQueue f).
Proof. intros rnd w a w' [= <- <-]. done. Qed.
Lemma keeps_setNextBag f : keeps (setNextBag f).
Proof. intros rnd w a w' [= <- <-]. done. Qed.
Lemma keeps_setRunning f : keeps (setRunning f).
Proof. intros rnd w a w' [= <- <-]. done. Qed.
Lemma keeps_setScore f : keeps (setScore f).
Proof. intros rnd w a w' [= <- <-]. done. Qed.
Lemma keeps_setLines f : keeps (setLines f).
Proof. intros rnd w a w' [= <- <-]. done. Qed.
Lemma keeps_setLevel f : keeps (setLevel f).
Proof. intros rnd w a w' [= <- <-]. done. Qed.
Lemma keeps_setCanHold f : keeps (setCanHold f).
Proof. intros rnd w a w' [= <- <-]. done. Qed.
Lemma keeps_setActive_Some (p : Piece.t) : keeps (setActive (λ _, Some p)).
Proof. intros rnd w a w' [= <- <-]. done. Qed.

#[local] Hint Resolve keeps_ret keeps_try keeps_random keeps_spawn keeps_setBoard
  keeps_setQueue keeps_setNextBag keeps_setRunning keeps_setScore keeps_setLines
  keeps_setLevel keeps_setCanHold keeps_setActive_Some : keeps.

(** Prove [keeps] for an action built from the primitives with [≫=],
    [match] and [if]. *)
Local Ltac keeps_step :=
  lazymatch goal with
  | |- keeps (_ ≫= _) => apply keeps_bind; [|intros ?]
  | |- keeps (match ?x with _ => _ end) => destruct x
  | |- keeps (if ?b then _ else _) => destruct b
  | |- keeps (reset _) => fail
  | |- keeps (doHold _) => fail
  | |- keeps _ => solve [auto with keeps]
  end.
Local Ltac keeps_tac := solve [repeat keeps_step].

Lemma keeps_shuffle (i : nat) (b : list Kind) : keeps (shuffle i b).
Proof. revert b. induction i as [|i IH]; intros b; cbn [shuffle]; keeps_tac. Qed.

Lemma keeps_bag : keeps bag.
Proof. apply keeps_shuffle. Qed.

#[local] Hint Resolve keeps_bag : keeps.

Lemma keeps_lock (r : State) (p : Piece.t) : keeps (lock r p).
Proof. unfold lock. keeps_tac. Qed.

#[local] Hint Resolve keeps_lock : keeps.

Lemma keeps_stepDown (r : State) : keeps (stepDown r).
Proof. unfold stepDown. keeps_tac. Qed.

Lemma keeps_softDrop (r : State) : keeps (softDrop r).
Proof. unfold softDrop. keeps_tac. Qed.

Lemma keeps_hardDrop (r : State) : keeps (hardDrop r).
Proof. unfold hardDrop. keeps_tac. Qed.

Lemma keeps_tryKicks (r : State) (a : Piece.t) (rotated : Matrix) (ks : list Z) :
  keeps (tryKicks r a rotated ks).
Proof. induction ks as [|dx ks IH]; cbn [tryKicks]; keeps_tac. Qed.

#[local] Hint Resolve keeps_stepDown keeps_softDrop keeps_hardDrop keeps_tryKicks : keeps.

Lemma keeps_rotate (r : State) rotFn : keeps (rotate r rotFn).
Proof. unfold rotate. keeps_tac. Qed.

Lemma keeps_tryMove (r : State) (dx dy : Z) (m : Matrix) : keeps (tryMove r dx dy m).
Proof. unfold tryMove. keeps_tac. Qed.

Lemma keeps_ticks (r : State) (n : nat) : keeps (ticks r n).
Proof. induction n as [|n IH]; cbn [ticks]; keeps_tac. Qed.

#[local] Hint Resolve keeps_rotate keeps_tryMove keeps_ticks : keeps.

Lemma keeps_pendingOk {A} (act : Act A) rnd w a w' :
  keeps act → act rnd w = Some (a, w') → pendingOk w → pendingOk w'.
Proof.
  intros Hk Hrun Hok. destruct (Hk _ _ _ _ Hrun) as (H1 & H2 & H3).
  unfold pendingOk in *. rewrite H2. tauto.
Qed.

Lemma activates_bind {A B} (act : Act A) (f : A → Act B) :
  (∀ a, activates (f a)) → activates (act ≫= f).
Proof.
  intros Hf rnd w b w'. unfold mbind, Act_bind.
  destruct (act rnd w) as [[a w1]|]; [|done]. apply Hf.
Qed.

Lemma activates_setActive_Some (p : Piece.t) : activates (setActive (λ _, Some p)).
Proof. intros rnd w a w' [= <- <-]. done. Qed.

Lemma keeps_spawnUpdater (r : State) (resetAcc : bool) : keeps (spawnUpdater r resetAcc).
Proof. unfold spawnUpdater. keeps_tac. Qed.

Lemma activates_spawnUpdater (r : State) (resetAcc : bool) :
  activates (spawnUpdater r resetAcc).
Proof.
  unfold spawnUpdater. repeat (apply activates_bind; intros ?).
  apply activates_setActive_Some.
Qed.

(** Running the queued updaters keeps the hold slot and, when there is
    one, ends with an active piece. *)
Lemma runUpdaters_spec (us : list (State * bool)) rnd w a w' :
  runUpdaters us rnd w = Some (a, w') →
  hold (st w') = hold (st w)
  ∧ (active (st w) ≠ None ∨ us ≠ [] → active (st w') ≠ None).
Proof.
  revert w. induction us as [|[r resetAcc] us IH]; intros w; cbn [runUpdaters].
  - intros [= <- <-]. split; [done|]. by intros [?|?].
  - unfold mbind, Act_bind.
    destruct (spawnUpdater r resetAcc rnd w) as [[[] w1]|] eqn:Hsp; [|done].
    intros Hrest. destruct (IH _ Hrest) as [Hh Ha].
    destruct (keeps_spawnUpdater r resetAcc _ _ _ _ Hsp) as (_ & Hh1 & _).
    pose proof (activates_spawnUpdater r resetAcc _ _ _ _ Hsp) as Ha1.
    split; [congruence|]. intros _. apply Ha. by left.
Qed.

Lemma flush_spec rnd w a w' :
  pendingOk w → flush rnd w = Some (a, w') → heldImpliesActive (st w').
Proof.
  unfold flush. intros Hok Hrun.
  destruct (runUpdaters_spec _ _ _ _ _ Hrun) as [Hh Ha]. cbn [st] in *.
  intros Hheld. rewrite Hh in Hheld. apply Ha.
  destruct Hok as [?|[?|?]]; [by left|done|by right].
Qed.

Lemma doHold_pendingOk (r : State) rnd w a w' :
  doHold r rnd w = Some (a, w') → pendingOk w → pendingOk w'.
Proof.
  unfold doHold. destruct (active r) as [p|]; [|by intros [= <- <-]].
  destruct (canHold r); cbn [negb]; [|by intros [= <- <-]].
  destruct (hold r) as [newK|]; unfold spawn; act_unfold.
  - destruct (spawnPiece newK); [|done]. intros [= <- <-] _. by left.
  - intros [= <- <-] _. right; right. cbn. by destruct (deferred w).
Qed.

Lemma clearsHold_bind {A B} (act : Act A) (f : A → Act B) :
  (∀ a, clearsHold (f a)) → clearsHold (act ≫= f).
Proof.
  intros Hf rnd w b w'. unfold mbind, Act_bind.
  destruct (act rnd w) as [[a w1]|]; [|done]. apply Hf.
Qed.

Lemma clearsHold_setHold_None {B} (f : () → Act B) :
  (∀ a, keeps (f a)) → clearsHold (setHold (λ _, None) ≫= f).
Proof.
  intros Hf rnd w b w'. unfold mbind, Act_bind, setHold, modify. intros Hrun.
  destruct (Hf _ _ _ _ _ Hrun) as (_ & -> & _). done.
Qed.

Lemma reset_pendingOk (r0 : State) rnd w a w' :
  reset r0 rnd w = Some (a, w') → pendingOk w'.
Proof.
  assert (Hclears : clearsHold (reset r0)).
  { unfold reset. do 9 (apply clearsHold_bind; intros ?).
    apply clearsHold_setHold_None. intros ?. keeps_tac. }
  intros Hrun. right; left. by eapply Hclears.
Qed.

(** Every handler leaves a pending state in which a held kind comes with
    an active piece or a queued [spawn]. *)
Lemma handler_pendingOk (r0 r : State) (ev : Event) rnd w a w' :
  handler r0 r ev rnd w = Some (a, w') → pendingOk w → pendingOk w'.
Proof.
  assert (Hkeeps : ∀ act : Act unit,
            keeps act → act rnd w = Some (a, w') → pendingOk w → pendingOk w').
  { intros act Hk Hrun. by eapply keeps_pendingOk. }
  destruct ev as [|code|g|n|b| |]; cbn [handler].
  - apply Hkeeps. keeps_tac.
  - unfold onKey. destruct (active r) as [p|]; [|apply Hkeeps; keeps_tac].
    destruct code;
      lazymatch goal with
      | |- reset _ _ _ = _ → _ => intros Hrun _; by eapply reset_pendingOk
      | |- (if _ then _ else doHold _) _ _ = _ → _ =>
          destruct (running r); cbn [negb];
          [apply doHold_pendingOk | apply Hkeeps; keeps_tac]
      | |- _ => apply Hkeeps; unfold rotateCW, rotateCCW; keeps_tac
      end.
  - apply Hkeeps. unfold onCanvasTouchEnd, rotateCW. keeps_tac.
  - apply Hkeeps. unfold loop. keeps_tac.
  - unfold onButton. destruct b;
      lazymatch goal with
      | |- reset _ _ _ = _ → _ => intros Hrun _; by eapply reset_pendingOk
      | |- doHold _ _ _ = _ → _ => apply doHold_pendingOk
      | |- _ => apply Hkeeps; unfold rotateCW, rotateCCW; keeps_tac
      end.
  - apply Hkeeps. keeps_tac.
  - apply Hkeeps. keeps_tac.
Qed.

(** One function run, of any render [r], keeps the invariant. *)
Lemma commit_heldImpliesActive rnd (r0 r : State) (ev : Event) (s : State) n sn' :
  commit rnd n (handler r0 r ev) s = Some sn' →
  heldImpliesActive s → heldImpliesActive sn'.1.
Proof.
  unfold commit, mbind, Act_bind.
  destruct (handler r0 r ev rnd (mkPending s n [])) as [[[] w1]|] eqn:Hh; [|done].
  destruct (flush rnd w1) as [[[] w2]|] eqn:Hf; [|done].
  intros [= <-] Hinv. cbn [fst]. eapply flush_spec; [|exact Hf].
  eapply handler_pendingOk; [exact Hh|].
  unfold pendingOk. cbn [st deferred].
  destruct (hold s) eqn:Hhold; [left; apply Hinv; congruence | by right; left].
Qed.

(** ** Sessions *)

(** An event of a session is a function of some render, run on the
    current state. *)
Lemma stepT_commit rnd (r0 : State) (ev : Event) (s : State) (n : nat) t snt' :
  stepT rnd r0 ev (s, n, t) = Some snt' →
  commit rnd n (handler r0 (runs s ev t).1 (runs s ev t).2) s = Some snt'.1
  ∧ snt'.2 = timerAfter s ev t.
Proof.
  unfold stepT. cbn [fst snd].
  destruct (commit rnd n _ s) as [sn'|]; [|done]. by intros [= <-].
Qed.

(** A property of the state that every function run keeps holds
    throughout a session. *)
Lemma steps_invariant (P : State → Prop) rnd (r0 : State) :
  (∀ r ev s n sn', commit rnd n (handler r0 r ev) s = Some sn' → P s → P sn'.1) →
  ∀ evs snt snt', steps rnd r0 evs snt = Some snt' → P snt.1.1 → P snt'.1.1.
Proof.
  intros Hstep evs. induction evs as [|ev evs IH]; intros snt snt'; cbn [steps].
  - by intros [= <-].
  - destruct (stepT rnd r0 ev snt) as [snt1|] eqn:HstepT; [|done].
    intros Hrest Hinv. apply (IH snt1 _ Hrest).
    destruct snt as [[s n] t]. apply stepT_commit in HstepT as [Hc _].
    by eapply Hstep.
Qed.

Lemma play_steps rnd (evs : list Event) (s : State) (n : nat) :
  play rnd evs = Some (s, n) →
  ∃ r0 n0 t, firstRender rnd = Some (r0, n0)
             ∧ steps rnd r0 evs (r0, n0, None) = Some (s, n, t).
Proof.
  unfold play. destruct (firstRender rnd) as [[r0 n0]|]; [|done].
  destruct (steps rnd r0 evs (r0, n0, None)) as [[sn t]|] eqn:Hsteps; [|done].
  cbn [fmap option_fmap option_map fst]. intros Heq. injection Heq as ->.
  by exists r0, n0, t.
Qed.

Lemma steps_heldImpliesActive rnd (r0 : State) (evs : list Event) snt snt' :
  steps rnd r0 evs snt = Some snt' →
  heldImpliesActive snt.1.1 → heldImpliesActive snt'.1.1.
Proof.
  apply (steps_invariant heldImpliesActive). intros r ev s n sn'.
  apply commit_heldImpliesActive.
Qed.

(** In every state of a session a held kind comes with an active piece. *)
Lemma play_heldImpliesActive rnd (evs : list Event) (s : State) (n : nat) :
  play rnd evs = Some (s, n) → heldImpliesActive s.
Proof.
  intros (r0 & n0 & t & Hfirst & Hsteps)%play_steps.
  apply (steps_heldImpliesActive _ _ _ _ _ Hsteps). cbn [fst].
  revert Hfirst. unfold firstRender, initial. act_unfold.
  repeat match goal with
         | |- context [bag rnd ?X] =>
             let b := fresh "b" in let Hb := fresh "Hb" in
             destruct (bag_total rnd X) as [b Hb]; rewrite Hb; cbn [st calls deferred]
         end.
  intros [= <- _] Hheld. done.
Qed.

(** The swap branch of [doHold]: no test, no queued updater. *)
Lemma doHold_swap_spec rnd n (s : State) (k : Kind) (a : Piece.t) :
  hold s = Some k → canHold s = true → active s = Some a →
  ∃ piece, spawnPiece k = Some piece
           ∧ commit rnd n (doHold s) s = Some (swapped s a piece, n).
Proof.
  intros Hh Hc Ha. destruct (spawnPiece_total k) as [piece Hpiece].
  exists piece. split; [done|]. apply commit_plain.
  unfold doHold. rewrite Ha, Hc, Hh. cbn [negb]. act_unfold. by rewrite Hpiece.
Qed.

(** C10.  In every state of a session in which a kind is held and the
    hold lock is not set there is an active piece, and [doHold] succeeds:
    it puts the held kind into play with its spawn matrix and its colour,
    at its centred spawn position (in row 0, with floor((COLS - width) / 2)
    columns to its left, so that the margins on its two sides differ by at
    most one column), stores the kind of the piece that was active, sets
    the lock, and changes nothing else; in particular [running] stays as
    it was, for there is no collision test.  The piece swapped in can
    overlap filled cells: after holding the first piece and dropping ten
    pieces where they spawn, the swap puts the O-piece at column 4, row 0,
    on a filled cell, and the game is still running. *)
Theorem C10_hold_swap_has_no_collision_test :
  (∀ rnd evs s n k,
     play rnd evs = Some (s, n) → hold s = Some k → canHold s = true →
     ∃ a piece,
       active s = Some a
       ∧ spawnPiece k = Some piece
       ∧ Piece.m piece = shape_m (TETROMINOES k)
       ∧ Piece.c piece = shape_c (TETROMINOES k)
       ∧ Piece.k piece = k
       ∧ Piece.x piece = ((COLS - matrixWidth (Piece.m piece)) / 2)%Z
       ∧ (0 <= COLS - matrixWidth (Piece.m piece) - 2 * Piece.x piece <= 1)%Z
       ∧ Piece.y piece = (- Z.of_nat (getTopOffset (Piece.m piece)))%Z
       ∧ Piece.y piece = 0%Z
       ∧ commit rnd n (doHold s) s = Some (swapped s a piece, n)
       ∧ running (swapped s a piece) = running s
       ∧ board (swapped s a piece) = board s)
  ∧ (∃ s n a piece,
       play noEntropy stackToTop = Some (s, n)
       ∧ hold s = Some kO ∧ canHold s = true ∧ running s = true
       ∧ active s = Some a
       ∧ commit noEntropy n (doHold s) s = Some (swapped s a piece, n)
       ∧ Piece.k piece = kO ∧ Piece.x piece = 4%Z ∧ Piece.y piece = 0%Z
       ∧ collides (board s) piece = Some true
       ∧ running (swapped s a piece) = true).
Proof.
  split.
  - intros rnd evs s n k Hplay Hh Hc.
    pose proof (play_heldImpliesActive rnd evs s n Hplay) as Hinv.
    destruct (active s) as [a|] eqn:Ha; [|exfalso; apply Hinv; congruence].
    destruct (doHold_swap_spec rnd n s k a Hh Hc Ha) as (piece & Hpiece & Hrun).
    exists a, piece. split; [done|]. split; [done|].
    assert (Hshape : Piece.m piece = shape_m (TETROMINOES k)
                     ∧ Piece.c piece = shape_c (TETROMINOES k)
                     ∧ Piece.k piece = k
                     ∧ Piece.x piece = ((COLS - matrixWidth (Piece.m piece)) / 2)%Z
                     ∧ (0 <= COLS - matrixWidth (Piece.m piece) - 2 * Piece.x piece <= 1)%Z
                     ∧ Piece.y piece = (- Z.of_nat (getTopOffset (Piece.m piece)))%Z
                     ∧ Piece.y piece = 0%Z).
    { destruct k; injection Hpiece as <-; cbn; split_and!; done. }
    destruct Hshape as (? & ? & ? & ? & ? & ? & ?).
    do 7 (split; [assumption|]). by split.
  - eexists _, _, _, _.
    repeat (split; [vm_compute; reflexivity|]). vm_compute. reflexivity.
Qed.

(** * Instances of the theorems at concrete inputs *)

Lemma wfBoard_board37 : wfBoard board37.
Proof. split; [reflexivity|]. vm_compute. repeat constructor. Qed.

Lemma C1_collides_iff_witness :
  wfBoard board37 ∧ ∃ v, collides board37 pieceO = Some v.
Proof.
  assert (H : wfBoard board37).
  { split; [reflexivity|]. vm_compute. repeat constructor. }
  split; [exact H|]. exact (proj1 (C1_collides_iff board37 pieceO H)).
Defined.

Lemma C2_clearLines_removes_full_rows_witness :
  wfBoard board37
  ∧ clearLines board37 =
      Some (replicate (length (filter fullRow board37)) emptyRow
              ++ filter (λ r, ¬ fullRow r) board37,
            Z.of_nat (length (filter fullRow board37))).
Proof.
  assert (H : wfBoard board37).
  { split; [reflexivity|]. vm_compute. repeat constructor. }
  split; [exact H|]. exact (proj1 (C2_clearLines_removes_full_rows board37 H)).
Defined.


Lemma single_lock_scoring_witness :
  ∃ merged cb cleared s' n',
    mergePiece (board gapState) (Piece.mk 4 18 [[1; 1]; [1; 1]] "#F7D154" kO) = Some merged
    ∧ clearLines merged = Some (cb, cleared)
    ∧ commit noEntropy 0 (stepDown gapState) gapState = Some (s', n')
    ∧ score s' = (score gapState + points cleared * level gapState)%Z
    ∧ lines s' = (lines gapState + cleared)%Z
    ∧ ((0 < cleared)%Z → level s' = (1 + lines s' / 10)%Z)
    ∧ (cleared = 0%Z → level s' = level gapState)
    ∧ (level gapState = (1 + lines gapState / 10)%Z → level s' = (1 + lines s' / 10)%Z).
Proof.
  assert (H : wfBoard (board gapState)).
  { split; [reflexivity|]. vm_compute. repeat constructor. }
  assert (Hhit : collides (board gapState)
                   (moved (Piece.mk 4 18 [[1; 1]; [1; 1]] "#F7D154" kO) 0 1
                      [[1; 1]; [1; 1]]) = Some true) by (vm_compute; reflexivity).
  exact (proj1 (proj2 (proj2 (proj2
           (single_lock_scoring noEntropy 0 gapState
              (Piece.mk 4 18 [[1; 1]; [1; 1]] "#F7D154" kO) kT [kS] eq_refl H eq_refl))))
           Hhit).
Defined.

Lemma C6_vertical_I_at_right_wall_witness :
  wfBoard (board wallState)
  ∧ commit noEntropy 0 (rotateCW wallState) wallState = Some (wallState, 0).
Proof.
  assert (H : wfBoard (board wallState)).
  { split; [reflexivity|]. vm_compute. repeat constructor. }
  split; [exact H|].
  exact (proj2 (proj1 (C6_vertical_I_at_right_wall noEntropy 0 wallState _ eq_refl eq_refl H)
                  eq_refl)).
Defined.

Lemma C7_O_piece_lands_bottom_centre_witness :
  ∃ s1 n1 s2 n2,
    commit noEntropy 0 (spawn unspawnedState false) unspawnedState = Some (s1, n1)
    ∧ active s1 = Some pieceO
    ∧ board s1 = emptyBoard ROWS COLS
    ∧ commit noEntropy n1 (hardDrop s1) s1 = Some (s2, n2)
    ∧ board s2 = boardO
    ∧ lines s2 = lines unspawnedState
    ∧ score s2 = (score unspawnedState + 36)%Z.
Proof.
  exact (C7_O_piece_lands_bottom_centre noEntropy 0 unspawnedState kT [kS]
           eq_refl eq_refl).
Defined.

Lemma C8_bag_is_permutation_witness :
  (∀ k, (0 <= noEntropy k)%Q ∧ (noEntropy k < 1)%Q)
  ∧ ∃ b w', bag noEntropy (mkPending unspawnedState 0 []) = Some (b, w') ∧ b ≡ₚ ORDER.
Proof.
  assert (H : ∀ k, (0 <= noEntropy k)%Q ∧ (noEntropy k < 1)%Q).
  { intros k. unfold noEntropy, Qle, Qlt. simpl. lia. }
  split; [exact H|].
  destruct (proj2 (C8_bag_is_permutation noEntropy (mkPending unspawnedState 0 []) H))
    as (b & w' & Hb & Hperm & _).
  exists b, w'. split; [exact Hb|exact Hperm].
Defined.

Lemma C9_merge_does_not_mutate_witness :
  Store.readBoard store37 20 = Some board37
  ∧ wfBoard board37
  ∧ ∃ σ' nb, Store.mergePiece store37 20 pieceO = Some (σ', nb)
             ∧ Store.readBoard σ' 20 = Some board37.
Proof.
  assert (Hread : Store.readBoard store37 20 = Some board37) by (vm_compute; reflexivity).
  assert (H : wfBoard board37).
  { split; [reflexivity|]. vm_compute. repeat constructor. }
  split; [exact Hread|]. split; [exact H|].
  destruct (C9_merge_does_not_mutate store37 20 pieceO board37 Hread H)
    as (σ' & nb & g' & Hm & _ & _ & _ & _ & _ & Hsame).
  exists σ', nb. split; [exact Hm|exact Hsame].
Defined.

Lemma C10_hold_swap_has_no_collision_test_witness :
  ∃ s n, play noEntropy stackToTop = Some (s, n)
         ∧ hold s = Some kO ∧ canHold s = true
         ∧ ∃ a piece, active s = Some a
                      ∧ Piece.x piece = ((COLS - matrixWidth (Piece.m piece)) / 2)%Z
                      ∧ Piece.y piece = 0%Z
                      ∧ commit noEntropy n (doHold s) s = Some (swapped s a piece, n).
Proof.
  destruct (play noEntropy stackToTop) as [[s n]|] eqn:Hplay; [|by vm_compute in Hplay].
  assert (Hh : hold s = Some kO).
  { vm_compute in Hplay. by injection Hplay as <- <-. }
  assert (Hc : canHold s = true).
  { vm_compute in Hplay. by injection Hplay as <- <-. }
  exists s, n. split; [reflexivity|]. split; [exact Hh|]. split; [exact Hc|].
  destruct (proj1 C10_hold_swap_has_no_collision_test noEntropy stackToTop s n kO
              Hplay Hh Hc) as (a & piece & Ha & _ & _ & _ & _ & Hx & _ & _ & Hy & Hrun & _).
  exists a, piece. split; [exact Ha|]. split; [exact Hx|]. split; [exact Hy|exact Hrun].
Defined.

(** * Further properties of the engine *)

(** ** [getTopOffset] *)

Lemma existsb_occupied_row (row : list nat) :
  existsb truthyNum row = true ↔ ∃ x v, row !! x = Some v ∧ truthyNum v = true.
Proof.
  rewrite existsb_exists. split.
  - intros (v & Hin & Ht). apply list_elem_of_In, list_elem_of_lookup in Hin as [x Hx].
    by exists x, v.
  - intros (x & v & Hx & Ht). exists v. split; [|done].
    apply list_elem_of_In. by eapply list_elem_of_lookup_2.
Qed.

Lemma getTopOffsetFrom_spec (y0 : nat) (rows : Matrix) :
  (∃ j row, getTopOffsetFrom y0 rows = y0 + j
            ∧ rows !! j = Some row ∧ existsb truthyNum row = true
            ∧ ∀ i row', i < j → rows !! i = Some row' → existsb truthyNum row' = false)
  ∨ (getTopOffsetFrom y0 rows = 0
     ∧ ∀ i row', rows !! i = Some row' → existsb truthyNum row' = false).
Proof.
  revert y0. induction rows as [|row rest IH]; intros y0; cbn [getTopOffsetFrom].
  - right. split; [done|]. by intros i row' ?.
  - destruct (existsb truthyNum row) eqn:Hrow.
    + left. exists 0, row. split; [lia|]. split; [done|]. split; [done|]. lia.
    + destruct (IH (S y0)) as [(j & r & Ht & Hj & Hr & Hbefore)|[Ht Hnone]].
      * left. exists (S j), r. split; [lia|]. split; [done|]. split; [done|].
        intros [|i] row' Hi Hrow'; simpl in Hrow'; [congruence|].
        apply (Hbefore i); [lia|done].
      * right. split; [done|]. intros [|i] row' Hrow'; simpl in Hrow'; [congruence|].
        by apply (Hnone i).
Qed.

(** X1.  [getTopOffset] returns the index of the first row of the matrix
    that has an occupied cell: no row above it has one, and that row has
    one whenever the matrix has any; for a matrix with no occupied cell
    it returns 0. *)
Theorem getTopOffset_first_occupied_row (m : Matrix) :
  (∀ y x, y < getTopOffset m → ¬ occupied m y x)
  ∧ ((∃ y x, occupied m y x) → ∃ x, occupied m (getTopOffset m) x)
  ∧ ((∀ y x, ¬ occupied m y x) → getTopOffset m = 0).
Proof.
  unfold getTopOffset.
  destruct (getTopOffsetFrom_spec 0 m) as [(j & row & -> & Hj & Hrow & Hbefore)|[-> Hnone]].
  - cbn [Nat.add]. split; [|split].
    + intros y x Hy (row' & v & Hy' & Hx & Ht).
      assert (existsb truthyNum row' = true) as Htrue.
      { apply existsb_occupied_row. by exists x, v. }
      rewrite (Hbefore y row' Hy Hy') in Htrue. done.
    + intros _. apply existsb_occupied_row in Hrow as (x & v & Hx & Ht).
      exists x. by exists row, v.
    + intros Hno. apply existsb_occupied_row in Hrow as (x & v & Hx & Ht).
      destruct (Hno j x). by exists row, v.
  - split; [lia|]. split; [|done].
    intros (y & x & row & v & Hy & Hx & Ht).
    assert (existsb truthyNum row = true) as Htrue.
    { apply existsb_occupied_row. by exists x, v. }
    rewrite (Hnone y row Hy) in Htrue. done.
Qed.

(** ** Where [spawn] puts a piece *)

Lemma occupied_inside (m : Matrix) (y x h w : nat) :
  rectangular m h w → occupied m y x → y < h ∧ x < w.
Proof.
  intros [Hlen Hrows] (row & v & Hy & Hx & _). split.
  - rewrite <- Hlen. by eapply lookup_lt_Some.
  - rewrite <- (Forall_lookup_1 _ _ _ _ Hrows Hy). by eapply lookup_lt_Some.
Qed.

(** The spawn piece of every kind lies in rows 0-1 and columns 3-6. *)
Lemma spawnPiece_area (key : Kind) (piece : Piece.t) (y x : nat) :
  spawnPiece key = Some piece → occupied (Piece.m piece) y x →
  (0 <= Piece.y piece + Z.of_nat y < 2)%Z ∧ (3 <= Piece.x piece + Z.of_nat x <= 6)%Z.
Proof.
  intros Hpiece Hocc.
  destruct key; vm_compute in Hpiece; injection Hpiece as <-;
    cbn [Piece.m Piece.x Piece.y] in *.
  - apply (occupied_inside _ y x 1 4) in Hocc as [? ?];
      [lia | split; [done | repeat constructor]].
  - apply (occupied_inside _ y x 2 2) in Hocc as [? ?];
      [lia | split; [done | repeat constructor]].
  - apply (occupied_inside _ y x 2 3) in Hocc as [? ?];
      [lia | split; [done | repeat constructor]].
  - apply (occupied_inside _ y x 2 3) in Hocc as [? ?];
      [lia | split; [done | repeat constructor]].
  - apply (occupied_inside _ y x 2 3) in Hocc as [? ?];
      [lia | split; [done | repeat constructor]].
  - apply (occupied_inside _ y x 2 3) in Hocc as [? ?];
      [lia | split; [done | repeat constructor]].
  - apply (occupied_inside _ y x 2 3) in Hocc as [? ?];
      [lia | split; [done | repeat constructor]].
Qed.

(** X2.  The piece that [spawn] makes occupies only cells of rows 0-1 and
    columns 3-6, so on a grid of the game whose cells there are all unfilled
    the collision test of [spawn] is negative for every kind: [running]
    stays as it is, and the game can end only when a cell of that area is
    filled. *)
Theorem spawn_collides_only_in_spawn_area (b : Board) (key : Kind) :
  wfBoard b →
  (∀ ny nx, (0 <= ny < 2)%Z → (3 <= nx <= 6)%Z → ¬ filledAt b ny nx) →
  ∃ piece, spawnPiece key = Some piece ∧ collides b piece = Some false.
Proof.
  intros Hwf Hfree. destruct (spawnPiece_total key) as [piece Hpiece].
  exists piece. split; [done|]. apply collides_false_iff; [done|].
  intros y x Hocc Hh.
  destruct (spawnPiece_area key piece y x Hpiece Hocc) as [Hy Hx].
  unfold hits, COLS, ROWS in Hh. cbn zeta in Hh.
  destruct Hh as [?|[?|[?|[_ Hf]]]]; [lia..|]. by apply (Hfree _ _ Hy Hx).
Qed.

Lemma spawn_collides_only_in_spawn_area_witness :
  wfBoard boardO ∧ ∃ piece, spawnPiece kT = Some piece ∧ collides boardO piece = Some false.
Proof.
  assert (H : wfBoard boardO).
  { split; [reflexivity|]. vm_compute. repeat constructor. }
  split; [exact H|].
  apply (spawn_collides_only_in_spawn_area boardO kT H).
  intros ny nx Hy Hx (row & c & Hrow & Hc & Hfill).
  assert (ny = 0 ∨ ny = 1)%Z as [-> | ->] by lia;
    vm_compute in Hrow; injection Hrow as <-;
    (assert (nx = 3 ∨ nx = 4 ∨ nx = 5 ∨ nx = 6)%Z as [->|[->|[->| ->]]] by lia);
    vm_compute in Hc; injection Hc as <-; discriminate Hfill.
Defined.

(** ** [clearLines] once more *)

Lemma emptyRow_not_full : ¬ fullRow emptyRow.
Proof. intros Hfull. unfold fullRow, emptyRow in Hfull. by inversion Hfull. Qed.

Lemma filter_not_full_none (b : Board) : filter fullRow (filter (λ r, ¬ fullRow r) b) = [].
Proof.
  induction b as [|r b IH]; [done|]. rewrite filter_cons.
  destruct (decide (¬ fullRow r)) as [Hr|Hr]; [|done].
  by rewrite filter_cons_False.
Qed.

Lemma filter_emptyRows (n : nat) : filter fullRow (replicate n emptyRow) = [].
Proof.
  induction n as [|n IH]; [done|]. cbn [replicate].
  rewrite filter_cons_False; [done|]. apply emptyRow_not_full.
Qed.

(** What [clearLines] returns on a grid of the game is a grid of the game
    without a full row. *)
Lemma clearLines_result (b b1 : Board) (k : Z) :
  wfBoard b → clearLines b = Some (b1, k) →
  wfBoard b1 ∧ filter fullRow b1 = [] ∧ (0 <= k <= ROWS)%Z.
Proof.
  intros Hwf. rewrite (clearLines_spec b Hwf). intros [= <- <-].
  destruct Hwf as [Hlen Hrows].
  pose proof (filter_length_complement fullRow b) as Hsum.
  split; [split|split].
  - rewrite length_app, length_replicate. lia.
  - apply Forall_app. split.
    + apply Forall_replicate. apply length_replicate.
    + apply Forall_forall. intros r [_ Hr]%list_elem_of_filter.
      rewrite Forall_forall in Hrows. by apply Hrows.
  - by rewrite filter_app, filter_not_full_none, app_nil_r, filter_emptyRows.
  - unfold ROWS in *. lia.
Qed.

(** X3.  [clearLines] is idempotent: on a grid of the game, calling it on
    its own result returns that grid again and 0 rows cleared. *)
Theorem clearLines_idempotent (b : Board) :
  wfBoard b →
  ∃ b1 k, clearLines b = Some (b1, k) ∧ clearLines b1 = Some (b1, 0%Z).
Proof.
  intros Hwf. destruct (clearLines_total b Hwf) as (b1 & k & Hc & _).
  exists b1, k. split; [done|].
  destruct (clearLines_result b b1 k Hwf Hc) as (Hwf1 & Hnone & _).
  rewrite (clearLines_spec b1 Hwf1), Hnone. cbn [length replicate app].
  by rewrite filter_none_full by (by rewrite Hnone).
Qed.

Lemma clearLines_idempotent_witness :
  wfBoard board37
  ∧ ∃ b1 k, clearLines board37 = Some (b1, k) ∧ clearLines b1 = Some (b1, 0%Z).
Proof.
  assert (H : wfBoard board37).
  { split; [reflexivity|]. vm_compute. repeat constructor. }
  split; [exact H|]. exact (clearLines_idempotent board37 H).
Defined.

(** ** Rotating more than once *)

(** Two clockwise rotations turn the matrix by 180 degrees. *)
Lemma rotateMatrixCW_twice (m : Matrix) (h w : nat) :
  rectangular m h w → 0 < h → 0 < w →
  ∃ r1 r2, rotateMatrixCW m = Some r1 ∧ rotateMatrixCW r1 = Some r2
           ∧ rectangular r2 h w
           ∧ ∀ y x, y < h → x < w → entry r2 y x = entry m (h - 1 - y) (w - 1 - x).
Proof.
  intros Hrect Hh Hw.
  destruct (rotateMatrixCW_entry m h w Hrect Hh) as (r1 & Hr1 & Hrect1 & Hent1).
  destruct (rotateMatrixCW_entry r1 w h Hrect1 Hw) as (r2 & Hr2 & Hrect2 & Hent2).
  exists r1, r2. do 3 (split; [done|]). intros y x Hy Hx.
  replace (entry r2 y x) with (entry r2 y (w - 1 - (w - 1 - x))) by (f_equal; lia).
  rewrite (Hent2 (w - 1 - x) y) by lia.
  replace (entry r1 (w - 1 - x) y) with (entry r1 (w - 1 - x) (h - 1 - (h - 1 - y)))
    by (f_equal; lia).
  by rewrite (Hent1 (h - 1 - y) (w - 1 - x)) by lia.
Qed.

(** X4.  Four clockwise rotations give the matrix back, and three
    clockwise rotations are one counter-clockwise rotation, for every
    rectangular matrix with at least one row and one column. *)
Theorem rotateMatrixCW_four_times (m : Matrix) (h w : nat) :
  rectangular m h w → 0 < h → 0 < w →
  ∃ r1 r2 r3,
    rotateMatrixCW m = Some r1 ∧ rotateMatrixCW r1 = Some r2
    ∧ rotateMatrixCW r2 = Some r3 ∧ rotateMatrixCW r3 = Some m
    ∧ rotateMatrixCCW m = Some r3.
Proof.
  intros Hrect Hh Hw.
  destruct (rotateMatrixCW_twice m h w Hrect Hh Hw) as (r1 & r2 & Hr1 & Hr2 & Hrect2 & Hent2).
  destruct (rotateMatrixCW_twice r2 h w Hrect2 Hh Hw)
    as (r3 & r4 & Hr3 & Hr4 & Hrect4 & Hent4).
  assert (r4 = m) as ->.
  { apply (matrix_ext _ _ h w); [done..|]. intros y x Hy Hx.
    rewrite Hent4, Hent2 by lia. f_equal; lia. }
  exists r1, r2, r3. do 4 (split; [done|]).
  destruct (rotateMatrixCW_CCW m h w Hrect Hh Hw) as (c & Hc & Hback).
  rewrite Hc. f_equal.
  destruct (rotateMatrixCW_entry r2 h w Hrect2 Hh) as (r3' & Hr3' & Hrect3 & _).
  assert (r3' = r3) as -> by congruence.
  destruct (rotateMatrixCCW_entry m h w Hrect Hh) as (c' & Hc' & Hrectc & _).
  assert (c' = c) as -> by congruence.
  destruct (rotateMatrixCCW_CW c w h Hrectc Hw Hh) as (m' & Hm' & Hcc).
  assert (m' = m) as -> by congruence.
  destruct (rotateMatrixCCW_CW r3 w h Hrect3 Hw Hh) as (m'' & Hm'' & Hcc3).
  assert (m'' = m) as -> by congruence.
  congruence.
Qed.

Lemma rotateMatrixCW_four_times_witness :
  rectangular [[0; 1; 0]; [1; 1; 1]] 2 3
  ∧ ∃ r1 r2 r3,
      rotateMatrixCW [[0; 1; 0]; [1; 1; 1]] = Some r1 ∧ rotateMatrixCW r1 = Some r2
      ∧ rotateMatrixCW r2 = Some r3 ∧ rotateMatrixCW r3 = Some [[0; 1; 0]; [1; 1; 1]]
      ∧ rotateMatrixCCW [[0; 1; 0]; [1; 1; 1]] = Some r3.
Proof.
  assert (H : rectangular [[0; 1; 0]; [1; 1; 1]] 2 3).
  { split; [reflexivity|]. repeat constructor. }
  split; [exact H|].
  exact (rotateMatrixCW_four_times _ 2 3 H ltac:(lia) ltac:(lia)).
Defined.

(** ** The drop interval and the preview *)

(** X5.  The drop interval is never below 100 ms, never grows with the
    level, is at most 1000 ms from level 1 on, and is 100 ms from level 13
    on. *)
Theorem dropMs_bounds (level level' : Z) :
  (100 <= dropMs level)%Z
  ∧ ((level <= level')%Z → (dropMs level' <= dropMs level)%Z)
  ∧ ((1 <= level)%Z → (dropMs level <= 1000)%Z)
  ∧ ((13 <= level)%Z → dropMs level = 100%Z)
  ∧ ((1 <= level <= 12)%Z → dropMs level = (1075 - 75 * level)%Z).
Proof. unfold dropMs, DROP_BASE_MS. lia. Qed.

(** X6.  With a non-empty queue and a next bag of seven kinds, as they
    are throughout a session, the preview shows exactly five kinds, they
    are the first five of the queue followed by the next bag, and the
    first of them is the kind that [spawn] takes next. *)
Theorem nextPieces_five (r : State) (key : Kind) (rest : list Kind) :
  queue r = key :: rest → length (nextBag r) = 7 →
  length (nextPieces r) = 5
  ∧ nextPieces r = take 5 (queue r ++ nextBag r)
  ∧ head (nextPieces r) = Some key.
Proof.
  intros Hq Hnb. unfold nextPieces. rewrite Hq.
  destruct (decide (length (key :: rest) < 5)) as [Hlt|Hge].
  - rewrite bool_decide_eq_true_2 by done. split; [|done].
    rewrite length_take, length_app, Hnb. cbn [length]. lia.
  - rewrite bool_decide_eq_false_2 by done. split; [|split; [|done]].
    + rewrite length_take. lia.
    + by rewrite take_app_le by lia.
Qed.

Lemma nextPieces_five_witness :
  queue startState = kT :: [kS] ∧ length (nextBag startState) = 7
  ∧ length (nextPieces startState) = 5.
Proof.
  split; [reflexivity|]. split; [reflexivity|].
  exact (proj1 (nextPieces_five startState kT [kS] eq_refl eq_refl)).
Defined.

(** ** The session invariant *)

Lemma safe_ret c l {A} (a : A) (Q : A → Prop) : Q a → safe c l (mret a) Q.
Proof. intros HQ rnd w Hw. by exists a, w. Qed.

Lemma safe_bind c l {A B} (act : Act A) (f : A → Act B) (Q : A → Prop) (R : B → Prop) :
  safe c l act Q → (∀ a, Q a → safe c l (f a) R) → safe c l (act ≫= f) R.
Proof.
  intros Hact Hf rnd w Hw. destruct (Hact rnd w Hw) as (a & w1 & Hrun & Hw1 & HQ).
  destruct (Hf a HQ rnd w1 Hw1) as (b & w2 & Hrun2 & Hw2 & HR).
  exists b, w2. unfold mbind, Act_bind. by rewrite Hrun.
Qed.

Lemma safe_try c l {A} (o : option A) (a : A) (Q : A → Prop) :
  o = Some a → Q a → safe c l (try o) Q.
Proof. intros -> HQ rnd w Hw. by exists a, w. Qed.

Lemma safe_modify c l (f : State → State) :
  (∀ s, sessionOk s → (c <= score s)%Z → (l <= lines s)%Z →
        sessionOk (f s) ∧ (c <= score (f s))%Z ∧ (l <= lines (f s))%Z) →
  safe c l (modify f) (λ _, True).
Proof.
  intros Hf rnd w (Hok & Hc & Hl & Hdef). exists (), (mkPending (f (st w)) (calls w) (deferred w)).
  split; [done|]. split; [|done]. destruct (Hf _ Hok Hc Hl) as (? & ? & ?). by split.
Qed.

Lemma safe_setBoard c l (b : Board) :
  wfBoard b → filter fullRow b = [] → safe c l (setBoard (λ _, b)) (λ _, True).
Proof.
  intros Hwf Hnone. apply safe_modify. intros s (_ & _ & H) Hc Hl. by split.
Qed.

Lemma safe_setActive c l (a : option Piece.t) :
  (∀ p, a = Some p → goodPiece p) → safe c l (setActive (λ _, a)) (λ _, True).
Proof.
  intros Ha. apply safe_modify.
  intros s (? & ? & ? & ? & ? & _ & H) Hc Hl. by split.
Qed.

Lemma safe_setQueue c l (q : list Kind) :
  q ≠ [] → NoDup q → safe c l (setQueue (λ _, q)) (λ _, True).
Proof.
  intros Hq Hnd. apply safe_modify.
  intros s (? & ? & _ & _ & H) Hc Hl. by split.
Qed.

Lemma safe_setNextBag c l (nb : list Kind) :
  nb ≡ₚ ORDER → safe c l (setNextBag (λ _, nb)) (λ _, True).
Proof.
  intros Hnb. apply safe_modify.
  intros s (? & ? & ? & ? & _ & H) Hc Hl. by split.
Qed.

Lemma safe_setRunning c l f : safe c l (setRunning f) (λ _, True).
Proof. apply safe_modify. by intros s Hs Hc Hl. Qed.

Lemma safe_setHold c l f : safe c l (setHold f) (λ _, True).
Proof. apply safe_modify. by intros s Hs Hc Hl. Qed.

Lemma safe_setCanHold c l f : safe c l (setCanHold f) (λ _, True).
Proof. apply safe_modify. by intros s Hs Hc Hl. Qed.

Lemma safe_setScore c l (f : Z → Z) :
  (∀ v, (0 <= v)%Z → (c <= v)%Z → (0 <= f v)%Z ∧ (c <= f v)%Z) →
  safe c l (setScore f) (λ _, True).
Proof.
  intros Hf. apply safe_modify.
  intros s (? & ? & ? & ? & ? & ? & Hs & ? & ?) Hc Hl.
  destruct (Hf _ Hs Hc). by split_and!.
Qed.

Lemma safe_setLines c l (f : Z → Z) :
  (∀ v, (0 <= v)%Z → (l <= v)%Z → (0 <= f v)%Z ∧ (l <= f v)%Z) →
  safe c l (setLines f) (λ _, True).
Proof.
  intros Hf. apply safe_modify.
  intros s (? & ? & ? & ? & ? & ? & ? & Hs & ?) Hc Hl.
  destruct (Hf _ Hs Hl). by split_and!.
Qed.

Lemma safe_setLevel c l (v : Z) : (1 <= v)%Z → safe c l (setLevel (λ _, v)) (λ _, True).
Proof.
  intros Hv. apply safe_modify.
  intros s (? & ? & ? & ? & ? & ? & ? & ? & _) Hc Hl. by split_and!.
Qed.

Lemma safe_spawn c l (r : State) (resetAcc : bool) :
  sessionOk r → safe c l (spawn r resetAcc) (λ _, True).
Proof.
  intros Hr rnd w (Hok & Hc & Hl & Hdef). eexists _, _. split; [done|].
  split; [|done]. split; [done|]. split; [done|]. split; [done|].
  apply Forall_app. split; [done|]. by constructor.
Qed.

Lemma safe_bag c l : safe c l bag (λ b, b ≡ₚ ORDER).
Proof.
  intros rnd w Hw. destruct (bag_total rnd w) as [b Hb].
  eexists b, _. split; [exact Hb|]. split; [done|]. by eapply shuffle_Permutation.
Qed.

Lemma occupied_entry (m : Matrix) (h w y x : nat) :
  rectangular m h w →
  occupied m y x ↔ y < h ∧ x < w ∧ truthyNum (entry m y x) = true.
Proof.
  intros Hrect. split.
  - intros Hocc. destruct (occupied_inside m y x h w Hrect Hocc) as [Hy Hx].
    split; [done|]. split; [done|].
    destruct Hocc as (row & v & Hrow & Hv & Ht).
    unfold entry. rewrite Hrow. simpl. by rewrite Hv.
  - intros (Hy & Hx & Ht).
    destruct (entry_inside m h w y x Hrect Hy Hx) as (row & Hrow & Hv).
    by exists row, (entry m y x).
Qed.

Lemma goodPiece_moved (a : Piece.t) (dx dy : Z) :
  goodPiece a → goodPiece (moved a dx dy (Piece.m a)).
Proof. intros Ha. exact Ha. Qed.

Lemma goodPiece_spawnPiece (key : Kind) (p : Piece.t) :
  spawnPiece key = Some p → goodPiece p.
Proof.
  intros Hp. destruct key; vm_compute in Hp; injection Hp as <-; unfold goodPiece;
    cbn [Piece.m].
  - exists 1, 4. split; [split; [done|repeat constructor]|]. split; [lia|]. split; [lia|].
    exists 0, 0. by exists [1; 1; 1; 1], 1.
  - exists 2, 2. split; [split; [done|repeat constructor]|]. split; [lia|]. split; [lia|].
    exists 0, 0. by exists [1; 1], 1.
  - exists 2, 3. split; [split; [done|repeat constructor]|]. split; [lia|]. split; [lia|].
    exists 1, 0. by exists [1; 1; 1], 1.
  - exists 2, 3. split; [split; [done|repeat constructor]|]. split; [lia|]. split; [lia|].
    exists 1, 0. by exists [1; 1; 0], 1.
  - exists 2, 3. split; [split; [done|repeat constructor]|]. split; [lia|]. split; [lia|].
    exists 0, 0. by exists [1; 1; 0], 1.
  - exists 2, 3. split; [split; [done|repeat constructor]|]. split; [lia|]. split; [lia|].
    exists 0, 0. by exists [1; 0; 0], 1.
  - exists 2, 3. split; [split; [done|repeat constructor]|]. split; [lia|]. split; [lia|].
    exists 1, 0. by exists [1; 1; 1], 1.
Qed.

(** Both rotations turn the matrix of a piece of the engine into the
    matrix of a piece of the engine. *)
Lemma goodPiece_rotateCW (a : Piece.t) :
  goodPiece a →
  ∃ r, rotateMatrixCW (Piece.m a) = Some r ∧ ∀ dx dy, goodPiece (moved a dx dy r).
Proof.
  intros (h & w & Hrect & Hh & Hw & y & x & Hocc).
  destruct (rotateMatrixCW_entry _ h w Hrect Hh) as (r & Hr & Hrrect & Hent).
  exists r. split; [done|]. intros dx dy. exists w, h. split; [done|]. split; [done|]. split; [done|].
  apply (occupied_entry _ h w) in Hocc as (Hy & Hx & Ht); [|done].
  exists x, (h - 1 - y). cbn [moved Piece.m]. apply (occupied_entry _ w h); [done|].
  split; [done|]. split; [lia|]. by rewrite Hent.
Qed.

Lemma goodPiece_rotateCCW (a : Piece.t) :
  goodPiece a →
  ∃ r, rotateMatrixCCW (Piece.m a) = Some r ∧ ∀ dx dy, goodPiece (moved a dx dy r).
Proof.
  intros (h & w & Hrect & Hh & Hw & y & x & Hocc).
  destruct (rotateMatrixCCW_entry _ h w Hrect Hh) as (r & Hr & Hrrect & Hent).
  exists r. split; [done|]. intros dx dy. exists w, h. split; [done|]. split; [done|]. split; [done|].
  apply (occupied_entry _ h w) in Hocc as (Hy & Hx & Ht); [|done].
  exists (w - 1 - x), y. cbn [moved Piece.m]. apply (occupied_entry _ w h); [done|].
  split; [lia|]. split; [done|]. by rewrite Hent.
Qed.

(** [collides] looks at the position and the matrix of the piece only. *)
Lemma collidesCells_same (b : Board) (p q : Piece.t) (y : nat) (row : list nat) (x : nat) :
  Piece.x p = Piece.x q → Piece.y p = Piece.y q →
  collidesCells b p y row x = collidesCells b q y row x.
Proof.
  intros Hx Hy. revert x. induction row as [|v rest IH]; intros x; [done|].
  cbn [collidesCells]. rewrite Hx, Hy, !IH. reflexivity.
Qed.

Lemma collides_same (b : Board) (p q : Piece.t) :
  Piece.x p = Piece.x q → Piece.y p = Piece.y q → Piece.m p = Piece.m q →
  collides b p = collides b q.
Proof.
  intros Hx Hy Hm. unfold collides. rewrite Hm.
  assert (Hrows : ∀ rows y, collidesRows b p y rows = collidesRows b q y rows).
  { induction rows as [|row rest IH]; intros y; [done|].
    cbn [collidesRows]. rewrite (collidesCells_same b p q y row 0 Hx Hy), IH.
    reflexivity. }
  apply Hrows.
Qed.

(** The loop of [hardDrop] and [getGhost]: it goes straight down, passes
    free positions only, and stops at the first position from which one
    more row down collides. *)
Lemma dropLoop_spec (b : Board) (y x : nat) (fuel : nat) (p : Piece.t) (dist : Z) :
  wfBoard b → occupied (Piece.m p) y x →
  0 < fuel → (ROWS - (Piece.y p + Z.of_nat y) < Z.of_nat fuel)%Z →
  ∃ ghost d,
    dropLoop fuel b p dist = Some (ghost, d) ∧ (dist <= d)%Z
    ∧ Piece.x ghost = Piece.x p ∧ Piece.y ghost = (Piece.y p + (d - dist))%Z
    ∧ Piece.m ghost = Piece.m p ∧ Piece.c ghost = Piece.c p ∧ Piece.k ghost = Piece.k p
    ∧ collides b (moved ghost 0 1 (Piece.m ghost)) = Some true
    ∧ ∀ i, (0 < i <= d - dist)%Z → collides b (moved p 0 i (Piece.m p)) = Some false.
Proof.
  intros Hwf. revert p dist. induction fuel as [|fuel IH]; intros p dist Hocc Hpos Hfuel.
  - lia.
  - cbn [dropLoop].
    destruct (collides_total b (moved p 0 1 (Piece.m p)) Hwf) as [[|] Hhit]; rewrite Hhit.
    + exists p, dist. split; [done|]. split; [lia|]. split; [done|]. split; [lia|].
      do 3 (split; [done|]). split; [done|]. intros i Hi. lia.
    + assert (Hlow : (Piece.y p + 1 + Z.of_nat y < ROWS)%Z).
      { destruct (Z.lt_ge_cases (Piece.y p + 1 + Z.of_nat y) ROWS) as [|Hge]; [done|].
        assert (collides b (moved p 0 1 (Piece.m p)) = Some true) as Htrue; [|congruence].
        apply collides_true_iff; [done|]. exists y, x. split; [done|].
        unfold hits. simpl. lia. }
      destruct (IH (moved p 0 1 (Piece.m p)) (dist + 1)%Z)
        as (ghost & d & Hd & Hle & Hx & Hy & Hm & Hc & Hk & Hstop & Hfree).
      * done.
      * lia.
      * simpl. lia.
      * exists ghost, d. split; [done|]. split; [lia|].
        cbn [moved Piece.x Piece.y Piece.m Piece.c Piece.k] in Hx, Hy, Hm, Hc, Hk.
        split; [lia|]. split; [lia|]. do 3 (split; [done|]). split; [done|].
        intros i Hi. destruct (decide (i = 1%Z)) as [->|Hne]; [done|].
        rewrite <- (Hfree (i - 1)%Z) by lia.
        apply collides_same; cbn [moved Piece.x Piece.y Piece.m]; [lia|lia|done].
Qed.

Lemma goodPiece_dropped (b : Board) (a : Piece.t) :
  wfBoard b → goodPiece a →
  ∃ ghost dist, dropLoop (dropFuel a) b a 0 = Some (ghost, dist) ∧ (0 <= dist)%Z
                ∧ goodPiece ghost.
Proof.
  intros Hwf Ha. pose proof Ha as (h & w & _ & _ & _ & y & x & Hocc).
  destruct (dropLoop_spec b y x (dropFuel a) a 0 Hwf Hocc)
    as (ghost & d & Hd & Hle & _ & _ & Hm & _).
  { unfold dropFuel. lia. }
  { unfold dropFuel. lia. }
  exists ghost, d. split; [done|]. split; [done|]. unfold goodPiece. by rewrite Hm.
Qed.

Lemma scoreFor_nonneg (lvl c : Z) : (1 <= lvl)%Z → (0 <= c)%Z → (0 <= scoreFor lvl c)%Z.
Proof. intros Hl Hc. rewrite scoreFor_points by done. unfold points. repeat case_match; lia. Qed.

(** Prove [safe] for an action built with [≫=] from safe parts. *)
Local Ltac safe_seq :=
  repeat (eapply safe_bind; [|intros ? ?]).

Lemma safe_lock c l (r : State) (p : Piece.t) :
  sessionOk r → safe c l (lock r p) (λ _, True).
Proof.
  intros Hr. pose proof Hr as (Hwf & _ & _ & _ & _ & _ & _ & Hlines & Hlevel).
  destruct (mergePiece_spec p (board r) Hwf) as (merged & Hm & Hwfm & _).
  destruct (clearLines_total merged Hwfm) as (cb & cleared & Hc & Hpos).
  destruct (clearLines_result merged cb cleared Hwfm Hc) as (Hwfc & Hnone & _).
  pose proof (scoreFor_nonneg (level r) cleared Hlevel Hpos) as Hscore.
  unfold lock.
  eapply safe_bind; [by apply (safe_try _ _ _ merged) with (Q := λ m, m = merged)|].
  intros ? ->.
  eapply safe_bind; [by apply (safe_try _ _ _ (cb, cleared)) with (Q := λ x, x = (cb, cleared))|].
  intros ? ->. cbn [fst snd].
  eapply safe_bind; [by apply safe_setBoard|]. intros _ _.
  eapply safe_bind with (Q := λ _, True); [|intros _ _; by apply safe_spawn].
  destruct (cleared >? 0)%Z; [|by apply safe_ret].
  eapply safe_bind; [apply safe_setLines; lia|]. intros _ _.
  eapply safe_bind; [apply safe_setScore; lia|]. intros _ _.
  apply safe_setLevel.
  assert (0 <= (lines r + cleared) / 10)%Z by (apply Z.div_pos; lia). lia.
Qed.

Lemma safe_collides c l (r : State) (p : Piece.t) :
  sessionOk r → safe c l (try (collides (board r) p)) (λ _, True).
Proof.
  intros Hr. destruct (collides_total (board r) p (proj1 Hr)) as [hit Hhit].
  by apply (safe_try _ _ _ hit).
Qed.

Lemma safe_stepDown c l (r : State) : sessionOk r → safe c l (stepDown r) (λ _, True).
Proof.
  intros Hr. unfold stepDown. destruct (active r) as [a|] eqn:Ha; [|by apply safe_ret].
  assert (goodPiece a) as Hgood by (by apply Hr).
  eapply safe_bind; [by apply safe_collides|]. intros hit _.
  destruct hit; cbn [negb]; [by apply safe_lock|].
  apply safe_setActive. by intros p [= <-].
Qed.

Lemma safe_softDrop c l (r : State) : sessionOk r → safe c l (softDrop r) (λ _, True).
Proof.
  intros Hr. unfold softDrop. destruct (active r) as [a|] eqn:Ha; [|by apply safe_ret].
  assert (goodPiece a) as Hgood by (by apply Hr).
  eapply safe_bind; [by apply safe_collides|]. intros hit _.
  destruct hit; cbn [negb]; [by apply safe_ret|].
  eapply safe_bind; [apply safe_setActive; by intros p [= <-]|]. intros _ _.
  apply safe_setScore. lia.
Qed.

Lemma safe_hardDrop c l (r : State) : sessionOk r → safe c l (hardDrop r) (λ _, True).
Proof.
  intros Hr. unfold hardDrop. destruct (active r) as [a|] eqn:Ha; [|by apply safe_ret].
  assert (goodPiece a) as Hgood by (by apply Hr).
  destruct (goodPiece_dropped (board r) a (proj1 Hr) Hgood)
    as (ghost & dist & Hdrop & Hdist & Hghost).
  eapply safe_bind;
    [by apply (safe_try _ _ _ (ghost, dist)) with (Q := λ x, x = (ghost, dist))|].
  intros ? ->. cbn [fst snd].
  eapply safe_bind; [apply safe_setActive; by intros p [= <-]|]. intros _ _.
  eapply safe_bind; [apply safe_setScore; lia|]. intros _ _.
  by apply safe_lock.
Qed.

Lemma safe_tryKicks c l (r : State) (a : Piece.t) (rotated : Matrix) (ks : list Z) :
  sessionOk r → (∀ dx dy, goodPiece (moved a dx dy rotated)) →
  safe c l (tryKicks r a rotated ks) (λ _, True).
Proof.
  intros Hr Hgood. induction ks as [|dx ks IH]; cbn [tryKicks]; [by apply safe_ret|].
  eapply safe_bind; [by apply safe_collides|]. intros hit _.
  destruct hit; cbn [negb]; [done|].
  apply safe_setActive. intros p [= <-]. apply Hgood.
Qed.

Lemma safe_rotate c l (r : State) (rotFn : Matrix → option Matrix) :
  sessionOk r →
  (∀ a, goodPiece a →
        ∃ rot, rotFn (Piece.m a) = Some rot ∧ ∀ dx dy, goodPiece (moved a dx dy rot)) →
  safe c l (rotate r rotFn) (λ _, True).
Proof.
  intros Hr Hrot. unfold rotate. destruct (active r) as [a|] eqn:Ha; [|by apply safe_ret].
  assert (goodPiece a) as Hgood by (by apply Hr).
  destruct (Hrot a Hgood) as (rot & Hrotated & Hgood').
  eapply safe_bind; [by apply (safe_try _ _ _ rot) with (Q := λ x, x = rot)|].
  intros ? ->. by apply safe_tryKicks.
Qed.

Lemma safe_rotateCW c l (r : State) : sessionOk r → safe c l (rotateCW r) (λ _, True).
Proof. intros Hr. apply safe_rotate; [done|]. apply goodPiece_rotateCW. Qed.

Lemma safe_rotateCCW c l (r : State) : sessionOk r → safe c l (rotateCCW r) (λ _, True).
Proof. intros Hr. apply safe_rotate; [done|]. apply goodPiece_rotateCCW. Qed.

Lemma safe_tryMove c l (r : State) (a : Piece.t) (dx dy : Z) :
  sessionOk r → active r = Some a → safe c l (tryMove r dx dy (Piece.m a)) (λ _, True).
Proof.
  intros Hr Ha. unfold tryMove. rewrite Ha.
  assert (goodPiece a) as Hgood by (by apply Hr).
  eapply safe_bind; [by apply safe_collides|]. intros hit _.
  destruct hit; cbn [negb]; [by apply safe_ret|].
  apply safe_setActive. by intros p [= <-].
Qed.

Lemma safe_doHold c l (r : State) : sessionOk r → safe c l (doHold r) (λ _, True).
Proof.
  intros Hr. unfold doHold. destruct (active r) as [a|] eqn:Ha; [|by apply safe_ret].
  destruct (canHold r); cbn [negb]; [|by apply safe_ret].
  eapply safe_bind with (Q := λ _, True); [|intros _ _; apply safe_setCanHold].
  destruct (hold r) as [newK|].
  - eapply safe_bind; [apply safe_setHold|]. intros _ _.
    destruct (spawnPiece_total newK) as [piece Hpiece].
    eapply safe_bind; [by apply (safe_try _ _ _ piece) with (Q := λ x, x = piece)|].
    intros ? ->. apply safe_setActive. intros p [= <-].
    by eapply goodPiece_spawnPiece.
  - eapply safe_bind; [apply safe_setHold|]. intros _ _. by apply safe_spawn.
Qed.

Lemma ORDER_NoDup : NoDup ORDER.
Proof. apply (bool_decide_unpack _). by vm_compute. Qed.

Lemma bag_like (b : list Kind) : b ≡ₚ ORDER → b ≠ [] ∧ NoDup b.
Proof.
  intros Hb. split.
  - intros ->. by apply Permutation_nil_l in Hb.
  - rewrite Hb. apply ORDER_NoDup.
Qed.

Lemma emptyBoard_no_full_row : filter fullRow (emptyBoard ROWS COLS) = [].
Proof. apply filter_emptyRows. Qed.

Lemma safe_reset c l (r0 : State) :
  sessionOk r0 → (c <= 0)%Z → (l <= 0)%Z → safe c l (reset r0) (λ _, True).
Proof.
  intros Hr0 Hc Hl. unfold reset.
  eapply safe_bind;
    [apply safe_setBoard; [apply wfBoard_emptyBoard|apply emptyBoard_no_full_row]|].
  intros _ _.
  eapply safe_bind; [apply safe_bag|]. intros q [Hq Hnd]%bag_like.
  eapply safe_bind; [by apply safe_setQueue|]. intros _ _.
  eapply safe_bind; [apply safe_bag|]. intros nb Hnb.
  eapply safe_bind; [by apply safe_setNextBag|]. intros _ _.
  eapply safe_bind; [by apply safe_setActive|]. intros _ _.
  eapply safe_bind; [apply safe_setScore; lia|]. intros _ _.
  eapply safe_bind; [apply safe_setLines; lia|]. intros _ _.
  eapply safe_bind; [by apply safe_setLevel|]. intros _ _.
  eapply safe_bind; [apply safe_setHold|]. intros _ _.
  eapply safe_bind; [apply safe_setCanHold|]. intros _ _.
  eapply safe_bind; [apply safe_setRunning|]. intros _ _.
  by apply safe_spawn.
Qed.

Lemma safe_ticks c l (r : State) (n : nat) : sessionOk r → safe c l (ticks r n) (λ _, True).
Proof.
  intros Hr. induction n as [|n IH]; cbn [ticks]; [by apply safe_ret|].
  eapply safe_bind; [by apply safe_stepDown|]. by intros _ _.
Qed.

Lemma safe_spawnUpdater c l (r : State) (resetAcc : bool) :
  sessionOk r → safe c l (spawnUpdater r resetAcc) (λ _, True).
Proof.
  intros Hr. pose proof Hr as (Hwf & _ & Hq & Hnd & Hnb & _).
  destruct (bag_like _ Hnb) as [Hnb1 Hnb2].
  unfold spawnUpdater. destruct (queue r) as [|key rest] eqn:Hqueue; [done|].
  cbn [head tail].
  eapply safe_bind with (Q := λ q, q ≠ [] ∧ NoDup q).
  { destruct (decide (length rest = 0)) as [Hz|Hnz].
    - rewrite bool_decide_eq_true_2 by done.
      eapply safe_bind; [apply safe_bag|]. intros nb Hperm.
      eapply safe_bind; [by apply safe_setNextBag|]. intros _ _.
      by apply safe_ret.
    - rewrite bool_decide_eq_false_2 by done. apply safe_ret. split.
      + by destruct rest.
      + by apply NoDup_cons in Hnd as [_ ?]. }
  intros q [Hq' Hnd'].
  eapply safe_bind; [by apply safe_setQueue|]. intros _ _.
  eapply safe_bind; [by apply (safe_try _ _ _ key) with (Q := λ x, x = key)|].
  intros ? ->. destruct (spawnPiece_total key) as [piece Hpiece].
  eapply safe_bind; [by apply (safe_try _ _ _ piece) with (Q := λ x, x = piece)|].
  intros ? ->.
  eapply safe_bind; [by apply safe_collides|]. intros hit _.
  eapply safe_bind with (Q := λ _, True).
  { destruct hit; [apply safe_setRunning|by apply safe_ret]. }
  intros _ _. eapply safe_bind; [apply safe_setCanHold|]. intros _ _.
  apply safe_setActive. intros p [= <-]. by eapply goodPiece_spawnPiece.
Qed.

Lemma safe_runUpdaters c l (us : list (State * bool)) :
  Forall (λ u, sessionOk u.1) us → safe c l (runUpdaters us) (λ _, True).
Proof.
  induction 1 as [|[r resetAcc] us Hr _ IH]; cbn [runUpdaters]; [by apply safe_ret|].
  eapply safe_bind; [by apply safe_spawnUpdater|]. by intros _ _.
Qed.

Lemma flush_pendingInv c l rnd w :
  pendingInv c l w → ∃ w', flush rnd w = Some ((), w') ∧ pendingInv c l w'.
Proof.
  intros (Hok & Hc & Hl & Hdef). unfold flush.
  destruct (safe_runUpdaters c l (deferred w) Hdef rnd (mkPending (st w) (calls w) []))
    as ([] & w' & Hrun & Hw' & _).
  { split; [done|]. split; [done|]. split; [done|]. constructor. }
  by exists w'.
Qed.

(** Prove [safe] for a handler that dispatches to the actions above; the
    action decides the lemma. *)
Local Ltac safe_step Hrestart :=
  lazymatch goal with
  | |- safe _ _ (mret _) _ => by apply safe_ret
  | |- safe _ _ (setRunning _) _ => apply safe_setRunning
  | |- safe _ _ (tryMove _ _ _ _) _ => by apply safe_tryMove
  | |- safe _ _ (softDrop _) _ => by apply safe_softDrop
  | |- safe _ _ (hardDrop _) _ => by apply safe_hardDrop
  | |- safe _ _ (rotateCW _) _ => by apply safe_rotateCW
  | |- safe _ _ (rotateCCW _) _ => by apply safe_rotateCCW
  | |- safe _ _ (doHold _) _ => by apply safe_doHold
  | |- safe _ _ (spawn _ _) _ => by apply safe_spawn
  | |- safe _ _ (ticks _ _) _ => by apply safe_ticks
  | |- safe _ _ (reset _) _ => destruct (Hrestart eq_refl); by apply safe_reset
  | |- safe _ _ (_ ≫= _) _ =>
      eapply safe_bind; [safe_step Hrestart | intros _ _; safe_step Hrestart]
  | |- safe _ _ (if ?b then _ else _) _ => destruct b; safe_step Hrestart
  | |- safe _ _ (match ?x with _ => _ end) _ => destruct x eqn:?; safe_step Hrestart
  end.

Lemma safe_handler c l (r0 r : State) (ev : Event) :
  sessionOk r0 → sessionOk r →
  (isRestart ev = true → (c <= 0)%Z ∧ (l <= 0)%Z) →
  safe c l (handler r0 r ev) (λ _, True).
Proof.
  intros Hr0 Hr Hrestart. destruct ev as [|code|g|n|b| |]; cbn [handler].
  - safe_step Hrestart.
  - unfold onKey. destruct (active r) as [a|] eqn:Ha; [|safe_step Hrestart].
    destruct code; safe_step Hrestart.
  - unfold onCanvasTouchEnd. destruct (active r) as [a|] eqn:Ha; [|safe_step Hrestart].
    destruct (running r); cbn [negb]; [|safe_step Hrestart].
    destruct g; safe_step Hrestart.
  - unfold loop. safe_step Hrestart.
  - unfold onButton. destruct b; safe_step Hrestart.
  - safe_step Hrestart.
  - safe_step Hrestart.
Qed.

(** One function run, of any render [r] of the session: it ends without
    an exception, the invariant holds afterwards, and unless it restarts
    the game neither the score nor the lines go down. *)
Lemma commit_sessionOk rnd (r0 r s : State) (n : nat) (ev : Event) :
  sessionOk r0 → sessionOk r → sessionOk s →
  ∃ s' n', commit rnd n (handler r0 r ev) s = Some (s', n') ∧ sessionOk s'
           ∧ (isRestart ev = false → (score s <= score s')%Z ∧ (lines s <= lines s')%Z).
Proof.
  intros Hr0 Hr Hs.
  set (c := if isRestart ev then 0%Z else score s).
  set (l := if isRestart ev then 0%Z else lines s).
  assert (Hw : pendingInv c l (mkPending s n [])).
  { pose proof Hs as (_ & _ & _ & _ & _ & _ & ? & ? & _).
    split; [done|]. cbn [st deferred]. unfold c, l.
    destruct (isRestart ev); split_and!; (lia || constructor). }
  assert (Hrestart : isRestart ev = true → (c <= 0)%Z ∧ (l <= 0)%Z).
  { unfold c, l. by intros ->. }
  destruct (safe_handler c l r0 r ev Hr0 Hr Hrestart rnd (mkPending s n []) Hw)
    as ([] & w1 & Hrun & Hw1 & _).
  destruct (flush_pendingInv c l rnd w1 Hw1) as (w2 & Hflush & (Hok & Hc & Hl & _)).
  exists (st w2), (calls w2). unfold commit, mbind, Act_bind.
  rewrite Hrun, Hflush. split; [done|]. split; [done|].
  unfold c, l in *. intros Hev. rewrite Hev in Hc, Hl. done.
Qed.

(** One event, handled by the current render. *)
Lemma step_sessionOk rnd (r0 s : State) (n : nat) (ev : Event) :
  sessionOk r0 → sessionOk s →
  ∃ s' n', step rnd r0 ev (s, n) = Some (s', n') ∧ sessionOk s'
           ∧ (isRestart ev = false → (score s <= score s')%Z ∧ (lines s <= lines s')%Z).
Proof. intros Hr0 Hs. by apply commit_sessionOk. Qed.

Lemma timerOk_after (s : State) (ev : Event) t :
  sessionOk s → timerOk t → timerOk (timerAfter s ev t).
Proof.
  intros Hs Ht r b. destruct ev as [|code|g|n|b'| |]; cbn [timerAfter]; try apply Ht.
  - destruct (repeats b') eqn:Hb'; [|apply Ht]. by intros [= <- <-].
  - done.
Qed.

(** One event of a session, with the timer: also the function that the
    timer runs is one of a render of the session. *)
Lemma stepT_sessionOk rnd (r0 s : State) (n : nat) t (ev : Event) :
  sessionOk r0 → sessionOk s → timerOk t →
  ∃ s' n' t', stepT rnd r0 ev (s, n, t) = Some (s', n', t') ∧ sessionOk s' ∧ timerOk t'
              ∧ (isRestart ev = false →
                 (score s <= score s')%Z ∧ (lines s <= lines s')%Z).
Proof.
  intros Hr0 Hs Ht. unfold stepT. cbn [fst snd].
  assert (Hrun : sessionOk (runs s ev t).1
                 ∧ (isRestart ev = false → isRestart (runs s ev t).2 = false)).
  { unfold runs. destruct ev; try done. destruct t as [[r b]|]; [|done].
    destruct (Ht r b eq_refl) as [Hr Hb]. split; [done|]. intros _. by destruct b. }
  destruct Hrun as [Hr Hev].
  destruct (commit_sessionOk rnd r0 _ s n (runs s ev t).2 Hr0 Hr Hs)
    as (s' & n' & -> & Hs' & Hmono).
  exists s', n', (timerAfter s ev t). split; [done|]. split; [done|].
  split; [by apply timerOk_after|]. intros Hno. by apply Hmono, Hev.
Qed.

Lemma steps_sessionOk rnd (r0 : State) (evs : list Event) (s : State) (n : nat) t :
  sessionOk r0 → sessionOk s → timerOk t →
  ∃ s' n' t', steps rnd r0 evs (s, n, t) = Some (s', n', t') ∧ sessionOk s' ∧ timerOk t'.
Proof.
  intros Hr0. revert s n t. induction evs as [|ev evs IH]; intros s n t Hs Ht; cbn [steps].
  - by exists s, n, t.
  - destruct (stepT_sessionOk rnd r0 s n t ev Hr0 Hs Ht) as (s1 & n1 & t1 & -> & Hs1 & Ht1 & _).
    by apply IH.
Qed.

Lemma timerOk_None : timerOk None.
Proof. by intros r b. Qed.

Lemma firstRender_sessionOk rnd :
  ∃ r0 n0, firstRender rnd = Some (r0, n0) ∧ sessionOk r0
           ∧ active r0 = None ∧ hold r0 = None ∧ board r0 = emptyBoard ROWS COLS.
Proof.
  unfold firstRender, initial. act_unfold.
  destruct (bag_total rnd (mkPending (mkState [] None [] [] true 0 0 1 None true) 0 []))
    as [q Hq].
  rewrite Hq. cbn [st calls deferred].
  match goal with
  | |- context [bag rnd ?X] => destruct (bag_total rnd X) as [nb Hnb]; rewrite Hnb
  end.
  eexists _, _. split; [done|]. cbn. split; [|done].
  apply shuffle_Permutation in Hq, Hnb. destruct (bag_like q Hq) as [? ?].
  split_and!; try done; try lia. apply wfBoard_emptyBoard.
Qed.

Lemma steps_app rnd (r0 : State) (evs1 evs2 : list Event) snt :
  steps rnd r0 (evs1 ++ evs2) snt
  = match steps rnd r0 evs1 snt with
    | None => None
    | Some snt' => steps rnd r0 evs2 snt'
    end.
Proof.
  revert snt. induction evs1 as [|ev evs1 IH]; intros snt; [done|].
  cbn [app steps]. destruct (stepT rnd r0 ev snt); [apply IH|done].
Qed.

(** X7.  With an entropy source in [0, 1), as [Math.random] is (there the
    swap of the shuffle is the one of the code), a session never raises an
    exception, whatever the events, and in every state it reaches the
    grid has 20 rows of 10 cells and no full row, the queue is non-empty
    and holds no kind twice, the next bag is a permutation of the seven
    kinds, the active piece (when there is one) has a rectangular matrix
    with an occupied cell, score and lines are not negative and the level
    is at least 1. *)
Theorem session_never_fails rnd (evs : list Event) :
  (∀ k, (0 <= rnd k)%Q ∧ (rnd k < 1)%Q) →
  ∃ s n, play rnd evs = Some (s, n) ∧ sessionOk s.
Proof.
  intros _. unfold play.
  destruct (firstRender_sessionOk rnd) as (r0 & n0 & -> & Hr0 & _).
  destruct (steps_sessionOk rnd r0 evs r0 n0 None Hr0 Hr0 timerOk_None)
    as (s & n & t & -> & Hs & _).
  by exists s, n.
Qed.

Lemma session_never_fails_witness :
  (∀ k, (0 <= noEntropy k)%Q ∧ (noEntropy k < 1)%Q)
  ∧ ∃ s n, play noEntropy stackToTop = Some (s, n) ∧ sessionOk s.
Proof.
  assert (H : ∀ k, (0 <= noEntropy k)%Q ∧ (noEntropy k < 1)%Q).
  { intros k. unfold noEntropy, Qle, Qlt. simpl. lia. }
  split; [exact H|]. exact (session_never_fails noEntropy stackToTop H).
Defined.

(** X8.  In a session no event other than a restart (the key R, the
    Restart button) lowers the score or the number of lines. *)
Theorem score_never_drops rnd (evs : list Event) (ev : Event) (s : State) (n : nat) :
  play rnd evs = Some (s, n) → isRestart ev = false →
  ∃ s' n', play rnd (evs ++ [ev]) = Some (s', n')
           ∧ (score s <= score s')%Z ∧ (lines s <= lines s')%Z.
Proof.
  unfold play. destruct (firstRender_sessionOk rnd) as (r0 & n0 & -> & Hr0 & _).
  destruct (steps_sessionOk rnd r0 evs r0 n0 None Hr0 Hr0 timerOk_None)
    as (s1 & n1 & t & Hsteps & Hs & Ht).
  rewrite steps_app, Hsteps. cbn [steps fmap option_fmap option_map fst].
  intros [= -> ->] Hev.
  destruct (stepT_sessionOk rnd r0 s n t ev Hr0 Hs Ht) as (s' & n' & t' & -> & _ & _ & Hmono).
  exists s', n'. split; [done|]. by apply Hmono.
Qed.

Lemma score_never_drops_witness :
  ∃ s n s' n',
    play noEntropy [Mount] = Some (s, n)
    ∧ play noEntropy ([Mount] ++ [Key Space]) = Some (s', n')
    ∧ (score s <= score s')%Z ∧ (lines s <= lines s')%Z.
Proof.
  destruct (play noEntropy [Mount]) as [[s n]|] eqn:Hplay; [|by vm_compute in Hplay].
  destruct (score_never_drops noEntropy [Mount] (Key Space) s n Hplay eq_refl)
    as (s' & n' & Hplay' & Hscore & Hlines).
  exists s, n, s', n'. split; [reflexivity|]. split; [exact Hplay'|].
  split; [exact Hscore|exact Hlines].
Defined.

(** ** Moving the active piece *)

Lemma free_negb (b : Board) (p : Piece.t) (hit : bool) :
  collides b p = Some hit → free b p = negb hit.
Proof.
  intros Hhit. unfold free. rewrite Hhit. destruct hit.
  - by apply bool_decide_eq_false_2.
  - by apply bool_decide_eq_true_2.
Qed.

(** [tryMove] on the pending state [w], called by the render [r]. *)
Lemma tryMove_run (r : State) (a : Piece.t) (dx dy : Z) (m : Matrix) rnd w :
  active r = Some a → wfBoard (board r) →
  tryMove r dx dy m rnd w =
    Some ((), if free (board r) (moved a dx dy m)
              then mkPending (withActive (st w) (Some (moved a dx dy m)))
                             (calls w) (deferred w)
              else w).
Proof.
  intros Ha Hwf. unfold tryMove. rewrite Ha.
  destruct (collides_total (board r) (moved a dx dy m) Hwf) as [hit Hhit].
  rewrite (bind_try _ hit) by done. rewrite (free_negb _ _ hit) by done.
  by destruct hit.
Qed.

(** [softDrop] on the pending state [w], called by the render [r]. *)
Lemma softDrop_run (r : State) (a : Piece.t) rnd w :
  active r = Some a → wfBoard (board r) →
  softDrop r rnd w =
    Some ((), if free (board r) (moved a 0 1 (Piece.m a))
              then mkPending (withActiveScore (st w) (Some (moved a 0 1 (Piece.m a)))
                                              (score (st w) + 1))
                             (calls w) (deferred w)
              else w).
Proof.
  intros Ha Hwf. unfold softDrop. rewrite Ha.
  destruct (collides_total (board r) (moved a 0 1 (Piece.m a)) Hwf) as [hit Hhit].
  rewrite (bind_try _ hit) by done. rewrite (free_negb _ _ hit) by done.
  by destruct hit.
Qed.

(** [stepDown] on the pending state [w] when the piece of the render [r]
    can move down. *)
Lemma stepDown_run_free (r : State) (a : Piece.t) rnd w :
  active r = Some a → free (board r) (moved a 0 1 (Piece.m a)) = true →
  stepDown r rnd w =
    Some ((), mkPending (withActive (st w) (Some (moved a 0 1 (Piece.m a))))
                        (calls w) (deferred w)).
Proof.
  intros Ha Hfree. apply bool_decide_eq_true_1 in Hfree.
  unfold stepDown. rewrite Ha. by rewrite (bind_try _ false).
Qed.

(** [rotate] on the pending state [w], called by the render [r]. *)
Lemma rotate_run (r : State) (a : Piece.t) rotFn (rotated : Matrix) rnd w :
  active r = Some a → rotFn (Piece.m a) = Some rotated → wfBoard (board r) →
  rotate r rotFn rnd w =
    Some ((), match find (fits (board r) a rotated) kicks with
              | Some dx => mkPending (withActive (st w) (Some (moved a dx 0 rotated)))
                                     (calls w) (deferred w)
              | None => w
              end).
Proof.
  intros Ha Hrot Hwf. unfold rotate. rewrite Ha. rewrite (bind_try _ rotated) by done.
  by apply tryKicks_spec.
Qed.

Lemma movedClear_refl (s : State) (a : Piece.t) : active s = Some a → movedClear s s a.
Proof.
  intros Ha. split; [done|]. split; [lia|]. exists a. split_and!; try done. by left.
Qed.

Lemma movedClear_tryMove rnd n (s : State) (a : Piece.t) (dx dy : Z) :
  active s = Some a → wfBoard (board s) →
  ∃ s', commit rnd n (tryMove s dx dy (Piece.m a)) s = Some (s', n) ∧ movedClear s s' a.
Proof.
  intros Ha Hwf.
  destruct (free (board s) (moved a dx dy (Piece.m a))) eqn:Hfree.
  - exists (withActive s (Some (moved a dx dy (Piece.m a)))). split.
    + apply commit_plain. rewrite (tryMove_run s a) by done. by rewrite Hfree.
    + split; [done|]. split; [cbn; lia|]. eexists. split_and!; try done. by right.
  - exists s. split; [|by apply movedClear_refl].
    apply commit_plain. rewrite (tryMove_run s a) by done. by rewrite Hfree.
Qed.

Lemma movedClear_softDrop rnd n (s : State) (a : Piece.t) :
  active s = Some a → wfBoard (board s) →
  ∃ s', commit rnd n (softDrop s) s = Some (s', n) ∧ movedClear s s' a.
Proof.
  intros Ha Hwf.
  destruct (free (board s) (moved a 0 1 (Piece.m a))) eqn:Hfree.
  - exists (withActiveScore s (Some (moved a 0 1 (Piece.m a))) (score s + 1)). split.
    + apply commit_plain. rewrite (softDrop_run s a) by done. by rewrite Hfree.
    + split; [done|]. split; [cbn; lia|]. eexists. split_and!; try done. by right.
  - exists s. split; [|by apply movedClear_refl].
    apply commit_plain. rewrite (softDrop_run s a) by done. by rewrite Hfree.
Qed.

Lemma movedClear_softDrop_twice rnd n (s : State) (a : Piece.t) :
  active s = Some a → wfBoard (board s) →
  ∃ s', commit rnd n (softDrop s;; softDrop s) s = Some (s', n) ∧ movedClear s s' a.
Proof.
  intros Ha Hwf.
  destruct (free (board s) (moved a 0 1 (Piece.m a))) eqn:Hfree.
  - exists (withActiveScore s (Some (moved a 0 1 (Piece.m a))) (score s + 1 + 1)). split.
    + apply commit_plain. unfold mbind, Act_bind.
      rewrite (softDrop_run s a) by done. rewrite Hfree.
      rewrite (softDrop_run s a) by done. by rewrite Hfree.
    + split; [done|]. split; [cbn; lia|]. eexists. split_and!; try done. by right.
  - exists s. split; [|by apply movedClear_refl].
    apply commit_plain. unfold mbind, Act_bind.
    rewrite (softDrop_run s a) by done. rewrite Hfree.
    rewrite (softDrop_run s a) by done. by rewrite Hfree.
Qed.

Lemma movedClear_rotate rnd n (s : State) (a : Piece.t) rotFn :
  active s = Some a → wfBoard (board s) →
  (∃ rot, rotFn (Piece.m a) = Some rot) →
  ∃ s', commit rnd n (rotate s rotFn) s = Some (s', n) ∧ movedClear s s' a.
Proof.
  intros Ha Hwf [rot Hrot]. rewrite (rotate_spec rnd n s a rotFn rot) by done.
  destruct (find (fits (board s) a rot) kicks) as [dx|] eqn:Hfind.
  - eexists. split; [done|]. apply find_some in Hfind as [_ Hfits].
    split; [done|]. split; [cbn; lia|]. eexists. split_and!; try done. by right.
  - eexists. split; [done|]. by apply movedClear_refl.
Qed.

(** X9.  The events that move, soft-drop or rotate the piece and that the
    current render handles (arrow keys, X, Z, a tap, a swipe to the left,
    to the right or down, a click on a rotation button, and a press of ◀,
    ▶ or ⬇, which is the first call of [startHold]) never fail, draw no
    random number, leave the grid, the queue, the hold slot, the lines and
    the level as they are and add at most 2 to the score; the active piece
    keeps its kind and colour and is either unchanged or in a position in
    which it does not collide.  The later calls of a held button are those
    of the render of the press and are not among these events. *)
Theorem motion_never_overlaps rnd (r0 s : State) (n : nat) (a : Piece.t) (ev : Event) :
  wfBoard (board s) → active s = Some a → goodPiece a → isMotion ev = true →
  ∃ s', step rnd r0 ev (s, n) = Some (s', n) ∧ movedClear s s' a.
Proof.
  intros Hwf Ha Hgood Hev.
  assert (Hcw : ∃ rot, rotateMatrixCW (Piece.m a) = Some rot).
  { destruct (goodPiece_rotateCW a Hgood) as (rot & Hrot & _). by exists rot. }
  assert (Hccw : ∃ rot, rotateMatrixCCW (Piece.m a) = Some rot).
  { destruct (goodPiece_rotateCCW a Hgood) as (rot & Hrot & _). by exists rot. }
  assert (Hidle : ∃ s', commit rnd n (mret ()) s = Some (s', n) ∧ movedClear s s' a).
  { exists s. split; [done|]. by apply movedClear_refl. }
  unfold step. cbn [fst snd].
  destruct ev as [|code|g|k|b| |]; try discriminate Hev; cbn [handler].
  - unfold onKey. rewrite Ha.
    destruct code; try discriminate Hev; destruct (running s); cbn [negb]; try exact Hidle.
    + by apply movedClear_tryMove.
    + by apply movedClear_tryMove.
    + by apply movedClear_softDrop.
    + by apply movedClear_rotate.
    + by apply movedClear_rotate.
    + by apply movedClear_rotate.
  - unfold onCanvasTouchEnd. rewrite Ha.
    destruct g; try discriminate Hev; destruct (running s); cbn [negb]; try exact Hidle.
    + by apply movedClear_rotate.
    + by apply movedClear_tryMove.
    + by apply movedClear_tryMove.
    + by apply movedClear_softDrop_twice.
  - unfold onButton.
    destruct b; try discriminate Hev; rewrite ?Ha.
    + by apply movedClear_tryMove.
    + by apply movedClear_tryMove.
    + by apply movedClear_softDrop.
    + by apply movedClear_rotate.
    + by apply movedClear_rotate.
Qed.

Lemma goodPiece_pieceO : goodPiece pieceO.
Proof. by apply (goodPiece_spawnPiece kO). Qed.

Lemma motion_never_overlaps_witness :
  ∃ s', step noEntropy startState (Key ArrowLeft) (startState, 0) = Some (s', 0)
        ∧ movedClear startState s' pieceO.
Proof.
  apply (motion_never_overlaps noEntropy startState startState 0 pieceO (Key ArrowLeft)).
  - apply wfBoard_emptyBoard.
  - reflexivity.
  - exact goodPiece_pieceO.
  - reflexivity.
Defined.

(** X10.  A swipe down calls [softDrop] twice, and both calls read the
    piece of the same render: when the row below is free the piece goes
    down one row, not two, and the score rises by 2. *)
Theorem swipe_down_one_row_two_points rnd (r0 s : State) (n : nat) (a : Piece.t) :
  wfBoard (board s) → active s = Some a → running s = true →
  free (board s) (moved a 0 1 (Piece.m a)) = true →
  step rnd r0 (Touch SwipeDown) (s, n) =
    Some (withActiveScore s (Some (moved a 0 1 (Piece.m a))) (score s + 2), n).
Proof.
  intros Hwf Ha Hrun Hfree. unfold step. cbn [fst snd handler].
  unfold onCanvasTouchEnd. rewrite Ha, Hrun. cbn [negb].
  apply commit_plain. unfold mbind, Act_bind.
  rewrite (softDrop_run s a) by done. rewrite Hfree.
  rewrite (softDrop_run s a) by done. rewrite Hfree.
  unfold withActiveScore. cbn. do 4 f_equal. lia.
Qed.

Lemma swipe_down_one_row_two_points_witness :
  step noEntropy startState (Touch SwipeDown) (startState, 0) =
    Some (withActiveScore startState (Some (moved pieceO 0 1 (Piece.m pieceO))) (0 + 2), 0).
Proof.
  apply (swipe_down_one_row_two_points noEntropy startState startState 0 pieceO).
  - apply wfBoard_emptyBoard.
  - reflexivity.
  - reflexivity.
  - vm_compute. reflexivity.
Defined.

(** The gravity ticks of one frame on a piece that can move down: each
    sets the same piece. *)
Lemma ticks_run_free (r : State) (a : Piece.t) (k : nat) rnd w :
  active r = Some a → free (board r) (moved a 0 1 (Piece.m a)) = true →
  ticks r (S k) rnd w =
    Some ((), mkPending (withActive (st w) (Some (moved a 0 1 (Piece.m a))))
                        (calls w) (deferred w)).
Proof.
  intros Ha Hfree. revert w. induction k as [|k IH]; intros w.
  - cbn [ticks]. unfold mbind, Act_bind. by rewrite (stepDown_run_free r a).
  - change (ticks r (S (S k))) with (stepDown r;; ticks r (S k)).
    unfold mbind, Act_bind. rewrite (stepDown_run_free r a) by done.
    by rewrite IH.
Qed.

(** X11.  A frame of the loop moves a piece that can move down by one row,
    however many gravity ticks the frame runs, since every [stepDown] of
    the frame reads the same render; it changes nothing else.  A frame
    without a tick, and any frame while the game is paused, changes
    nothing. *)
Theorem frame_falls_one_row rnd (r0 s : State) (n : nat) (a : Piece.t) (k : nat) :
  active s = Some a → free (board s) (moved a 0 1 (Piece.m a)) = true →
  step rnd r0 (Frame k) (s, n) =
    Some (if running s && bool_decide (0 < k)
          then withActive s (Some (moved a 0 1 (Piece.m a)))
          else s, n).
Proof.
  intros Ha Hfree. unfold step. cbn [fst snd handler]. unfold loop.
  destruct (running s); cbn [negb andb]; [|done].
  destruct k as [|k]; [done|].
  rewrite bool_decide_eq_true_2 by lia.
  apply commit_plain. by rewrite (ticks_run_free s a).
Qed.

Lemma frame_falls_one_row_witness :
  step noEntropy startState (Frame 3) (startState, 0) =
    Some (withActive startState (Some (moved pieceO 0 1 (Piece.m pieceO))), 0).
Proof.
  apply (frame_falls_one_row noEntropy startState startState 0 pieceO 3).
  - reflexivity.
  - vm_compute. reflexivity.
Defined.

(** ** The ghost and the hard drop *)

(** X12.  [getGhost] returns the piece moved straight down, with the same
    column, matrix, colour and kind: every position it passes on the way
    is free, and one row below the ghost the piece collides. *)
Theorem getGhost_lands (r : State) (p : Piece.t) :
  wfBoard (board r) → goodPiece p →
  ∃ g, getGhost r p = Some g
       ∧ Piece.x g = Piece.x p ∧ Piece.m g = Piece.m p
       ∧ Piece.c g = Piece.c p ∧ Piece.k g = Piece.k p
       ∧ (Piece.y p <= Piece.y g)%Z
       ∧ free (board r) (moved g 0 1 (Piece.m g)) = false
       ∧ ∀ i, (0 < i <= Piece.y g - Piece.y p)%Z →
              free (board r) (moved p 0 i (Piece.m p)) = true.
Proof.
  intros Hwf (h & w & _ & _ & _ & y & x & Hocc).
  destruct (dropLoop_spec (board r) y x (dropFuel p) p 0 Hwf Hocc)
    as (g & d & Hd & Hle & Hx & Hy & Hm & Hc & Hk & Hstop & Hfree).
  { unfold dropFuel. lia. }
  { unfold dropFuel. lia. }
  exists g. unfold getGhost. rewrite Hd. split; [done|]. do 4 (split; [done|]).
  split; [lia|]. split.
  - by rewrite (free_negb _ _ true).
  - intros i Hi. rewrite (free_negb _ _ false); [done|]. apply Hfree. lia.
Qed.

Lemma getGhost_lands_witness :
  ∃ g, getGhost startState pieceO = Some g
       ∧ Piece.x g = Piece.x pieceO ∧ Piece.m g = Piece.m pieceO
       ∧ Piece.c g = Piece.c pieceO ∧ Piece.k g = Piece.k pieceO
       ∧ (Piece.y pieceO <= Piece.y g)%Z
       ∧ free (board startState) (moved g 0 1 (Piece.m g)) = false
       ∧ ∀ i, (0 < i <= Piece.y g - Piece.y pieceO)%Z →
              free (board startState) (moved pieceO 0 i (Piece.m pieceO)) = true.
Proof.
  apply (getGhost_lands startState pieceO).
  - apply wfBoard_emptyBoard.
  - exact goodPiece_pieceO.
Defined.

(** X13.  [hardDrop] locks the piece where [getGhost] draws the ghost: the
    grid after it is the grid with the ghost merged and the full rows
    cleared, and the score rises by twice the number of rows between the
    piece and its ghost, plus the points for the rows cleared. *)
Theorem hardDrop_locks_the_ghost rnd n (s : State) (a : Piece.t) key rest :
  active s = Some a → wfBoard (board s) → queue s = key :: rest → goodPiece a →
  ∃ g merged cb cleared s' n',
    getGhost s a = Some g
    ∧ mergePiece (board s) g = Some merged
    ∧ clearLines merged = Some (cb, cleared)
    ∧ commit rnd n (hardDrop s) s = Some (s', n')
    ∧ board s' = cb
    ∧ score s' = (score s + 2 * (Piece.y g - Piece.y a) + points cleared * level s)%Z.
Proof.
  intros Ha Hwf Hq Hgood. pose proof Hgood as (h & w & _ & _ & _ & y & x & Hocc).
  destruct (hardDrop_spec rnd n s a key rest Ha Hwf Hq)
    as (g & dist & merged & cb & cleared & s' & n' & Hd & Hm & Hc & Hcommit & Hb & Hp).
  { by exists y, x. }
  destruct (dropLoop_spec (board s) y x (dropFuel a) a 0 Hwf Hocc)
    as (g' & d' & Hd' & _ & _ & Hy & _).
  { unfold dropFuel. lia. }
  { unfold dropFuel. lia. }
  rewrite Hd in Hd'. injection Hd' as <- <-.
  exists g, merged, cb, cleared, s', n'. unfold getGhost. rewrite Hd.
  do 5 (split; [done|]). destruct Hp as (-> & _). lia.
Qed.

Lemma hardDrop_locks_the_ghost_witness :
  ∃ g merged cb cleared s' n',
    getGhost startState pieceO = Some g
    ∧ mergePiece (board startState) g = Some merged
    ∧ clearLines merged = Some (cb, cleared)
    ∧ commit noEntropy 0 (hardDrop startState) startState = Some (s', n')
    ∧ board s' = cb
    ∧ score s' = (score startState + 2 * (Piece.y g - Piece.y pieceO)
                  + points cleared * level startState)%Z.
Proof.
  apply (hardDrop_locks_the_ghost noEntropy 0 startState pieceO kT [kS]).
  - reflexivity.
  - apply wfBoard_emptyBoard.
  - reflexivity.
  - exact goodPiece_pieceO.
Defined.

(** ** The spawn after a lock *)

(** The updater of [spawn], with the bag it deals when it takes the last
    kind of the queue. *)
Lemma spawnUpdater_run (r : State) (resetAcc : bool) rnd w key rest :
  queue r = key :: rest → wfBoard (board r) →
  ∃ piece hit nb n',
    spawnPiece key = Some piece
    ∧ collides (board r) piece = Some hit
    ∧ (if bool_decide (length rest = 0) then nb ≡ₚ ORDER else nb = nextBag (st w))
    ∧ spawnUpdater r resetAcc rnd w =
        Some ((), mkPending
                    (mkState (board (st w)) (Some piece)
                             (if bool_decide (length rest = 0) then nextBag r else rest) nb
                             (if hit then false else running (st w))
                             (score (st w)) (lines (st w)) (level (st w))
                             (hold (st w)) true)
                    n' (deferred w)).
Proof.
  intros Hq Hwf. destruct (spawnPiece_total key) as [piece Hpiece].
  destruct (collides_total (board r) piece Hwf) as [hit Hhit].
  unfold spawnUpdater. rewrite Hq. cbn [head tail].
  destruct (bool_decide (length rest = 0)).
  - destruct (bag_total rnd w) as [nb Hnb].
    exists piece, hit, nb, (6 + calls w). do 2 (split; [done|]).
    split; [by apply shuffle_Permutation in Hnb|].
    act_unfold. rewrite Hnb. cbv beta iota. rewrite Hpiece. cbv beta iota.
    rewrite Hhit. by destruct hit.
  - exists piece, hit, (nextBag (st w)), (calls w). do 3 (split; [done|]).
    act_unfold. cbv beta iota. rewrite Hpiece. cbv beta iota.
    rewrite Hhit. by destruct hit.
Qed.

(** The lock sequence and the updater it queues, from a pending state
    with no updater queued. *)
Lemma lock_flush_run (r : State) (p : Piece.t) rnd (s : State) (n : nat) key rest piece :
  wfBoard (board r) → queue r = key :: rest → spawnPiece key = Some piece →
  ∃ s' n',
    (lock r p;; flush) rnd (mkPending s n []) = Some ((), mkPending s' n' [])
    ∧ active s' = Some piece
    ∧ canHold s' = true
    ∧ hold s' = hold s
    ∧ queue s' = (if bool_decide (length rest = 0) then nextBag r else rest)
    ∧ (if bool_decide (length rest = 0) then nextBag s' ≡ₚ ORDER
       else nextBag s' = nextBag s)
    ∧ running s' = running s && free (board r) piece.
Proof.
  intros Hwf Hq Hpiece.
  destruct (lock_spec r p rnd (mkPending s n []) Hwf)
    as (merged & cb & cleared & _ & _ & _ & Hlock).
  unfold mbind, Act_bind. rewrite Hlock.
  cbn [st calls deferred app]. unfold flush. cbn [deferred st calls runUpdaters].
  destruct (spawnUpdater_run r true rnd
              (mkPending
                 (mkState cb (active s) (queue s) (nextBag s) (running s)
                    (score s + scoreFor (level r) cleared) (lines s + cleared)
                    (if (cleared >? 0)%Z then (1 + (lines r + cleared) / 10)%Z
                     else level s) (hold s) (canHold s)) n []) key rest Hq Hwf)
    as (piece' & hit & nb & n' & Hpiece' & Hhit & Hnb & Hsp).
  assert (piece' = piece) as -> by congruence.
  unfold mbind, Act_bind. rewrite Hsp. cbn [mret Act_ret].
  eexists _, _. split; [done|]. cbn. do 4 (split; [done|]). split; [done|].
  rewrite (free_negb _ _ hit) by done. destruct hit, (running s); done.
Qed.

(** X14.  After a lock, by [hardDrop] or by [stepDown] on a piece that
    cannot move down, the spawn piece of the head of the queue is active
    and a hold is allowed again; the queue is its tail, or the next bag
    when the tail is empty, and a new bag is then dealt.  The game stops
    exactly when that piece collides with the grid of the render that
    locked, the grid before the locked piece was merged. *)
Theorem lock_respawns_against_old_grid rnd n (s : State) (a : Piece.t) key rest piece :
  active s = Some a → wfBoard (board s) → queue s = key :: rest → goodPiece a →
  spawnPiece key = Some piece →
  (∃ s' n', commit rnd n (hardDrop s) s = Some (s', n') ∧ respawned s s' rest piece)
  ∧ (free (board s) (moved a 0 1 (Piece.m a)) = false →
     ∃ s' n', commit rnd n (stepDown s) s = Some (s', n') ∧ respawned s s' rest piece).
Proof.
  intros Ha Hwf Hq Hgood Hpiece. split.
  - destruct (goodPiece_dropped (board s) a Hwf Hgood) as (g & dist & Hd & _ & _).
    destruct (lock_flush_run s g rnd
                (mkState (board s) (Some g) (queue s) (nextBag s) (running s)
                         (score s + dist * 2) (lines s) (level s) (hold s) (canHold s))
                n key rest piece Hwf Hq Hpiece) as (s' & n' & Hrun & Hres).
    exists s', n'. split; [|exact Hres].
    unfold commit, hardDrop. rewrite Ha.
    unfold mbind at 1, Act_bind at 1. rewrite (bind_try _ (g, dist)) by done.
    cbn [fst snd]. unfold mbind at 1 2, Act_bind at 1 2, setActive, setScore, modify.
    cbn [st calls deferred board active queue nextBag running score lines level hold
         canHold].
    unfold mbind, Act_bind in Hrun. by rewrite Hrun.
  - intros Hfree.
    destruct (collides_total (board s) (moved a 0 1 (Piece.m a)) Hwf) as [hit Hhit].
    rewrite (free_negb _ _ hit) in Hfree by done. destruct hit; [|done].
    destruct (lock_flush_run s a rnd s n key rest piece Hwf Hq Hpiece)
      as (s' & n' & Hrun & Hres).
    exists s', n'. split; [|exact Hres].
    unfold commit, stepDown. rewrite Ha.
    unfold mbind at 1, Act_bind at 1. rewrite (bind_try _ true) by done. cbn [negb].
    unfold mbind, Act_bind in Hrun. by rewrite Hrun.
Qed.

Lemma wfBoard_towerBoard : wfBoard towerBoard.
Proof. split; [done|]. repeat constructor. Qed.

(** On the tower the O-piece locks where it spawned, under the T-piece
    that comes next: the T-piece collides with the new grid, and the game
    goes on. *)
Lemma lock_respawns_against_old_grid_witness :
  ∃ piece s' n',
    spawnPiece kT = Some piece
    ∧ commit noEntropy 0 (hardDrop towerState) towerState = Some (s', n')
    ∧ respawned towerState s' [kS] piece
    ∧ free (board s') piece = false
    ∧ running s' = true.
Proof.
  destruct (spawnPiece kT) as [piece|] eqn:Hpiece; [|by vm_compute in Hpiece].
  destruct (lock_respawns_against_old_grid noEntropy 0 towerState pieceO kT [kS] piece
              eq_refl wfBoard_towerBoard eq_refl goodPiece_pieceO Hpiece)
    as [(s' & n' & Hcommit & Hres) _].
  exists piece, s', n'. split; [reflexivity|]. split; [exact Hcommit|].
  split; [exact Hres|].
  vm_compute in Hpiece. injection Hpiece as <-.
  vm_compute in Hcommit. injection Hcommit as <- <-.
  split; vm_compute; reflexivity.
Defined.

(** ** Restarting *)

Lemma bind_run {A B} (act : Act A) (f : A → Act B) rnd w a w' :
  act rnd w = Some (a, w') → (act ≫= f) rnd w = f a rnd w'.
Proof. intros Hact. unfold mbind, Act_bind. by rewrite Hact. Qed.

(** Run the setter at the head of a sequence of actions. *)
Local Ltac run_setter :=
  erewrite bind_run by reflexivity;
  cbn [st calls deferred board active queue nextBag running score lines level hold
       canHold].

(** The updates that [reset] queues, before the updater of its [spawn]
    runs. *)
Lemma reset_run (r0 : State) rnd w :
  ∃ q nb, q ≡ₚ ORDER ∧ nb ≡ₚ ORDER
    ∧ reset r0 rnd w =
        Some ((), mkPending (mkState (emptyBoard ROWS COLS) None q nb true 0 0 1 None true)
                            (12 + calls w) (deferred w ++ [(r0, true)])).
Proof.
  unfold reset. run_setter.
  match goal with
  | |- context [(bag ≫= _) rnd ?X] => destruct (bag_total rnd X) as [q Hq]
  end.
  rewrite (bind_run _ _ _ _ _ _ Hq). cbn [st calls deferred]. run_setter.
  match goal with
  | |- context [(bag ≫= _) rnd ?X] => destruct (bag_total rnd X) as [nb Hnb]
  end.
  rewrite (bind_run _ _ _ _ _ _ Hnb). cbn [st calls deferred].
  do 8 run_setter.
  exists q, nb. apply shuffle_Permutation in Hq, Hnb. do 2 (split; [done|]).
  unfold spawn. cbn. do 3 f_equal.
Qed.

(** Every spawn piece is clear of the empty grid. *)
Lemma spawnPiece_free_empty (key : Kind) (piece : Piece.t) :
  spawnPiece key = Some piece → collides (emptyBoard ROWS COLS) piece = Some false.
Proof.
  intros Hpiece. apply collides_false_iff; [apply wfBoard_emptyBoard|].
  intros y x Hocc Hh.
  destruct (spawnPiece_area key piece y x Hpiece Hocc) as [Hy Hx].
  unfold hits, COLS, ROWS in Hh. cbn zeta in Hh.
  destruct Hh as [?|[?|[?|[_ Hf]]]]; [lia..|]. by apply emptyBoard_not_filled in Hf.
Qed.

(** [reset] and the updater of its [spawn], which is the [spawn] of the
    first render [r0]. *)
Lemma reset_commit rnd n (r0 s : State) key k2 rest piece :
  board r0 = emptyBoard ROWS COLS → queue r0 = key :: k2 :: rest →
  spawnPiece key = Some piece →
  ∃ nb n', nb ≡ₚ ORDER
    ∧ commit rnd n (reset r0) s =
        Some (mkState (emptyBoard ROWS COLS) (Some piece) (k2 :: rest) nb true 0 0 1
                      None true, n').
Proof.
  intros Hb Hq Hpiece.
  destruct (reset_run r0 rnd (mkPending s n [])) as (q & nb & _ & Hnb & Hrun).
  exists nb. unfold commit. rewrite (bind_run _ _ _ _ _ _ Hrun).
  cbn [st calls deferred app]. unfold flush. cbn [deferred st calls runUpdaters].
  assert (Hwf : wfBoard (board r0)) by (rewrite Hb; apply wfBoard_emptyBoard).
  match goal with
  | |- context [(spawnUpdater r0 true ≫= _) rnd ?X] =>
      destruct (spawnUpdater_run r0 true rnd X key (k2 :: rest) Hq Hwf)
        as (piece' & hit & nb' & n' & Hpiece' & Hhit & Hnb' & Hsp)
  end.
  assert (piece' = piece) as -> by congruence.
  rewrite Hb, (spawnPiece_free_empty key piece Hpiece) in Hhit. injection Hhit as <-.
  assert (bool_decide (length (k2 :: rest) = 0) = false) as Hne by done.
  rewrite Hne in Hnb', Hsp. cbn [st nextBag] in Hnb'. subst nb'.
  exists n'. rewrite (bind_run _ _ _ _ _ _ Hsp). done.
Qed.

Lemma firstRender_queue rnd :
  ∃ r0 n0, firstRender rnd = Some (r0, n0) ∧ queue r0 ≡ₚ ORDER
           ∧ board r0 = emptyBoard ROWS COLS.
Proof.
  unfold firstRender, initial.
  match goal with
  | |- context [(bag ≫= _) rnd ?X] => destruct (bag_total rnd X) as [q Hq]
  end.
  rewrite (bind_run _ _ _ _ _ _ Hq). cbn [st calls deferred].
  match goal with
  | |- context [(bag ≫= _) rnd ?X] => destruct (bag_total rnd X) as [nb Hnb]
  end.
  rewrite (bind_run _ _ _ _ _ _ Hnb).
  eexists _, _. split; [done|]. cbn. split; [|done]. by apply shuffle_Permutation in Hq.
Qed.

(** X15.  A restart (the key R while a piece is active, or the Restart
    button) empties the grid, the score, the lines and the hold slot, sets
    the level to 1 and lets the game run.  Its [spawn] is the one of the
    first render: the piece it makes active is the first piece of the
    session and the queue is the rest of the first queue of the session,
    whatever bag [reset] has just dealt; the next bag is a new shuffle. *)
Theorem restart_replays_first_queue rnd (evs : list Event) (ev : Event)
    (s : State) (n : nat) :
  play rnd evs = Some (s, n) → isRestart ev = true → active s ≠ None →
  ∃ r0 n0 key rest piece nb n',
    firstRender rnd = Some (r0, n0)
    ∧ queue r0 = key :: rest
    ∧ spawnPiece key = Some piece
    ∧ nb ≡ₚ ORDER
    ∧ play rnd (evs ++ [ev]) =
        Some (mkState (emptyBoard ROWS COLS) (Some piece) rest nb true 0 0 1 None true, n').
Proof.
  unfold play. destruct (firstRender_queue rnd) as (r0 & n0 & -> & Hperm & Hb).
  destruct (steps rnd r0 evs (r0, n0, None)) as [[[s1 n1] t]|] eqn:Hsteps; [|done].
  cbn [fmap option_fmap option_map fst]. intros [= -> ->] Hev Hact.
  rewrite steps_app, Hsteps. cbn [steps].
  apply Permutation_length in Hperm.
  destruct (queue r0) as [|key [|k2 rest]] eqn:Hq; [done..|].
  destruct (spawnPiece_total key) as [piece Hpiece].
  destruct (reset_commit rnd n r0 s key k2 rest piece Hb Hq Hpiece) as (nb & n' & Hnb & Hc).
  exists r0, n0, key, (k2 :: rest), piece, nb, n'. do 4 (split; [done|]).
  unfold stepT. cbn [fst snd].
  destruct ev as [|code|g|k|b| |]; try discriminate Hev; cbn [runs fst snd].
  - destruct code; try discriminate Hev. cbn [handler]. unfold onKey.
    destruct (active s) as [a|]; [|done]. by rewrite Hc.
  - destruct b; try discriminate Hev. cbn [handler onButton]. by rewrite Hc.
Qed.

Lemma restart_replays_first_queue_witness :
  ∃ r0 n0 key rest piece nb n',
    firstRender noEntropy = Some (r0, n0)
    ∧ queue r0 = key :: rest
    ∧ spawnPiece key = Some piece
    ∧ nb ≡ₚ ORDER
    ∧ play noEntropy ([Mount; Key Space] ++ [Key KeyR]) =
        Some (mkState (emptyBoard ROWS COLS) (Some piece) rest nb true 0 0 1 None true, n').
Proof.
  destruct (play noEntropy [Mount; Key Space]) as [[s n]|] eqn:Hplay;
    [|by vm_compute in Hplay].
  apply (restart_replays_first_queue noEntropy [Mount; Key Space] (Key KeyR) s n Hplay
           eq_refl).
  vm_compute in Hplay. injection Hplay as <- <-. discriminate.
Defined.

(** ** Hold *)

(** X16.  The first hold of a game (empty hold slot) stores the kind of
    the active piece and spawns the head of the queue, with the collision
    test of [spawn] against the grid.  The updater of that [spawn] runs
    after [setCanHold(false)] and sets [canHold] back to true, so the hold
    is not locked: holding again at once swaps the new piece for the
    first, which comes back at its spawn position. *)
Theorem first_hold_stays_open rnd n (s : State) (a : Piece.t) key rest piece :
  active s = Some a → hold s = None → canHold s = true →
  wfBoard (board s) → queue s = key :: rest → spawnPiece key = Some piece →
  ∃ s' n' back,
    commit rnd n (doHold s) s = Some (s', n')
    ∧ heldFirst s s' a rest piece
    ∧ spawnPiece (Piece.k a) = Some back
    ∧ commit rnd n' (doHold s') s' = Some (swapped s' piece back, n').
Proof.
  intros Ha Hh Hc Hwf Hq Hpiece.
  destruct (spawnUpdater_run s true rnd
              (mkPending
                 (mkState (board s) (active s) (queue s) (nextBag s) (running s)
                    (score s) (lines s) (level s) (Some (Piece.k a)) false) n [])
              key rest Hq Hwf)
    as (piece' & hit & nb & n' & Hpiece' & Hhit & _ & Hsp).
  assert (piece' = piece) as -> by congruence.
  cbn [st calls deferred board active queue nextBag running score lines level hold
       canHold] in Hsp.
  assert (Hrun : commit rnd n (doHold s) s =
            Some (mkState (board s) (Some piece)
                    (if bool_decide (length rest = 0) then nextBag s else rest) nb
                    (if hit then false else running s)
                    (score s) (lines s) (level s) (Some (Piece.k a)) true, n')).
  { unfold commit, doHold. rewrite Ha, Hc, Hh. cbn [negb].
    unfold mbind at 1 2 3, Act_bind at 1 2 3, setHold, setCanHold, spawn, modify.
    cbn [st calls deferred board active queue nextBag running score lines level hold
         canHold app].
    unfold flush. cbn [deferred st calls runUpdaters].
    rewrite (bind_run _ _ _ _ _ _ Hsp). done. }
  rewrite Hrun.
  match goal with
  | |- context [Some (?S, n')] =>
      destruct (doHold_swap_spec rnd n' S (Piece.k a) piece eq_refl eq_refl eq_refl)
        as (back & Hback & Hswap)
  end.
  eexists _, n', back. split; [done|]. split; [|by split].
  unfold heldFirst. cbn. do 8 (split; [done|]).
  rewrite (free_negb _ _ hit) by done. destruct hit, (running s); done.
Qed.

Lemma first_hold_stays_open_witness :
  ∃ piece s' n' back,
    spawnPiece kT = Some piece
    ∧ commit noEntropy 0 (doHold startState) startState = Some (s', n')
    ∧ heldFirst startState s' pieceO [kS] piece
    ∧ spawnPiece (Piece.k pieceO) = Some back
    ∧ commit noEntropy n' (doHold s') s' = Some (swapped s' piece back, n').
Proof.
  destruct (spawnPiece kT) as [piece|] eqn:Hpiece; [|by vm_compute in Hpiece].
  destruct (first_hold_stays_open noEntropy 0 startState pieceO kT [kS] piece
              eq_refl eq_refl eq_refl wfBoard_emptyBoard eq_refl Hpiece)
    as (s' & n' & back & H1 & H2 & H3 & H4).
  exists piece, s', n', back. split; [reflexivity|]. split; [exact H1|].
  split; [exact H2|]. split; [exact H3|exact H4].
Defined.

(** ** Pause *)



(** ** The overlay *)

Lemma keeps_pendingActive {A} (act : Act A) rnd w a w' :
  keeps act → act rnd w = Some (a, w') → pendingActive w → pendingActive w'.
Proof.
  intros Hk Hrun Hok. destruct (Hk _ _ _ _ Hrun) as (H1 & _ & H3).
  unfold pendingActive in *. tauto.
Qed.

Lemma doHold_pendingActive (r : State) rnd w a w' :
  doHold r rnd w = Some (a, w') → pendingActive w → pendingActive w'.
Proof.
  unfold doHold. destruct (active r) as [p|]; [|by intros [= <- <-]].
  destruct (canHold r); cbn [negb]; [|by intros [= <- <-]].
  destruct (hold r) as [newK|]; unfold spawn; act_unfold.
  - destruct (spawnPiece newK); [|done]. intros [= <- <-] _. by left.
  - intros [= <- <-] _. right. cbn. by destruct (deferred w).
Qed.

Lemma reset_pendingActive (r0 : State) rnd w a w' :
  reset r0 rnd w = Some (a, w') → pendingActive w'.
Proof.
  destruct (reset_run r0 rnd w) as (q & nb & _ & _ & ->). intros [= <- <-].
  right. cbn. by destruct (deferred w).
Qed.

(** No handler takes the active piece away without queueing a [spawn]. *)
Lemma handler_pendingActive (r0 r : State) (ev : Event) rnd w a w' :
  handler r0 r ev rnd w = Some (a, w') → pendingActive w → pendingActive w'.
Proof.
  assert (Hkeeps : ∀ act : Act unit,
            keeps act → act rnd w = Some (a, w') → pendingActive w → pendingActive w').
  { intros act Hk Hrun. by eapply keeps_pendingActive. }
  destruct ev as [|code|g|n|b| |]; cbn [handler].
  - apply Hkeeps. keeps_tac.
  - unfold onKey. destruct (active r) as [p|]; [|apply Hkeeps; keeps_tac].
    destruct code;
      lazymatch goal with
      | |- reset _ _ _ = _ → _ => intros Hrun _; by eapply reset_pendingActive
      | |- (if _ then _ else doHold _) _ _ = _ → _ =>
          destruct (running r); cbn [negb];
          [apply doHold_pendingActive | apply Hkeeps; keeps_tac]
      | |- _ => apply Hkeeps; unfold rotateCW, rotateCCW; keeps_tac
      end.
  - apply Hkeeps. unfold onCanvasTouchEnd, rotateCW. keeps_tac.
  - apply Hkeeps. unfold loop. keeps_tac.
  - unfold onButton. destruct b;
      lazymatch goal with
      | |- reset _ _ _ = _ → _ => intros Hrun _; by eapply reset_pendingActive
      | |- doHold _ _ _ = _ → _ => apply doHold_pendingActive
      | |- _ => apply Hkeeps; unfold rotateCW, rotateCCW; keeps_tac
      end.
  - apply Hkeeps. keeps_tac.
  - apply Hkeeps. keeps_tac.
Qed.

(** One function run, of any render, leaves an active piece when there
    was one. *)
Lemma commit_active rnd (r0 r : State) (ev : Event) (s : State) n sn' :
  commit rnd n (handler r0 r ev) s = Some sn' → active s ≠ None → active sn'.1 ≠ None.
Proof.
  unfold commit, mbind, Act_bind.
  destruct (handler r0 r ev rnd (mkPending s n [])) as [[[] w1]|] eqn:Hh; [|done].
  destruct (flush rnd w1) as [[[] w2]|] eqn:Hf; [|done].
  intros [= <-] Hact. cbn [fst].
  assert (pendingActive w1) as Hw1.
  { eapply handler_pendingActive; [exact Hh|]. by left. }
  unfold flush in Hf. destruct (runUpdaters_spec _ _ _ _ _ Hf) as [_ Ha].
  apply Ha. exact Hw1.
Qed.

Lemma steps_active rnd (r0 : State) (evs : list Event) snt snt' :
  steps rnd r0 evs snt = Some snt' → active snt.1.1 ≠ None → active snt'.1.1 ≠ None.
Proof.
  apply (steps_invariant (λ s, active s ≠ None)). intros r ev s n sn'.
  apply commit_active.
Qed.

Lemma mount_active rnd (r0 : State) sn sn' :
  step rnd r0 Mount sn = Some sn' → active sn'.1 ≠ None.
Proof.
  destruct (active sn.1) as [p|] eqn:Hact.
  - intros Hstep. eapply commit_active; [exact Hstep|]. by rewrite Hact.
  - unfold step, commit, mbind, Act_bind. cbn [handler]. rewrite Hact.
    unfold spawn at 1. cbn [st calls deferred app].
    destruct (flush rnd _) as [[[] w2]|] eqn:Hf; [|done].
    intros [= <-]. cbn [fst]. unfold flush in Hf.
    destruct (runUpdaters_spec _ _ _ _ _ Hf) as [_ Ha]. apply Ha. by right.
Qed.

(** X18.  Once the component has mounted there is an active piece in
    every state of the session, also after a game over and in the middle
    of a restart: the overlay of a game that is not running never reads
    Game Over, it reads Paused. *)
Theorem overlay_never_game_over rnd (evs : list Event) (s : State) (n : nat) :
  play rnd (Mount :: evs) = Some (s, n) →
  active s ≠ None ∧ overlay s ≠ Some "Game Over" ∧ (running s = false → overlay s = Some "Paused").
Proof.
  intros (r0 & n0 & t & _ & Hsteps)%play_steps. cbn [steps] in Hsteps.
  unfold stepT in Hsteps. cbn [runs fst snd] in Hsteps.
  destruct (commit rnd n0 (handler r0 r0 Mount) r0) as [sn1|] eqn:Hmount; [|done].
  apply (mount_active rnd r0 (r0, n0)) in Hmount.
  pose proof (steps_active _ _ _ _ _ Hsteps Hmount) as Hact. cbn [fst] in Hact.
  split; [done|]. unfold overlay.
  destruct (active s); [|done]. by destruct (running s).
Qed.

Lemma overlay_never_game_over_witness :
  ∃ s n, play noEntropy (Mount :: repeat (Key Space) 11) = Some (s, n)
         ∧ running s = false
         ∧ active s ≠ None ∧ overlay s ≠ Some "Game Over"
         ∧ (running s = false → overlay s = Some "Paused").
Proof.
  destruct (play noEntropy (Mount :: repeat (Key Space) 11)) as [[s n]|] eqn:Hplay;
    [|by vm_compute in Hplay].
  exists s, n. split; [reflexivity|]. split.
  - vm_compute in Hplay. injection Hplay as <- <-. reflexivity.
  - exact (overlay_never_game_over noEntropy (repeat (Key Space) 11) s n Hplay).
Defined.

(** ** Several gravity ticks in one frame *)

(** The lock sequence for a given merge and clear. *)
Lemma lock_run (r : State) (p : Piece.t) merged cb cleared rnd w :
  mergePiece (board r) p = Some merged → clearLines merged = Some (cb, cleared) →
  (0 <= cleared)%Z →
  lock r p rnd w =
    Some ((), mkPending
                (mkState cb (active (st w)) (queue (st w)) (nextBag (st w))
                         (running (st w))
                         (score (st w) + scoreFor (level r) cleared)%Z
                         (lines (st w) + cleared)%Z
                         (if (cleared >? 0)%Z then (1 + (lines r + cleared) / 10)%Z
                          else level (st w))
                         (hold (st w)) (canHold (st w)))
                (calls w) (deferred w ++ [(r, true)])).
Proof.
  intros Hm Hc Hpos. unfold lock. rewrite (bind_try _ merged) by done.
  rewrite (bind_try _ (cb, cleared)) by done. cbn.
  destruct (cleared >? 0)%Z eqn:Hgt; cbn; [done|].
  assert (cleared = 0%Z) as -> by lia. cbn. by rewrite !Z.add_0_r.
Qed.

(** [k] gravity ticks of the render [r] whose piece cannot move down. *)
Lemma ticks_lock_run (r : State) (a : Piece.t) merged cb cleared (k : nat) rnd w :
  active r = Some a → collides (board r) (moved a 0 1 (Piece.m a)) = Some true →
  mergePiece (board r) a = Some merged → clearLines merged = Some (cb, cleared) →
  (0 <= cleared)%Z →
  ∃ w', ticks r k rnd w = Some ((), w')
        ∧ score (st w') = (score (st w) + Z.of_nat k * scoreFor (level r) cleared)%Z
        ∧ lines (st w') = (lines (st w) + Z.of_nat k * cleared)%Z
        ∧ (0 < k → board (st w') = cb)
        ∧ calls w' = calls w
        ∧ deferred w' = deferred w ++ replicate k (r, true).
Proof.
  intros Ha Hhit Hm Hc Hpos. revert w. induction k as [|k IH]; intros w.
  - exists w. cbn [ticks replicate]. split; [done|]. rewrite app_nil_r.
    split_and!; try done; lia.
  - cbn [ticks]. unfold stepDown at 1. rewrite Ha.
    unfold mbind at 1, Act_bind at 1. rewrite (bind_try _ true) by done. cbn [negb].
    rewrite (lock_run r a merged cb cleared) by done.
    match goal with
    | |- context [ticks r k rnd ?X] => destruct (IH X) as (w' & Hrun & Hs & Hl & Hb & Hn & Hd)
    end.
    exists w'. split; [done|]. cbn [st calls deferred score lines board] in Hs, Hl, Hn, Hd.
    rewrite Hs, Hl, Hn, Hd. split_and!; try lia.
    + intros _. destruct k as [|k]; [|apply Hb; lia].
      cbn [ticks] in Hrun. by injection Hrun as <-.
    + by rewrite <- app_assoc.
Qed.

(** The updaters queued by the ticks of one render leave the grid and the
    progression as they are. *)
Lemma runUpdaters_same_render (r : State) (k : nat) rnd w key rest :
  queue r = key :: rest → wfBoard (board r) →
  ∃ w', runUpdaters (replicate k (r, true)) rnd w = Some ((), w')
        ∧ board (st w') = board (st w) ∧ score (st w') = score (st w)
        ∧ lines (st w') = lines (st w) ∧ deferred w' = deferred w.
Proof.
  intros Hq Hwf. revert w. induction k as [|k IH]; intros w.
  - by exists w.
  - cbn [replicate runUpdaters].
    destruct (spawnUpdater_run r true rnd w key rest Hq Hwf)
      as (piece & hit & nb & n' & _ & _ & _ & Hsp).
    rewrite (bind_run _ _ _ _ _ _ Hsp).
    match goal with
    | |- context [runUpdaters _ rnd ?X] => destruct (IH X) as (w' & Hrun & Hb & Hs & Hl & Hd)
    end.
    exists w'. by split.
Qed.

(** X19.  A frame that runs [k] gravity ticks on a piece that cannot move
    down runs the lock sequence [k] times on the same render: the grid is
    the one of a single lock, and the rows cleared are counted [k] times
    in the lines and in the score. *)
Theorem frame_lock_counts_every_tick rnd (r0 s : State) (n : nat) (a : Piece.t)
    key rest (k : nat) :
  active s = Some a → running s = true → wfBoard (board s) → queue s = key :: rest →
  free (board s) (moved a 0 1 (Piece.m a)) = false →
  ∃ merged cb cleared s' n',
    mergePiece (board s) a = Some merged
    ∧ clearLines merged = Some (cb, cleared)
    ∧ step rnd r0 (Frame k) (s, n) = Some (s', n')
    ∧ lines s' = (lines s + Z.of_nat k * cleared)%Z
    ∧ score s' = (score s + Z.of_nat k * (points cleared * level s))%Z
    ∧ (0 < k → board s' = cb).
Proof.
  intros Ha Hrun Hwf Hq Hfree.
  destruct (collides_total (board s) (moved a 0 1 (Piece.m a)) Hwf) as [hit Hhit].
  rewrite (free_negb _ _ hit) in Hfree by done. destruct hit; [|done].
  destruct (mergePiece_spec a (board s) Hwf) as (merged & Hm & Hwfm & _).
  destruct (clearLines_total merged Hwfm) as (cb & cleared & Hc & Hpos).
  destruct (ticks_lock_run s a merged cb cleared k rnd (mkPending s n []) Ha Hhit Hm Hc Hpos)
    as (w1 & Hticks & Hs1 & Hl1 & Hb1 & Hn1 & Hd1).
  destruct (runUpdaters_same_render s k rnd (mkPending (st w1) (calls w1) []) key rest Hq Hwf)
    as (w2 & Hupd & Hb2 & Hs2 & Hl2 & _).
  exists merged, cb, cleared, (st w2), (calls w2). do 2 (split; [done|]).
  cbn [st calls deferred app] in *. split.
  - unfold step, commit. cbn [fst snd handler]. unfold loop. rewrite Hrun. cbn [negb].
    rewrite (bind_run _ _ _ _ _ _ Hticks). unfold flush. rewrite Hd1, Hupd. done.
  - rewrite Hl2, Hs2, Hb2, Hl1, Hs1, scoreFor_points by done. done.
Qed.

Lemma frame_lock_counts_every_tick_witness :
  ∃ merged cb s' n',
    mergePiece (board gapState) (Piece.mk 4 18 [[1; 1]; [1; 1]] "#F7D154" kO) = Some merged
    ∧ clearLines merged = Some (cb, 2%Z)
    ∧ step noEntropy gapState (Frame 3) (gapState, 0) = Some (s', n')
    ∧ lines s' = 6%Z ∧ score s' = 900%Z ∧ board s' = cb.
Proof.
  destruct (frame_lock_counts_every_tick noEntropy gapState gapState 0
              (Piece.mk 4 18 [[1; 1]; [1; 1]] "#F7D154" kO) kT [kS] 3)
    as (merged & cb & cleared & s' & n' & Hm & Hc & Hstep & Hl & Hs & Hb).
  - reflexivity.
  - reflexivity.
  - split; [reflexivity|]. vm_compute. repeat constructor.
  - reflexivity.
  - vm_compute. reflexivity.
  - vm_compute in Hm. injection Hm as <-. vm_compute in Hc. injection Hc as <- <-.
    eexists _, _, s', n'. split; [reflexivity|]. split; [vm_compute; reflexivity|].
    split; [exact Hstep|]. split; [exact Hl|]. split; [exact Hs|]. apply Hb. lia.
Defined.

(** ** The size of a cell *)

(** X20.  The cell size that [recalc] sets lies between 16 and 36 pixels;
    the fallback 28 of [target || 28] is never taken, since the target is
    at least 12; and a cell larger than 16 pixels makes a well that fits
    the width and the height that [recalc] allows for it. *)
Theorem recalc_bounds (contW vh : Z) :
  (16 <= recalc contW vh <= 36)%Z
  ∧ recalc contW vh =
      Z.max 16 (Z.min 36 (Z.min (Z.max 180 (contW - 16) / COLS)
                                (Z.max 240 (vh - 220) / ROWS)))
  ∧ ((16 < recalc contW vh)%Z →
     (COLS * recalc contW vh <= Z.max 180 (contW - 16))%Z
     ∧ (ROWS * recalc contW vh <= Z.max 240 (vh - 220))%Z).
Proof.
  unfold recalc, COLS, ROWS. cbv zeta.
  set (availW := Z.max 180 (contW - 16)). set (availH := Z.max 240 (vh - 220)).
  assert (180 <= availW)%Z by lia. assert (240 <= availH)%Z by lia.
  assert (18 <= availW / 10)%Z by (apply Z.div_le_lower_bound; lia).
  assert (12 <= availH / 20)%Z by (apply Z.div_le_lower_bound; lia).
  pose proof (Z.mul_div_le availW 10 ltac:(lia)).
  pose proof (Z.mul_div_le availH 20 ltac:(lia)).
  destruct (Z.eqb_spec (Z.min (availW / 10) (availH / 20)) 0) as [Hzero|_]; [lia|].
  split; [lia|]. split; [done|]. lia.
Qed.

(** ** Colours *)

Lemma channelPair_total (x : Z) :
  (0 <= x <= 255)%Z → ∃ c1 c2, channelPair x c1 c2 = true.
Proof.
  intros Hx.
  assert (Hall : forallb (λ k, match padStart2 (toString16 (Z.of_nat k)) with
                               | String c1 (String c2 EmptyString) =>
                                   channelPair (Z.of_nat k) c1 c2
                               | _ => false
                               end) (seq 0 256) = true) by (vm_compute; reflexivity).
  rewrite forallb_forall in Hall. specialize (Hall (Z.to_nat x)).
  rewrite Z2Nat.id in Hall by lia.
  destruct (padStart2 (toString16 x)) as [|c1 [|c2 [|]]];
    try (discriminate Hall; apply in_seq; lia).
  exists c1, c2. apply Hall. apply in_seq. lia.
Qed.

Lemma channels_of_number (r g b : Z) :
  (0 <= r <= 255)%Z → (0 <= g <= 255)%Z → (0 <= b <= 255)%Z →
  let num := toInt32 (Some (1 * (((((r / 16 * 16 + r mod 16) * 16 + g / 16) * 16
                                    + g mod 16) * 16 + b / 16) * 16 + b mod 16))%Z) in
  (Z.land (Z.shiftr num 16) 255, Z.land (Z.shiftr num 8) 255, Z.land num 255) = (r, g, b).
Proof.
  intros Hr Hg Hb. cbv zeta. unfold toInt32.
  change 255%Z with (Z.ones 8). rewrite !Z.land_ones, !Z.shiftr_div_pow2 by lia.
  change (2 ^ 31)%Z with 2147483648%Z. change (2 ^ 32)%Z with 4294967296%Z.
  change (2 ^ 16)%Z with 65536%Z. change (2 ^ 8)%Z with 256%Z.
  pose proof (Z.div_mod r 16 ltac:(lia)). pose proof (Z.div_mod g 16 ltac:(lia)).
  pose proof (Z.div_mod b 16 ltac:(lia)).
  replace (1 * (((((r / 16 * 16 + r mod 16) * 16 + g / 16) * 16 + g mod 16) * 16 + b / 16)
                * 16 + b mod 16))%Z with (r * 65536 + g * 256 + b)%Z by lia.
  rewrite (Z.mod_small (r * 65536 + g * 256 + b + 2147483648) 4294967296) by lia.
  replace (r * 65536 + g * 256 + b + 2147483648 - 2147483648)%Z
    with (r * 65536 + g * 256 + b)%Z by lia.
  assert ((r * 65536 + g * 256 + b) / 65536 = r)%Z as ->
    by (symmetry; apply (Z.div_unique _ _ _ (g * 256 + b)%Z); lia).
  assert ((r * 65536 + g * 256 + b) / 256 = r * 256 + g)%Z as ->
    by (symmetry; apply (Z.div_unique _ _ _ b); lia).
  assert ((r * 256 + g) mod 256 = g)%Z as ->
    by (symmetry; apply (Z.mod_unique _ _ r); lia).
  assert ((r * 65536 + g * 256 + b) mod 256 = b)%Z as ->
    by (symmetry; apply (Z.mod_unique _ _ (r * 256 + g)%Z); lia).
  by rewrite Z.mod_small by lia.
Qed.

(** What [rgbToHex] writes for channels between 0 and 255, [hexToRgb]
    reads back. *)
Lemma hexToRgb_rgbToHex_run (r g b : Z) :
  (0 <= r <= 255)%Z → (0 <= g <= 255)%Z → (0 <= b <= 255)%Z →
  String.length (rgbToHex r g b) = 7 ∧ hexToRgb (rgbToHex r g b) = (r, g, b).
Proof.
  intros Hr Hg Hb.
  destruct (channelPair_total r Hr) as (r1 & r2 & Hrp).
  destruct (channelPair_total g Hg) as (g1 & g2 & Hgp).
  destruct (channelPair_total b Hb) as (b1 & b2 & Hbp).
  unfold channelPair in Hrp, Hgp, Hbp.
  repeat match goal with
         | H : _ && _ = true |- _ => apply andb_prop in H as [H ?]
         | H : bool_decide _ = true |- _ => apply bool_decide_eq_true_1 in H
         | H : negb _ = true |- _ => apply negb_true_iff in H
         end.
  assert (rgbToHex r g b =
            String "#" (String r1 (String r2 (String g1 (String g2
              (String b1 (String b2 EmptyString))))))) as ->
    by (unfold rgbToHex; rewrite Hrp, Hgp, Hbp; reflexivity).
  split; [done|].
  unfold hexToRgb. cbn [removeFirstHash Ascii.eqb Bool.eqb String.length Nat.eqb].
  unfold parseInt16.
  do 3 (cbn [trimStart fst snd orb];
        repeat match goal with
               | H : _ = false |- _ => rewrite H
               end).
  rewrite andb_false_r.
  cbn [digitsValue].
  repeat match goal with
         | H : hexVal _ = Some _ |- _ => rewrite H
         end.
  cbn [fmap option_fmap option_map].
  by apply channels_of_number.
Qed.

Lemma hexToRgb_range (hex : string) :
  (0 <= (hexToRgb hex).1.1 <= 255)%Z ∧ (0 <= (hexToRgb hex).1.2 <= 255)%Z
  ∧ (0 <= (hexToRgb hex).2 <= 255)%Z.
Proof.
  unfold hexToRgb. destruct (String.length _ =? 6)%nat; cbn [fst snd]; [|lia].
  change 255%Z with (Z.ones 8). rewrite !Z.land_ones by lia.
  change (Z.ones 8) with 255%Z.
  pose proof (Z.mod_pos_bound (Z.shiftr (toInt32 (parseInt16 (removeFirstHash hex))) 16)
                (2 ^ 8) ltac:(lia)).
  pose proof (Z.mod_pos_bound (Z.shiftr (toInt32 (parseInt16 (removeFirstHash hex))) 8)
                (2 ^ 8) ltac:(lia)).
  pose proof (Z.mod_pos_bound (toInt32 (parseInt16 (removeFirstHash hex)))
                (2 ^ 8) ltac:(lia)).
  change (2 ^ 8)%Z with 256%Z in *. lia.
Qed.

(** X21.  [hexToRgb] reads back what [rgbToHex] writes: for channels
    between 0 and 255, [rgbToHex] gives a string of seven code units and
    [hexToRgb] of it gives the three channels again. *)
Theorem hexToRgb_reads_rgbToHex (r g b : Z) :
  (0 <= r <= 255)%Z → (0 <= g <= 255)%Z → (0 <= b <= 255)%Z →
  String.length (rgbToHex r g b) = 7 ∧ hexToRgb (rgbToHex r g b) = (r, g, b).
Proof. intros Hr Hg Hb. by apply hexToRgb_rgbToHex_run. Qed.

Lemma hexToRgb_reads_rgbToHex_witness :
  String.length (rgbToHex 247 209 84) = 7
  ∧ hexToRgb (rgbToHex 247 209 84) = (247, 209, 84)%Z.
Proof. apply (hexToRgb_reads_rgbToHex 247 209 84); lia. Defined.

(** X22.  The channels that [hexToRgb] returns lie between 0 and 255 for
    every string, and [shade] works channel by channel: the colour it
    returns has the channels of its argument plus [amt], cut off at 0 and
    at 255; with [amt] 0, as [draw] calls it for the cells of the grid, it
    is the same colour. *)
Theorem shade_clamps_each_channel (hex : string) (amt r g b : Z) :
  hexToRgb hex = (r, g, b) →
  ((0 <= r <= 255)%Z ∧ (0 <= g <= 255)%Z ∧ (0 <= b <= 255)%Z)
  ∧ hexToRgb (shade hex amt) = (clamp amt r, clamp amt g, clamp amt b)
  ∧ hexToRgb (shade hex 0) = (r, g, b).
Proof.
  intros Hrgb. pose proof (hexToRgb_range hex) as Hrange. rewrite Hrgb in Hrange.
  cbn [fst snd] in Hrange. split; [done|].
  unfold shade. rewrite Hrgb. cbn [fst snd]. split.
  - apply hexToRgb_rgbToHex_run; unfold clamp; lia.
  - replace (clamp 0 r) with r by (unfold clamp; lia).
    replace (clamp 0 g) with g by (unfold clamp; lia).
    replace (clamp 0 b) with b by (unfold clamp; lia).
    apply hexToRgb_rgbToHex_run; lia.
Qed.

Lemma shade_clamps_each_channel_witness :
  ((0 <= 247 <= 255)%Z ∧ (0 <= 209 <= 255)%Z ∧ (0 <= 84 <= 255)%Z)
  ∧ hexToRgb (shade "#F7D154" (-8)) = (clamp (-8) 247, clamp (-8) 209, clamp (-8) 84)
  ∧ hexToRgb (shade "#F7D154" 0) = (247, 209, 84)%Z.
Proof. apply (shade_clamps_each_channel "#F7D154" (-8) 247 209 84). reflexivity. Defined.

(** ** The level *)

Create HintDb keepsLevel.

Lemma keepsLevel_ret {A} (a : A) : keepsLevel (mret a).
Proof. intros rnd w a' w' [= <- <-]. done. Qed.

Lemma keepsLevel_bind {A B} (act : Act A) (f : A → Act B) :
  keepsLevel act → (∀ a, keepsLevel (f a)) → keepsLevel (act ≫= f).
Proof.
  intros Hact Hf rnd w b w'. unfold mbind, Act_bind.
  destruct (act rnd w) as [[a w1]|] eqn:Hrun; [|done]. intros Hrun'.
  destruct (Hact _ _ _ _ Hrun) as [Hl Hv]. destruct (Hf a _ _ _ _ Hrun') as [Hl' Hv'].
  split; congruence.
Qed.

Lemma keepsLevel_try {A} (o : option A) : keepsLevel (try o).
Proof. intros rnd w a w'. unfold try. destruct o; [|done]. by intros [= <- <-]. Qed.

Lemma keepsLevel_random : keepsLevel random.
Proof. by intros rnd w a w' [= <- <-]. Qed.

Lemma keepsLevel_spawn (r : State) (resetAcc : bool) : keepsLevel (spawn r resetAcc).
Proof. by intros rnd w a w' [= <- <-]. Qed.

Lemma keepsLevel_setBoard f : keepsLevel (setBoard f).
Proof. by intros rnd w a w' [= <- <-]. Qed.

Lemma keepsLevel_setActive f : keepsLevel (setActive f).
Proof. by intros rnd w a w' [= <- <-]. Qed.

Lemma keepsLevel_setQueue f : keepsLevel (setQueue f).
Proof. by intros rnd w a w' [= <- <-]. Qed.

Lemma keepsLevel_setNextBag f : keepsLevel (setNextBag f).
Proof. by intros rnd w a w' [= <- <-]. Qed.

Lemma keepsLevel_setRunning f : keepsLevel (setRunning f).
Proof. by intros rnd w a w' [= <- <-]. Qed.

Lemma keepsLevel_setScore f : keepsLevel (setScore f).
Proof. by intros rnd w a w' [= <- <-]. Qed.

Lemma keepsLevel_setHold f : keepsLevel (setHold f).
Proof. by intros rnd w a w' [= <- <-]. Qed.

Lemma keepsLevel_setCanHold f : keepsLevel (setCanHold f).
Proof. by intros rnd w a w' [= <- <-]. Qed.

#[local] Hint Resolve keepsLevel_ret keepsLevel_try keepsLevel_random keepsLevel_spawn
  keepsLevel_setBoard keepsLevel_setActive keepsLevel_setQueue keepsLevel_setNextBag
  keepsLevel_setRunning keepsLevel_setScore keepsLevel_setHold keepsLevel_setCanHold
  : keepsLevel.

(** Prove [keepsLevel] for an action built from the primitives with
    [≫=], [match] and [if]. *)
Local Ltac level_step :=
  lazymatch goal with
  | |- keepsLevel (_ ≫= _) => apply keepsLevel_bind; [|intros ?]
  | |- keepsLevel (match ?x with _ => _ end) => destruct x
  | |- keepsLevel (if ?b then _ else _) => destruct b
  | |- keepsLevel (reset _) => fail
  | |- keepsLevel (lock _ _) => fail
  | |- keepsLevel (stepDown _) => fail
  | |- keepsLevel (hardDrop _) => fail
  | |- keepsLevel _ => solve [auto with keepsLevel]
  end.
Local Ltac level_tac := solve [repeat level_step].

Lemma keepsLevel_shuffle (i : nat) (b : list Kind) : keepsLevel (shuffle i b).
Proof. revert b. induction i as [|i IH]; intros b; cbn [shuffle]; level_tac. Qed.

Lemma keepsLevel_bag : keepsLevel bag.
Proof. apply keepsLevel_shuffle. Qed.

#[local] Hint Resolve keepsLevel_bag : keepsLevel.

Lemma keepsLevel_spawnUpdater (r : State) (resetAcc : bool) :
  keepsLevel (spawnUpdater r resetAcc).
Proof. unfold spawnUpdater. level_tac. Qed.

#[local] Hint Resolve keepsLevel_spawnUpdater : keepsLevel.

Lemma keepsLevel_runUpdaters (us : list (State * bool)) : keepsLevel (runUpdaters us).
Proof. induction us as [|[r resetAcc] us IH]; cbn [runUpdaters]; level_tac. Qed.

Lemma keepsLevel_tryKicks (r : State) (a : Piece.t) (rotated : Matrix) (ks : list Z) :
  keepsLevel (tryKicks r a rotated ks).
Proof. induction ks as [|dx ks IH]; cbn [tryKicks]; level_tac. Qed.

#[local] Hint Resolve keepsLevel_tryKicks : keepsLevel.

Lemma keepsLevel_rotate (r : State) rotFn : keepsLevel (rotate r rotFn).
Proof. unfold rotate. level_tac. Qed.

Lemma keepsLevel_tryMove (r : State) (dx dy : Z) (m : Matrix) :
  keepsLevel (tryMove r dx dy m).
Proof. unfold tryMove. level_tac. Qed.

Lemma keepsLevel_softDrop (r : State) : keepsLevel (softDrop r).
Proof. unfold softDrop. level_tac. Qed.

Lemma keepsLevel_doHold (r : State) : keepsLevel (doHold r).
Proof. unfold doHold. level_tac. Qed.

#[local] Hint Resolve keepsLevel_rotate keepsLevel_tryMove keepsLevel_softDrop
  keepsLevel_doHold : keepsLevel.

Lemma levelPost_keeps (r : State) {A} (act : Act A) : keepsLevel act → levelPost r act.
Proof.
  intros Hk rnd w a w' Hrun Hl Hv Hok. destruct (Hk _ _ _ _ Hrun) as [Hl' Hv'].
  unfold levelOk in *. congruence.
Qed.

Lemma levelPost_bind (r : State) {A B} (act : Act A) (f : A → Act B) :
  keepsLevel act → (∀ a, levelPost r (f a)) → levelPost r (act ≫= f).
Proof.
  intros Hact Hf rnd w b w'. unfold mbind, Act_bind.
  destruct (act rnd w) as [[a w1]|] eqn:Hrun; [|done]. intros Hrun' Hl Hv Hok.
  destruct (Hact _ _ _ _ Hrun) as [Hl1 Hv1].
  eapply Hf; [exact Hrun'|congruence|congruence|done].
Qed.

Lemma levelPost_then (r : State) {A B} (act : Act A) (f : A → Act B) :
  levelPost r act → (∀ a, keepsLevel (f a)) → levelPost r (act ≫= f).
Proof.
  intros Hact Hf rnd w b w'. unfold mbind, Act_bind.
  destruct (act rnd w) as [[a w1]|] eqn:Hrun; [|done]. intros Hrun' Hl Hv Hok.
  pose proof (Hact _ _ _ _ Hrun Hl Hv Hok) as Hok1.
  destruct (Hf a _ _ _ _ Hrun') as [Hl' Hv']. unfold levelOk in *. congruence.
Qed.

(** The lock sequence sets the level from the lines of its render and the
    rows it cleared, which is the level that the new lines give. *)
Lemma levelPost_lock (r : State) (p : Piece.t) : levelPost r (lock r p).
Proof.
  intros rnd w a w'. unfold lock, mbind, Act_bind, try.
  destruct (mergePiece (board r) p) as [merged|]; [|done].
  destruct (clearLines merged) as [[cb cleared]|]; [|done].
  unfold setBoard, setLines, setScore, setLevel, spawn, modify.
  cbn [fst snd]. destruct (cleared >? 0)%Z; intros [= <- <-]; cbn; intros Hl Hv Hok.
  - unfold levelOk. cbn. by rewrite Hl.
  - unfold levelOk in *. cbn. congruence.
Qed.

Lemma levelPost_stepDown (r : State) : levelPost r (stepDown r).
Proof.
  unfold stepDown. destruct (active r) as [a|]; [|apply levelPost_keeps; level_tac].
  apply levelPost_bind; [level_tac|]. intros hit.
  destruct hit; cbn [negb]; [apply levelPost_lock|apply levelPost_keeps; level_tac].
Qed.

Lemma levelPost_hardDrop (r : State) : levelPost r (hardDrop r).
Proof.
  unfold hardDrop. destruct (active r) as [a|]; [|apply levelPost_keeps; level_tac].
  apply levelPost_bind; [level_tac|]. intros res.
  apply levelPost_bind; [level_tac|]. intros _.
  apply levelPost_bind; [level_tac|]. intros _. apply levelPost_lock.
Qed.

Lemma levelPost_reset (r0 r : State) : levelPost r (reset r0).
Proof.
  intros rnd w a w' Hrun _ _ _.
  destruct (reset_run r0 rnd w) as (q & nb & _ & _ & Heq).
  rewrite Heq in Hrun. by injection Hrun as <- <-.
Qed.

(** Every handler of a frame with at most one tick, and of every other
    event, leaves the level that the lines give. *)
Lemma levelPost_handler (r0 r : State) (ev : Event) :
  oneTick ev = true → levelPost r (handler r0 r ev).
Proof.
  intros Hev. destruct ev as [|code|g|n|b| |]; cbn [handler].
  - apply levelPost_keeps. level_tac.
  - unfold onKey. destruct (active r) as [p|]; [|apply levelPost_keeps; level_tac].
    destruct code;
      lazymatch goal with
      | |- levelPost _ (reset _) => apply levelPost_reset
      | |- levelPost _ (if _ then _ else hardDrop _) =>
          destruct (running r); cbn [negb];
          [apply levelPost_hardDrop | apply levelPost_keeps; level_tac]
      | |- _ => apply levelPost_keeps; unfold rotateCW, rotateCCW; level_tac
      end.
  - unfold onCanvasTouchEnd. destruct (active r) as [p|]; [|apply levelPost_keeps; level_tac].
    destruct (running r); cbn [negb]; [|apply levelPost_keeps; level_tac].
    destruct g;
      lazymatch goal with
      | |- levelPost _ (hardDrop _) => apply levelPost_hardDrop
      | |- _ => apply levelPost_keeps; unfold rotateCW; level_tac
      end.
  - unfold loop. destruct (running r); cbn [negb]; [|apply levelPost_keeps; level_tac].
    cbn [oneTick] in Hev. apply bool_decide_eq_true_1 in Hev.
    destruct n as [|[|n]]; [cbn [ticks]; apply levelPost_keeps; level_tac| |lia].
    cbn [ticks]. apply levelPost_then; [apply levelPost_stepDown|]. intros _. level_tac.
  - unfold onButton. destruct b;
      lazymatch goal with
      | |- levelPost _ (reset _) => apply levelPost_reset
      | |- levelPost _ (hardDrop _) => apply levelPost_hardDrop
      | |- _ => apply levelPost_keeps; unfold rotateCW, rotateCCW; level_tac
      end.
  - apply levelPost_keeps. level_tac.
  - apply levelPost_keeps. level_tac.
Qed.

Lemma step_levelOk rnd (r0 : State) (ev : Event) sn sn' :
  oneTick ev = true → step rnd r0 ev sn = Some sn' → levelOk sn.1 → levelOk sn'.1.
Proof.
  intros Hev. unfold step, commit, mbind, Act_bind. destruct sn as [s n]. cbn [fst snd].
  destruct (handler r0 s ev rnd (mkPending s n [])) as [[[] w1]|] eqn:Hh; [|done].
  destruct (flush rnd w1) as [[[] w2]|] eqn:Hf; [|done].
  intros [= <-] Hok. cbn [fst].
  pose proof (levelPost_handler r0 s ev Hev _ _ _ _ Hh eq_refl eq_refl Hok) as Hok1.
  unfold flush in Hf. destruct (keepsLevel_runUpdaters _ _ _ _ _ Hf) as [Hl Hv].
  cbn [st] in Hl, Hv. unfold levelOk in *. congruence.
Qed.

(** The function of a button that repeats leaves the lines and the
    level as they are, whatever render made it. *)
Lemma keepsLevel_repeats (r0 r : State) (b : Button) :
  repeats b = true → keepsLevel (onButton r0 r b).
Proof. intros Hb. destruct b; try discriminate Hb; cbn [onButton]; level_tac. Qed.

Lemma stepT_levelOk rnd (r0 : State) (ev : Event) (s : State) (n : nat) t snt' :
  oneTick ev = true → timerRepeats t → stepT rnd r0 ev (s, n, t) = Some snt' →
  levelOk s → levelOk snt'.1.1 ∧ timerRepeats snt'.2.
Proof.
  intros Hev Ht [Hc ->]%stepT_commit Hok. split.
  - destruct ev as [|code|g|k|b| |];
      try (cbn [runs fst snd] in Hc; by apply (step_levelOk rnd r0 _ (s, n) _ Hev Hc)).
    destruct t as [[r b]|];
      [|cbn [runs fst snd] in Hc; by apply (step_levelOk rnd r0 _ (s, n) _ Hev Hc)].
    cbn [runs fst snd handler] in Hc. revert Hc. unfold commit, mbind, Act_bind.
    destruct (onButton r0 r b rnd (mkPending s n [])) as [[[] w1]|] eqn:Hh; [|done].
    destruct (flush rnd w1) as [[[] w2]|] eqn:Hf; [|done].
    intros [= <-]. cbn [fst].
    destruct (keepsLevel_repeats r0 r b (Ht r b eq_refl) _ _ _ _ Hh) as [Hl Hv].
    unfold flush in Hf. destruct (keepsLevel_runUpdaters _ _ _ _ _ Hf) as [Hl' Hv'].
    cbn [st] in *. unfold levelOk in *. congruence.
  - intros r b. destruct ev as [|code|g|k|b'| |]; cbn [timerAfter]; try apply Ht.
    + destruct (repeats b') eqn:Hb'; [|apply Ht]. by intros [= <- <-].
    + done.
Qed.

Lemma steps_levelOk rnd (r0 : State) (evs : list Event) (s : State) (n : nat) t snt' :
  forallb oneTick evs = true → timerRepeats t →
  steps rnd r0 evs (s, n, t) = Some snt' → levelOk s → levelOk snt'.1.1.
Proof.
  revert s n t. induction evs as [|ev evs IH]; intros s n t; cbn [steps forallb].
  - by intros _ _ [= <-].
  - intros [Hev Hevs]%andb_prop Ht.
    destruct (stepT rnd r0 ev (s, n, t)) as [[[s1 n1] t1]|] eqn:Hstep; [|done].
    intros Hrest Hok.
    destruct (stepT_levelOk _ _ _ _ _ _ _ Hev Ht Hstep Hok) as [Hok1 Ht1].
    by apply (IH s1 n1 t1 Hevs Ht1 Hrest).
Qed.

(** X23.  In a session whose frames run at most one gravity tick each,
    the level is 1 + floor(lines / 10) in every state: every lock sets the
    level from the lines of its render plus the rows it clears, and a
    restart sets both back. *)
Theorem level_follows_lines rnd (evs : list Event) (s : State) (n : nat) :
  forallb oneTick evs = true → play rnd evs = Some (s, n) →
  level s = (1 + lines s / 10)%Z.
Proof.
  intros Hevs (r0 & n0 & t & Hfirst & Hsteps)%play_steps.
  assert (timerRepeats None) as Hnone by (by intros r b).
  apply (steps_levelOk _ _ _ _ _ _ _ Hevs Hnone Hsteps).
  unfold firstRender, initial in Hfirst.
  destruct (bag_total rnd (mkPending (mkState [] None [] [] true 0 0 1 None true) 0 []))
    as [q Hq].
  rewrite (bind_run _ _ _ _ _ _ Hq) in Hfirst. cbn [st calls deferred] in Hfirst.
  match type of Hfirst with
  | context [(bag ≫= _) rnd ?X] => destruct (bag_total rnd X) as [nb Hnb]
  end.
  rewrite (bind_run _ _ _ _ _ _ Hnb) in Hfirst. by injection Hfirst as <- <-.
Qed.

Lemma level_follows_lines_witness :
  ∃ s n, play noEntropy (Mount :: repeat (Key Space) 4 ++ [Frame 1; Key KeyC]) = Some (s, n)
         ∧ level s = (1 + lines s / 10)%Z.
Proof.
  destruct (play noEntropy (Mount :: repeat (Key Space) 4 ++ [Frame 1; Key KeyC]))
    as [[s n]|] eqn:Hplay; [|by vm_compute in Hplay].
  exists s, n. split; [reflexivity|].
  exact (level_follows_lines noEntropy
           (Mount :: repeat (Key Space) 4 ++ [Frame 1; Key KeyC]) s n eq_refl Hplay).
Defined.

(** ** Merging a piece that does not collide *)

(** X24.  Merging a piece that does not collide never overwrites a filled
    cell: every filled cell of the grid is the same in the result, every
    grid cell under an occupied cell of the piece was unfilled, lies
    inside the grid and holds the colour of the piece in the result. *)
Theorem merge_of_clear_piece_keeps_filled_cells (b : Board) (p : Piece.t) :
  wfBoard b → collides b p = Some false →
  ∃ nb, mergePiece b p = Some nb
        ∧ (∀ ny nx, filledAt b (Z.of_nat ny) (Z.of_nat nx) →
                    cellAt nb ny nx = cellAt b ny nx)
        ∧ (∀ ny nx, covered p ny nx →
                    ny < Z.to_nat ROWS ∧ nx < Z.to_nat COLS
                    ∧ ¬ filledAt b (Z.of_nat ny) (Z.of_nat nx)
                    ∧ cellAt nb ny nx = Some (Some (Piece.c p))).
Proof.
  intros Hwf Hfree. destruct (mergePiece_spec p b Hwf) as (nb & Hm & _ & Hcells).
  pose proof (proj1 (collides_false_iff b p Hwf) Hfree) as Hclear.
  exists nb. split; [done|]. split.
  - intros ny nx Hfilled. apply Hcells. intros (y & x & Hocc & Hy & Hx).
    apply (Hclear y x Hocc). unfold hits. cbv zeta. rewrite <- Hy, <- Hx.
    right; right; right. split; [lia|done].
  - intros ny nx Hcov. pose proof Hcov as (y & x & Hocc & Hy & Hx).
    pose proof (Hclear y x Hocc) as Hno. unfold hits, COLS, ROWS in Hno. cbv zeta in Hno.
    rewrite <- Hy, <- Hx in Hno.
    assert (Hin : ny < Z.to_nat ROWS ∧ nx < Z.to_nat COLS) by (unfold ROWS, COLS; lia).
    split; [apply Hin|]. split; [apply Hin|]. split.
    + intros Hfilled. apply Hno. right; right; right. split; [lia|done].
    + apply Hcells; [done|apply Hin..].
Qed.

Lemma merge_of_clear_piece_keeps_filled_cells_witness :
  ∃ nb, mergePiece boardO (Piece.mk 4 16 [[1; 1]; [1; 1]] "#00FFFF" kO) = Some nb
        ∧ (∀ ny nx, filledAt boardO (Z.of_nat ny) (Z.of_nat nx) →
                    cellAt nb ny nx = cellAt boardO ny nx)
        ∧ (∀ ny nx, covered (Piece.mk 4 16 [[1; 1]; [1; 1]] "#00FFFF" kO) ny nx →
                    ny < Z.to_nat ROWS ∧ nx < Z.to_nat COLS
                    ∧ ¬ filledAt boardO (Z.of_nat ny) (Z.of_nat nx)
                    ∧ cellAt nb ny nx = Some (Some "#00FFFF")).
Proof.
  apply (merge_of_clear_piece_keeps_filled_cells boardO
           (Piece.mk 4 16 [[1; 1]; [1; 1]] "#00FFFF" kO)).
  - split; [reflexivity|]. vm_compute. repeat constructor.
  - vm_compute. reflexivity.
Defined.

(** ** The active piece and the stack *)

Create HintDb keepsMove.

Lemma keepsMove_ret (r : State) {A} (a : A) : keepsMove r (mret a).
Proof. intros rnd w a' w' [= <- <-]. done. Qed.

Lemma keepsMove_bind (r : State) {A B} (act : Act A) (f : A → Act B) :
  keepsMove r act → (∀ a, keepsMove r (f a)) → keepsMove r (act ≫= f).
Proof.
  intros Hact Hf rnd w b w'. unfold mbind, Act_bind.
  destruct (act rnd w) as [[a w1]|] eqn:Hrun; [|done]. intros Hrun' Hinv.
  eapply Hf; [exact Hrun'|]. by eapply Hact.
Qed.

(** After a test, the rest of the action runs on the result of the
    test. *)
Lemma keepsMove_bind_try (r : State) {A B} (o : option A) (f : A → Act B) :
  (∀ v, o = Some v → keepsMove r (f v)) → keepsMove r (try o ≫= f).
Proof.
  intros Hf rnd w b w'. unfold mbind, Act_bind, try.
  destruct o as [v|]; [|done]. by apply Hf.
Qed.

Lemma keepsMove_random (r : State) : keepsMove r random.
Proof. by intros rnd w a w' [= <- <-]. Qed.

Lemma keepsMove_spawn (r r' : State) (resetAcc : bool) : keepsMove r (spawn r' resetAcc).
Proof.
  intros rnd w a w' [= <- <-] _. left. cbn. by destruct (deferred w).
Qed.

Lemma keepsMove_setQueue (r : State) f : keepsMove r (setQueue f).
Proof. by intros rnd w a w' [= <- <-]. Qed.

Lemma keepsMove_setNextBag (r : State) f : keepsMove r (setNextBag f).
Proof. by intros rnd w a w' [= <- <-]. Qed.

Lemma keepsMove_setRunning (r : State) f : keepsMove r (setRunning f).
Proof. by intros rnd w a w' [= <- <-]. Qed.

Lemma keepsMove_setScore (r : State) f : keepsMove r (setScore f).
Proof. by intros rnd w a w' [= <- <-]. Qed.

Lemma keepsMove_setLines (r : State) f : keepsMove r (setLines f).
Proof. by intros rnd w a w' [= <- <-]. Qed.

Lemma keepsMove_setLevel (r : State) f : keepsMove r (setLevel f).
Proof. by intros rnd w a w' [= <- <-]. Qed.

Lemma keepsMove_setHold (r : State) f : keepsMove r (setHold f).
Proof. by intros rnd w a w' [= <- <-]. Qed.

Lemma keepsMove_setCanHold (r : State) f : keepsMove r (setCanHold f).
Proof. by intros rnd w a w' [= <- <-]. Qed.

Lemma keepsMove_setActive (r : State) (p : Piece.t) :
  pieceOk (board r) p → keepsMove r (setActive (λ _, Some p)).
Proof.
  intros Hp rnd w a w' [= <- <-] [Hd|[Hb Ha]]; [by left|right].
  split; [done|]. cbn. by intros ? [= <-].
Qed.

#[local] Hint Resolve keepsMove_ret keepsMove_random keepsMove_spawn keepsMove_setQueue
  keepsMove_setNextBag keepsMove_setRunning keepsMove_setScore keepsMove_setLines
  keepsMove_setLevel keepsMove_setHold keepsMove_setCanHold : keepsMove.

(** An action whose last step queues a [spawn] keeps the invariant,
    whatever it did to the grid and the piece before. *)
Lemma keepsMove_queued (r : State) {A} (act : Act A) :
  (∀ rnd w a w', act rnd w = Some (a, w') → deferred w' ≠ []) → keepsMove r act.
Proof. intros Hact rnd w a w' Hrun _. left. by eapply Hact. Qed.

Lemma lock_queues (r : State) (p : Piece.t) rnd w a w' :
  lock r p rnd w = Some (a, w') → deferred w' ≠ [].
Proof.
  unfold lock, mbind, Act_bind, try.
  destruct (mergePiece (board r) p) as [merged|]; [|done].
  destruct (clearLines merged) as [[cb cleared]|]; [|done].
  unfold setBoard, setLines, setScore, setLevel, spawn, modify.
  cbn [fst snd]. destruct (cleared >? 0)%Z; intros [= <- <-]; cbn;
    by destruct (deferred w).
Qed.

Lemma keepsMove_lock (r : State) (p : Piece.t) : keepsMove r (lock r p).
Proof. apply keepsMove_queued. apply lock_queues. Qed.

Lemma keepsMove_reset (r r0 : State) : keepsMove r (reset r0).
Proof.
  apply keepsMove_queued. intros rnd w a w' Hrun.
  destruct (reset_run r0 rnd w) as (q & nb & _ & _ & Heq).
  rewrite Heq in Hrun. injection Hrun as <- <-. cbn. by destruct (deferred w).
Qed.

#[local] Hint Resolve keepsMove_lock keepsMove_reset : keepsMove.

Lemma pieceOk_free (b : Board) (p : Piece.t) : collides b p = Some false → pieceOk b p.
Proof. intros Hfree. left. by apply bool_decide_eq_true_2. Qed.

(** Prove [keepsMove] for an action built from the primitives with
    [≫=], [match] and [if]; a test of [collides] is remembered. *)
Local Ltac move_step :=
  lazymatch goal with
  | |- keepsMove _ (try (collides _ _) ≫= _) =>
      apply keepsMove_bind_try; intros [|] ?; cbn [negb]
  | |- keepsMove _ (try _ ≫= _) => apply keepsMove_bind_try; intros ? ?
  | |- keepsMove _ (_ ≫= _) => apply keepsMove_bind; [|intros ?]
  | |- keepsMove _ (setActive (λ _, Some _)) =>
      apply keepsMove_setActive; by apply pieceOk_free
  | |- keepsMove _ (match ?x with _ => _ end) => destruct x
  | |- keepsMove _ (if ?b then _ else _) => destruct b
  | |- keepsMove _ _ => solve [auto with keepsMove]
  end.
Local Ltac move_tac := solve [repeat move_step].

Lemma keepsMove_stepDown (r : State) : keepsMove r (stepDown r).
Proof. unfold stepDown. destruct (active r) as [a|]; move_tac. Qed.

Lemma keepsMove_softDrop (r : State) : keepsMove r (softDrop r).
Proof. unfold softDrop. destruct (active r) as [a|]; move_tac. Qed.

Lemma keepsMove_tryMove (r : State) (dx dy : Z) (m : Matrix) :
  keepsMove r (tryMove r dx dy m).
Proof. unfold tryMove. destruct (active r) as [a|]; move_tac. Qed.

Lemma keepsMove_tryKicks (r : State) (a : Piece.t) (rotated : Matrix) (ks : list Z) :
  keepsMove r (tryKicks r a rotated ks).
Proof. induction ks as [|dx ks IH]; cbn [tryKicks]; move_tac. Qed.

#[local] Hint Resolve keepsMove_stepDown keepsMove_softDrop keepsMove_tryMove
  keepsMove_tryKicks : keepsMove.

Lemma keepsMove_rotate (r : State) rotFn : keepsMove r (rotate r rotFn).
Proof. unfold rotate. destruct (active r) as [a|]; move_tac. Qed.

(** [hardDrop] ends with the lock sequence. *)
Lemma keepsMove_hardDrop (r : State) : keepsMove r (hardDrop r).
Proof.
  unfold hardDrop. destruct (active r) as [a|]; [|move_tac].
  apply keepsMove_queued. intros rnd w x w'. unfold mbind, Act_bind, try.
  destruct (dropLoop _ _ _ _) as [[ghost dist]|]; [|done].
  unfold setActive, setScore, modify. cbn [fst snd]. apply lock_queues.
Qed.

(** The swap of [doHold] makes the spawn piece of the held kind active;
    its other branch queues a [spawn]. *)
Lemma keepsMove_doHold (r : State) : keepsMove r (doHold r).
Proof.
  unfold doHold. destruct (active r) as [a|]; [|move_tac].
  destruct (canHold r); cbn [negb]; [|move_tac].
  destruct (hold r) as [newK|]; [|move_tac].
  apply keepsMove_bind; [|intros ?; move_tac].
  apply keepsMove_bind; [move_tac|]. intros _.
  apply keepsMove_bind_try. intros piece Hpiece.
  apply keepsMove_setActive. right.
  by rewrite (spawnPiece_kind _ _ Hpiece).
Qed.

Lemma keepsMove_ticks (r : State) (n : nat) : keepsMove r (ticks r n).
Proof. induction n as [|n IH]; cbn [ticks]; move_tac. Qed.

#[local] Hint Resolve keepsMove_rotate keepsMove_hardDrop keepsMove_doHold
  keepsMove_ticks : keepsMove.

Lemma keepsMove_handler (r0 r : State) (ev : Event) : keepsMove r (handler r0 r ev).
Proof.
  destruct ev as [|code|g|n|b| |]; cbn [handler].
  - move_tac.
  - unfold onKey. destruct (active r) as [p|]; [|move_tac].
    destruct code; unfold rotateCW, rotateCCW; move_tac.
  - unfold onCanvasTouchEnd, rotateCW. destruct (active r) as [p|]; [|move_tac].
    destruct (running r); cbn [negb]; [|move_tac]. destruct g; move_tac.
  - unfold loop. move_tac.
  - unfold onButton, rotateCW, rotateCCW. destruct b; move_tac.
  - move_tac.
  - move_tac.
Qed.

(** The updater of [spawn] makes a spawn piece active. *)
Lemma spawnUpdater_atSpawn (r : State) (resetAcc : bool) rnd w a w' :
  spawnUpdater r resetAcc rnd w = Some (a, w') →
  deferred w' = deferred w
  ∧ ∃ p, active (st w') = Some p ∧ spawnPiece (Piece.k p) = Some p.
Proof.
  unfold spawnUpdater. intros Hrun.
  revert Hrun. unfold mbind, Act_bind.
  destruct (if bool_decide (length (tail (queue r)) = 0) then _ else _) as [[q w1]|] eqn:Hq;
    [|done].
  assert (deferred w1 = deferred w) as Hd1.
  { destruct (bool_decide (length (tail (queue r)) = 0)).
    - revert Hq. unfold mbind, Act_bind.
      destruct (bag_total rnd w) as [nb ->]. unfold setNextBag, modify, mret, Act_ret.
      by intros [= <- <-].
    - by injection Hq as <- <-. }
  unfold setQueue, setRunning, setCanHold, setActive, modify, try, mret, Act_ret.
  cbn [st calls deferred].
  destruct (head (queue r)) as [key|]; [|done].
  destruct (spawnPiece key) as [piece|] eqn:Hpiece; [|done].
  destruct (collides (board r) piece) as [[|]|]; [| |done];
    intros [= <- <-]; cbn; (split; [done|]); exists piece; (split; [done|]);
    by rewrite (spawnPiece_kind _ _ Hpiece).
Qed.

Lemma runUpdaters_atSpawn (us : list (State * bool)) rnd w a w' :
  runUpdaters us rnd w = Some (a, w') → us ≠ [] →
  ∃ p, active (st w') = Some p ∧ spawnPiece (Piece.k p) = Some p.
Proof.
  revert w. induction us as [|[r resetAcc] us IH]; intros w; [done|].
  cbn [runUpdaters]. unfold mbind, Act_bind.
  destruct (spawnUpdater r resetAcc rnd w) as [[[] w1]|] eqn:Hsp; [|done].
  intros Hrest _. destruct us as [|u us].
  - cbn [runUpdaters] in Hrest. injection Hrest as <- <-.
    by destruct (spawnUpdater_atSpawn _ _ _ _ _ _ Hsp) as [_ ?].
  - by apply (IH w1).
Qed.

Lemma step_activeOk rnd (r0 : State) (ev : Event) sn sn' :
  step rnd r0 ev sn = Some sn' → activeOk sn.1 → activeOk sn'.1.
Proof.
  unfold step, commit, mbind, Act_bind. destruct sn as [s n]. cbn [fst snd].
  destruct (handler r0 s ev rnd (mkPending s n [])) as [[[] w1]|] eqn:Hh; [|done].
  destruct (flush rnd w1) as [[[] w2]|] eqn:Hf; [|done].
  intros [= <-] Hok. cbn [fst].
  assert (moveInv s w1) as Hinv.
  { eapply keepsMove_handler; [exact Hh|]. right. by split. }
  unfold flush in Hf. destruct (deferred w1) as [|u us] eqn:Hd.
  - cbn [runUpdaters] in Hf. injection Hf as <-. cbn [st].
    destruct Hinv as [?|[Hb Ha]]; [done|]. unfold activeOk. by rewrite Hb.
  - destruct (runUpdaters_atSpawn _ _ _ _ _ Hf) as (p & Hp & Hsp); [done|].
    intros a Ha. rewrite Hp in Ha. injection Ha as <-. by right.
Qed.

Lemma steps_activeOk rnd (r0 : State) (evs : list Event) snt snt' :
  forallb notInterval evs = true → steps rnd r0 evs snt = Some snt' →
  activeOk snt.1.1 → activeOk snt'.1.1.
Proof.
  revert snt. induction evs as [|ev evs IH]; intros snt; cbn [steps forallb].
  - by intros _ [= <-].
  - intros [Hev Hevs]%andb_prop.
    destruct (stepT rnd r0 ev snt) as [snt1|] eqn:Hstep; [|done].
    intros Hrest Hok. apply (IH snt1 Hevs Hrest).
    destruct snt as [[s n] t]. apply stepT_commit in Hstep as [Hc _].
    assert (runs s ev t = (s, ev)) as Hruns by (by destruct ev).
    rewrite Hruns in Hc. by apply (step_activeOk rnd r0 ev (s, n) _ Hc).
Qed.

(** X25.  In every state of a session in which no held button repeats
    (no interval timer fires), the active piece does not collide with the
    grid, unless it is the spawn piece of its kind, in its spawn rotation
    at its spawn position: a move, a rotation or a drop by the current
    render never puts the piece on a filled cell or outside the well.
    What a repeat can do is the subject of X28. *)
Theorem moved_piece_never_overlaps rnd (evs : list Event) (s : State) (n : nat)
    (a : Piece.t) :
  forallb notInterval evs = true →
  play rnd evs = Some (s, n) → active s = Some a →
  free (board s) a = true ∨ spawnPiece (Piece.k a) = Some a.
Proof.
  intros Hevs (r0 & n0 & t & Hfirst & Hsteps)%play_steps.
  apply (steps_activeOk _ _ _ _ _ Hevs Hsteps). cbn [fst].
  destruct (firstRender_sessionOk rnd) as (r0' & n0' & Hfirst' & _ & Hnone & _).
  assert (r0' = r0) as -> by congruence.
  intros p Hp. congruence.
Qed.

Lemma moved_piece_never_overlaps_witness :
  ∃ s n a,
    play noEntropy [Mount; Click BtnLeft; Release; Key ArrowUp; Frame 2] = Some (s, n)
    ∧ active s = Some a
    ∧ (free (board s) a = true ∨ spawnPiece (Piece.k a) = Some a).
Proof.
  destruct (play noEntropy [Mount; Click BtnLeft; Release; Key ArrowUp; Frame 2])
    as [[s n]|] eqn:Hplay; [|by vm_compute in Hplay].
  destruct (active s) as [a|] eqn:Ha.
  - exists s, n, a. split; [reflexivity|]. split; [exact Ha|].
    exact (moved_piece_never_overlaps noEntropy
             [Mount; Click BtnLeft; Release; Key ArrowUp; Frame 2] s n a eq_refl Hplay Ha).
  - vm_compute in Hplay. injection Hplay as <- <-. discriminate Ha.
Defined.

(** ** A button that is held *)

(** A press of ◀ or ▶ in the render [s]: the first call of [startHold],
    and the timer it sets. *)
Lemma press_move rnd (r0 s : State) (n : nat) t (a : Piece.t) (b : Button) (dx : Z) :
  active s = Some a → wfBoard (board s) →
  (b = BtnLeft ∧ dx = (-1)%Z) ∨ (b = BtnRight ∧ dx = 1%Z) →
  stepT rnd r0 (Click b) (s, n, t) =
    Some (if free (board s) (moved a dx 0 (Piece.m a))
          then withActive s (Some (moved a dx 0 (Piece.m a))) else s, n, Some (s, b)).
Proof.
  intros Ha Hwf Hb. unfold stepT. cbn [runs fst snd handler].
  assert (commit rnd n (onButton r0 s b) s =
            Some (if free (board s) (moved a dx 0 (Piece.m a))
                  then withActive s (Some (moved a dx 0 (Piece.m a))) else s, n)) as ->.
  { apply commit_plain. destruct Hb as [[-> ->]|[-> ->]]; cbn [onButton]; rewrite Ha;
      rewrite (tryMove_run s a) by done; by destruct (free _ _). }
  by destruct Hb as [[-> ->]|[-> ->]].
Qed.

(** The timer of a press of ◀ or ▶ in the render [rp] fires: the piece of
    [rp] is tested against the grid of [rp], and made the active piece of
    the current state [s]. *)
Lemma interval_move rnd (r0 rp s : State) (n : nat) (a : Piece.t) (b : Button) (dx : Z) :
  active rp = Some a → wfBoard (board rp) →
  (b = BtnLeft ∧ dx = (-1)%Z) ∨ (b = BtnRight ∧ dx = 1%Z) →
  stepT rnd r0 Interval (s, n, Some (rp, b)) =
    Some (if free (board rp) (moved a dx 0 (Piece.m a))
          then withActive s (Some (moved a dx 0 (Piece.m a))) else s, n, Some (rp, b)).
Proof.
  intros Ha Hwf Hb. unfold stepT. cbn [runs fst snd handler timerAfter].
  assert (commit rnd n (onButton r0 rp b) s =
            Some (if free (board rp) (moved a dx 0 (Piece.m a))
                  then withActive s (Some (moved a dx 0 (Piece.m a))) else s, n)) as ->.
  { apply commit_plain. destruct Hb as [[-> ->]|[-> ->]]; cbn [onButton]; rewrite Ha;
      rewrite (tryMove_run rp a) by done; by destruct (free _ _). }
  done.
Qed.

Lemma press_soft rnd (r0 s : State) (n : nat) t (a : Piece.t) :
  active s = Some a → wfBoard (board s) →
  stepT rnd r0 (Click BtnSoft) (s, n, t) =
    Some (if free (board s) (moved a 0 1 (Piece.m a))
          then withActiveScore s (Some (moved a 0 1 (Piece.m a))) (score s + 1) else s,
          n, Some (s, BtnSoft)).
Proof.
  intros Ha Hwf. unfold stepT. cbn [runs fst snd handler onButton timerAfter repeats].
  assert (commit rnd n (softDrop s) s =
            Some (if free (board s) (moved a 0 1 (Piece.m a))
                  then withActiveScore s (Some (moved a 0 1 (Piece.m a))) (score s + 1)
                  else s, n)) as ->; [|done].
  apply commit_plain. rewrite (softDrop_run s a) by done. by destruct (free _ _).
Qed.

Lemma interval_soft rnd (r0 rp s : State) (n : nat) (a : Piece.t) :
  active rp = Some a → wfBoard (board rp) →
  stepT rnd r0 Interval (s, n, Some (rp, BtnSoft)) =
    Some (if free (board rp) (moved a 0 1 (Piece.m a))
          then withActiveScore s (Some (moved a 0 1 (Piece.m a))) (score s + 1) else s,
          n, Some (rp, BtnSoft)).
Proof.
  intros Ha Hwf. unfold stepT. cbn [runs fst snd handler onButton timerAfter].
  assert (commit rnd n (softDrop rp) s =
            Some (if free (board rp) (moved a 0 1 (Piece.m a))
                  then withActiveScore s (Some (moved a 0 1 (Piece.m a))) (score s + 1)
                  else s, n)) as ->; [|done].
  apply commit_plain. rewrite (softDrop_run rp a) by done. by destruct (free _ _).
Qed.

(** While nothing else happens, every firing of the timer of ◀ or ▶ sets
    the piece that the press has set. *)
Lemma intervals_move rnd (r0 rp s : State) (n : nat) (a : Piece.t) (b : Button) (dx : Z)
    (k : nat) :
  active rp = Some a → wfBoard (board rp) →
  (b = BtnLeft ∧ dx = (-1)%Z) ∨ (b = BtnRight ∧ dx = 1%Z) →
  (free (board rp) (moved a dx 0 (Piece.m a)) = true →
   active s = Some (moved a dx 0 (Piece.m a))) →
  steps rnd r0 (repeat Interval k) (s, n, Some (rp, b)) = Some (s, n, Some (rp, b)).
Proof.
  intros Ha Hwf Hb Hs. induction k as [|k IH]; [done|].
  cbn [repeat steps]. rewrite (interval_move rnd r0 rp s n a b dx) by done.
  destruct (free (board rp) (moved a dx 0 (Piece.m a))); [|done].
  assert (withActive s (Some (moved a dx 0 (Piece.m a))) = s) as ->; [|done].
  destruct s. cbn in Hs |- *. unfold withActive. cbn. by rewrite Hs.
Qed.

(** The same for ⬇: the piece stays, and the score goes up by one each
    time. *)
Lemma intervals_soft rnd (r0 rp s : State) (n : nat) (a : Piece.t) (c : Z) (k : nat) :
  active rp = Some a → wfBoard (board rp) →
  free (board rp) (moved a 0 1 (Piece.m a)) = true →
  steps rnd r0 (repeat Interval k)
        (withActiveScore s (Some (moved a 0 1 (Piece.m a))) c, n, Some (rp, BtnSoft))
  = Some (withActiveScore s (Some (moved a 0 1 (Piece.m a))) (c + Z.of_nat k), n,
          Some (rp, BtnSoft)).
Proof.
  intros Ha Hwf Hfree. revert c. induction k as [|k IH]; intros c.
  - cbn [repeat steps]. by rewrite Z.add_0_r.
  - cbn [repeat steps]. rewrite (interval_soft rnd r0 rp _ n a) by done. rewrite Hfree.
    change (withActiveScore (withActiveScore s (Some (moved a 0 1 (Piece.m a))) c)
              (Some (moved a 0 1 (Piece.m a)))
              (score (withActiveScore s (Some (moved a 0 1 (Piece.m a))) c) + 1))
      with (withActiveScore s (Some (moved a 0 1 (Piece.m a))) (c + 1)).
    rewrite IH. do 3 f_equal. unfold withActiveScore. f_equal. lia.
Qed.

(** X27.  A held button does not go on moving the piece.  The timer that
    a press of ◀, ▶ or ⬇ sets calls the function of the render of the
    press.  While nothing else happens, the piece is where the press has
    put it, one column or one row away, however often the timer fires;
    for ⬇ every firing adds one to the score. *)
Theorem held_button_moves_once rnd (r0 s : State) (n : nat) t (a : Piece.t) (k : nat) :
  active s = Some a → wfBoard (board s) →
  (∀ b dx, (b = BtnLeft ∧ dx = (-1)%Z) ∨ (b = BtnRight ∧ dx = 1%Z) →
     steps rnd r0 (Click b :: repeat Interval k) (s, n, t) =
       Some (if free (board s) (moved a dx 0 (Piece.m a))
             then withActive s (Some (moved a dx 0 (Piece.m a))) else s, n, Some (s, b)))
  ∧ steps rnd r0 (Click BtnSoft :: repeat Interval k) (s, n, t) =
      Some (if free (board s) (moved a 0 1 (Piece.m a))
            then withActiveScore s (Some (moved a 0 1 (Piece.m a)))
                                 (score s + 1 + Z.of_nat k)
            else s, n, Some (s, BtnSoft)).
Proof.
  intros Ha Hwf. split.
  - intros b dx Hb. cbn [steps]. rewrite (press_move rnd r0 s n t a b dx) by done.
    apply (intervals_move rnd r0 s _ n a b dx k Ha Hwf Hb).
    intros Hfree. by rewrite Hfree.
  - cbn [steps]. rewrite (press_soft rnd r0 s n t a) by done.
    destruct (free (board s) (moved a 0 1 (Piece.m a))) eqn:Hfree.
    + by apply intervals_soft.
    + induction k as [|k IH]; [done|].
      cbn [repeat steps]. rewrite (interval_soft rnd r0 s s n a) by done.
      by rewrite Hfree.
Qed.

Lemma held_button_moves_once_witness :
  (∀ b dx, (b = BtnLeft ∧ dx = (-1)%Z) ∨ (b = BtnRight ∧ dx = 1%Z) →
     steps noEntropy startState (Click b :: repeat Interval 3) (startState, 0, None) =
       Some (if free (board startState) (moved pieceO dx 0 (Piece.m pieceO))
             then withActive startState (Some (moved pieceO dx 0 (Piece.m pieceO)))
             else startState, 0, Some (startState, b)))
  ∧ steps noEntropy startState (Click BtnSoft :: repeat Interval 3) (startState, 0, None) =
      Some (if free (board startState) (moved pieceO 0 1 (Piece.m pieceO))
            then withActiveScore startState (Some (moved pieceO 0 1 (Piece.m pieceO)))
                                 (score startState + 1 + Z.of_nat 3)
            else startState, 0, Some (startState, BtnSoft)).
Proof.
  apply (held_button_moves_once noEntropy startState startState 0 None pieceO 3).
  - reflexivity.
  - apply wfBoard_emptyBoard.
Defined.

(** X28.  When the timer of a held button fires, the render of the press
    decides, not the current one: the piece that was active at the press,
    moved by one column or row, becomes the active piece of the current
    state whenever it fitted the grid of the press, whatever piece is
    active now and whatever the grid holds now.  After a lock this puts
    the locked piece back into play, on the cells it was merged into. *)
Theorem interval_runs_press_closure rnd (r0 rp s : State) (n : nat) (a : Piece.t) :
  active rp = Some a → wfBoard (board rp) →
  (∀ b dx, (b = BtnLeft ∧ dx = (-1)%Z) ∨ (b = BtnRight ∧ dx = 1%Z) →
     stepT rnd r0 Interval (s, n, Some (rp, b)) =
       Some (if free (board rp) (moved a dx 0 (Piece.m a))
             then withActive s (Some (moved a dx 0 (Piece.m a))) else s, n, Some (rp, b)))
  ∧ stepT rnd r0 Interval (s, n, Some (rp, BtnSoft)) =
      Some (if free (board rp) (moved a 0 1 (Piece.m a))
            then withActiveScore s (Some (moved a 0 1 (Piece.m a))) (score s + 1) else s,
            n, Some (rp, BtnSoft)).
Proof.
  intros Ha Hwf. split.
  - intros b dx Hb. by apply interval_move.
  - by apply interval_soft.
Qed.

(** The O-piece falls to the floor, ◀ is pressed and held, the next tick
    locks the piece and the T-piece spawns; then the timer fires: the
    O-piece is active again, on the cells that the lock has filled. *)
Lemma interval_runs_press_closure_witness :
  (∃ r0 n0, firstRender noEntropy = Some (r0, n0)
            ∧ steps noEntropy r0
                (Mount :: repeat (Frame 1) 18 ++ [Click BtnLeft; Frame 1]) (r0, n0, None)
              = Some (lockedState, 12, Some (pressState, BtnLeft)))
  ∧ stepT noEntropy pressState Interval (lockedState, 12, Some (pressState, BtnLeft)) =
      Some (withActive lockedState
              (Some (moved (Piece.mk 4 18 [[1; 1]; [1; 1]] "#F7D154" kO) (-1) 0
                       [[1; 1]; [1; 1]])),
            12, Some (pressState, BtnLeft))
  ∧ collides (board lockedState) (Piece.mk 3 18 [[1; 1]; [1; 1]] "#F7D154" kO) = Some true
  ∧ spawnPiece kO ≠ Some (Piece.mk 3 18 [[1; 1]; [1; 1]] "#F7D154" kO).
Proof.
  split.
  { destruct (firstRender noEntropy) as [[r0 n0]|] eqn:Hfirst; [|by vm_compute in Hfirst].
    exists r0, n0. split; [reflexivity|].
    vm_compute in Hfirst. injection Hfirst as <- <-. vm_compute. reflexivity. }
  split.
  { rewrite (proj1 (interval_runs_press_closure noEntropy pressState pressState lockedState
                      12 (Piece.mk 4 18 [[1; 1]; [1; 1]] "#F7D154" kO) eq_refl
                      wfBoard_emptyBoard)
               BtnLeft (-1)%Z (or_introl (conj eq_refl eq_refl))).
    cbn [Piece.m].
    assert (free (board pressState)
              (moved (Piece.mk 4 18 [[1; 1]; [1; 1]] "#F7D154" kO) (-1) 0 [[1; 1]; [1; 1]])
            = true) as -> by (vm_compute; reflexivity).
    reflexivity. }
  split; [vm_compute; reflexivity|]. vm_compute. discriminate.
Defined.
